(** * Real-time messaging layer of the job board: a shallow embedding

    The development follows [server/websocket.ts] (class [WebSocketManager]),
    the parts of [server/storage.ts] and [shared/schema.ts] it relies on, and
    the token issuance of [server/middleware/auth.ts] / [server/routes.ts].

    JavaScript numbers that hold identifiers and timestamps are integers [Z];
    the values of a parsed client frame, which the handler never validates,
    are [JsValue]s; socket objects are identified by a natural number
    (object identity);
    the array [clients] is a list, in push order; the [readyState] that the
    [ws] library keeps inside each socket object is a finite map from socket
    identities.  Everything a handler does to the outside world (a storage
    call, a frame written to a socket, a close frame) is recorded as a list of
    [Effect]s in the order the code performs them. *)

From Stdlib Require Import ZArith Ascii.
From stdpp Require Import gmap strings list sorting.

Local Open Scope string_scope.
Local Open Scope list_scope.
Local Open Scope Z_scope.

(** ** shared/schema.ts *)

Module Schema.

(** [messages] table row ([Message = typeof messages.$inferSelect]). *)
Record Message := mkMessage {
  m_id : Z;
  m_senderId : Z;
  m_receiverId : Z;
  m_content : string;
  m_read : bool;
  m_createdAt : Z
}.

(** [InsertMessage]: the insert schema omits [id], [read] and [createdAt]. *)
Record InsertMessage := mkInsertMessage {
  i_senderId : Z;
  i_receiverId : Z;
  i_content : string
}.

Record Invitation := mkInvitation {
  inv_id : Z;
  inv_jobId : Z;
  inv_candidateId : Z;
  inv_message : option string;
  inv_status : string;
  inv_createdAt : Z
}.

Record Job := mkJob {
  job_id : Z;
  job_companyId : Z;
  job_title : string
}.

Record Company := mkCompany {
  co_id : Z;
  co_ownerId : Z;
  co_name : string
}.

Record CandidateProfile := mkCandidateProfile {
  cp_id : Z;
  cp_userId : Z;
  cp_firstName : string;
  cp_lastName : string
}.

#[global] Instance Message_eq_dec : EqDecision Message.
Proof. solve_decision. Defined.
#[global] Instance InsertMessage_eq_dec : EqDecision InsertMessage.
Proof. solve_decision. Defined.
#[global] Instance Invitation_eq_dec : EqDecision Invitation.
Proof. solve_decision. Defined.
#[global] Instance Job_eq_dec : EqDecision Job.
Proof. solve_decision. Defined.
#[global] Instance Company_eq_dec : EqDecision Company.
Proof. solve_decision. Defined.

(** The [messages] table: its rows in insertion order and the next value
    of the [serial] primary key. *)
Record MessagesTable := mkMessagesTable {
  rows : list Message;
  next_id : Z
}.

(** [db.insert(messages).values(v).returning()] at server time [now]:
    [id] is drawn from the serial, [read] takes its column default
    [false] and [createdAt] its default [now()], because [InsertMessage]
    carries neither. *)
Definition insert_returning (now : Z) (v : InsertMessage) (t : MessagesTable)
  : Message * MessagesTable :=
  let row := {| m_id := next_id t;
                m_senderId := i_senderId v;
                m_receiverId := i_receiverId v;
                m_content := i_content v;
                m_read := false;
                m_createdAt := now |} in
  (row, {| rows := rows t ++ [row]; next_id := next_id t + 1 |}).

End Schema.
Import Schema.

(** ** Promises and exceptions *)

(** How an awaited storage call settles. *)
Inductive Promise (A : Type) :=
| Resolved (a : A)
| Rejected.
Arguments Resolved {A} a.
Arguments Rejected {A}.

(** A computation inside a [try] block: a value, or a thrown exception
    that transfers control to the [catch] block. *)
Inductive Exn (A : Type) :=
| Ok (a : A)
| Throw.
Arguments Ok {A} a.
Arguments Throw {A}.

#[global] Instance exn_bind : MBind Exn := λ A B k x,
  match x with
  | Ok a => k a
  | Throw => Throw
  end.

(** [await p] inside [try]: a rejection is rethrown. *)
Definition await {A} (p : Promise A) : Exn A :=
  match p with
  | Resolved a => Ok a
  | Rejected => Throw
  end.

(** [try { body } catch { handler }]. *)
Definition try_catch {A} (body : Exn A) (handler : A) : A :=
  match body with
  | Ok a => a
  | Throw => handler
  end.

(** ** jsonwebtoken *)

Module Jwt.

(** [interface JwtPayload] of middleware/auth.ts. *)
Record JwtPayload := mkPayload {
  userId : Z;
  email : string;
  role : string
}.

(** The signed claims: the payload with [iat] and [exp] (seconds). *)
Record Claims := mkClaims {
  payload : JwtPayload;
  iat : Z;
  exp : Z
}.

#[global] Instance JwtPayload_eq_dec : EqDecision JwtPayload.
Proof. solve_decision. Defined.
#[global] Instance Claims_eq_dec : EqDecision Claims.
Proof. solve_decision. Defined.

(** A decodable token: claims and a signature.  The signature is kept
    symbolically as the key and the claims it was computed over, so a
    token whose claims were edited after signing, or that was signed with
    another key, fails verification. *)
Record Token := mkToken {
  claims : Claims;
  sig_key : string;
  sig_over : Claims
}.

(** What arrives in the [token] query parameter: text that does not decode
    as a JWT, or a decodable token. *)
Inductive TokenString :=
| Garbage (s : string)
| Encoded (t : Token).

Definition digit_of (c : ascii) : option Z :=
  let n := Z.of_nat (nat_of_ascii c) in
  if bool_decide (48 ≤ n ≤ 57) then Some (n - 48) else None.

Fixpoint digits (acc : Z) (s : string) : option (Z * string) :=
  match s with
  | EmptyString => Some (acc, EmptyString)
  | String c rest =>
      match digit_of c with
      | Some d => digits (10 * acc + d) rest
      | None => Some (acc, s)
      end
  end.

(** The time-span strings accepted for [expiresIn], in seconds
    (["7d"], ["15m"], ...). *)
Definition span_seconds (s : string) : option Z :=
  match s with
  | String c _ =>
      match digit_of c, digits 0 s with
      | Some _, Some (n, "d") => Some (n * 24 * 60 * 60)
      | Some _, Some (n, "h") => Some (n * 60 * 60)
      | Some _, Some (n, "m") => Some (n * 60)
      | Some _, Some (n, "s") => Some n
      | _, _ => None
      end
  | EmptyString => None
  end.

(** [jwt.sign(payload, secret, { expiresIn })] at time [now]. *)
Definition sign (p : JwtPayload) (secret : string) (expiresIn : string)
    (now : Z) : option Token :=
  match span_seconds expiresIn with
  | Some d =>
      let c := {| payload := p; iat := now; exp := now + d |} in
      Some {| claims := c; sig_key := secret; sig_over := c |}
  | None => None
  end.

(** [jwt.verify(token, secret)] at time [now]: throws when no token is
    given, on text that does not decode, on a signature that does not
    match, and once [now >= exp]. *)
Definition verify (t : option TokenString) (secret : string) (now : Z)
  : Exn Claims :=
  match t with
  | None => Throw
  | Some (Garbage _) => Throw
  | Some (Encoded t) =>
      if bool_decide (sig_key t = secret ∧ sig_over t = claims t) then
        if bool_decide (now < exp (claims t)) then Ok (claims t) else Throw
      else Throw
  end.

(** Lifetime of a token, in seconds. *)
Definition lifetime (t : Token) : Z := exp (claims t) - iat (claims t).

End Jwt.

(** [process.env.JWT_SECRET || 'your_jwt_secret_for_dev_only']. *)
Definition JWT_SECRET (env : option string) : string :=
  match env with
  | Some s => if bool_decide (s = EmptyString) then "your_jwt_secret_for_dev_only" else s
  | None => "your_jwt_secret_for_dev_only"
  end.

(** ** The ws library: sockets and their ready state *)

Definition Socket := nat.

Inductive ReadyState := CONNECTING | OPEN | CLOSING | CLOSED.

#[global] Instance ReadyState_eq_dec : EqDecision ReadyState.
Proof. solve_decision. Defined.

(** ** Wire protocol *)

(** Server-to-client events; [JSON.stringify] of the object literal the
    code builds is determined by the constructor and its fields. *)
Inductive ServerEvent :=
| message (m : Message)                                   (* {type:'message', message} *)
| message_sent (messageId : Z)                            (* {type:'message_sent', messageId} *)
| error (msg : string)                                    (* {type:'error', message} *)
| new_invitation (i : Invitation) (j : Job) (c : Company). (* {type:'new_invitation', invitation:{...i, job:{...j, company:c}}} *)

#[global] Instance ServerEvent_eq_dec : EqDecision ServerEvent.
Proof. solve_decision. Defined.

(** A JavaScript value as far as the handlers can tell values apart.
    The handler of inbound frames does not validate what [JSON.parse]
    returns, so the properties it reads hold any JSON value; a property
    that is absent reads as [undefined].  Arrays and objects are only
    tested for truthiness, compared with [===] against a number and handed
    to storage, so they are kept as their JSON text. *)
Inductive JsValue :=
| JsUndefined
| JsNull
| JsBool (b : bool)
| JsNumber (n : Z)              (* a number whose value is an integer *)
| JsFraction (text : string)    (* any other number, such as 2.5 *)
| JsString (s : string)
| JsComposite (text : string).  (* an array or an object *)

#[global] Instance JsValue_eq_dec : EqDecision JsValue.
Proof. solve_decision. Defined.

(** The properties of a parsed client frame that the handler reads. *)
Record ClientData := mkClientData {
  d_type : JsValue;
  d_receiverId : JsValue;
  d_content : JsValue
}.

(** What [JSON.parse] returns, as far as the handler can tell: [null], on
    which a property access throws; an object, with the three properties
    the handler reads; or a number, string, boolean or array, on which
    none of the three properties exists. *)
Inductive JsonValue :=
| JsonNull
| JsonObject (d : ClientData)
| JsonOther (text : string).

(** An inbound text frame: text that is not JSON, or the text of a JSON
    value. *)
Inductive RawFrame :=
| NotJson (text : string)
| JsonText (v : JsonValue).

(** [JSON.parse(message)]: throws a SyntaxError on text that is not JSON. *)
Definition JSON_parse (f : RawFrame) : Exn JsonValue :=
  match f with
  | NotJson _ => Throw
  | JsonText v => Ok v
  end.

(** Reading [data.type], [data.receiverId], [data.content]: a TypeError on
    [null], [undefined] on a value that has no such property. *)
Definition properties (v : JsonValue) : Exn ClientData :=
  match v with
  | JsonNull => Throw
  | JsonObject d => Ok d
  | JsonOther _ =>
      Ok {| d_type := JsUndefined; d_receiverId := JsUndefined;
            d_content := JsUndefined |}
  end.

(** JavaScript truthiness: what [&&] and [if] test. *)
Definition truthy (v : JsValue) : bool :=
  match v with
  | JsUndefined | JsNull => false
  | JsBool b => b
  | JsNumber n => negb (n =? 0)
  | JsFraction _ => true
  | JsString s => negb (bool_decide (s = EmptyString))
  | JsComposite _ => true
  end.

(** The object literal the handler passes to [storage.createMessage].
    Its TypeScript type is [InsertMessage], but types are erased at run
    time and [data] is [any]: [receiverId] and [content] are whatever the
    frame held. *)
Record MessageValues := mkMessageValues {
  a_senderId : Z;
  a_receiverId : JsValue;
  a_content : JsValue
}.

#[global] Instance MessageValues_eq_dec : EqDecision MessageValues.
Proof. solve_decision. Defined.

(** ** Observable effects *)

Inductive Effect :=
| CallCreateMessage (v : MessageValues)  (* storage.createMessage(v) is invoked *)
| Persisted (m : Message)                (* the insert committed and returned row m *)
| Send (s : Socket) (e : ServerEvent)    (* s.send(JSON.stringify(e)) *)
| Close (s : Socket) (code : Z) (reason : string). (* s.close(code, reason) *)

#[global] Instance Effect_eq_dec : EqDecision Effect.
Proof. solve_decision. Defined.

Definition is_send (e : Effect) : bool :=
  match e with Send _ _ => true | _ => false end.

(** The events delivered to one socket, in order. *)
Fixpoint received (s : Socket) (tr : list Effect) : list ServerEvent :=
  match tr with
  | [] => []
  | Send s' e :: tr => if bool_decide (s' = s) then e :: received s tr else received s tr
  | _ :: tr => received s tr
  end.

Definition is_message_event (e : ServerEvent) : bool :=
  match e with message _ => true | _ => false end.

(** ** server/websocket.ts *)

(** [interface ConnectedClient]. *)
Record ConnectedClient := mkClient {
  c_userId : Z;
  c_socket : Socket
}.

#[global] Instance ConnectedClient_eq_dec : EqDecision ConnectedClient.
Proof. solve_decision. Defined.

(** The state the handlers run against. *)
Record World := mkWorld {
  clients : list ConnectedClient;        (* WebSocketManager.clients *)
  readyState : gmap Socket ReadyState;   (* readyState of every socket object created so far *)
  listeners : gmap Socket Z;             (* sockets carrying the 'message' and 'close' listeners
                                            attached by initialize, with the userId they close over *)
  messages : MessagesTable;              (* the messages table behind storage *)
  awaiting : list MessageValues          (* message handlers suspended at await storage.createMessage *)
}.

Definition initial_world : World :=
  {| clients := []; readyState := ∅; listeners := ∅;
     messages := {| rows := []; next_id := 1 |}; awaiting := [] |}.

Definition set_clients (cs : list ConnectedClient) (w : World) : World :=
  {| clients := cs; readyState := readyState w; listeners := listeners w;
     messages := messages w; awaiting := awaiting w |}.

Definition set_readyState (s : Socket) (r : ReadyState) (w : World) : World :=
  {| clients := clients w; readyState := <[s := r]> (readyState w);
     listeners := listeners w; messages := messages w; awaiting := awaiting w |}.

Definition add_listeners (s : Socket) (u : Z) (w : World) : World :=
  {| clients := clients w; readyState := readyState w;
     listeners := <[s := u]> (listeners w); messages := messages w;
     awaiting := awaiting w |}.

Definition set_messages (t : MessagesTable) (w : World) : World :=
  {| clients := clients w; readyState := readyState w; listeners := listeners w;
     messages := t; awaiting := awaiting w |}.

Definition set_awaiting (a : list MessageValues) (w : World) : World :=
  {| clients := clients w; readyState := readyState w; listeners := listeners w;
     messages := messages w; awaiting := a |}.

(** [client.socket.readyState === WebSocket.OPEN]. *)
Definition socket_open (w : World) (c : ConnectedClient) : bool :=
  bool_decide (readyState w !! c_socket c = Some OPEN).

(** The [forEach] of [sendToUser], threading the local [sent]. *)
Fixpoint forEach_send (w : World) (data : ServerEvent)
    (userClients : list ConnectedClient) (sent : bool) : bool * list Effect :=
  match userClients with
  | [] => (sent, [])
  | client :: rest =>
      if socket_open w client then
        let '(sent', out) := forEach_send w data rest true in
        (sent', Send (c_socket client) data :: out)
      else forEach_send w data rest sent
  end.

(** [sendToUser(userId, data)]: the boolean it returns and the frames it
    writes.  The parameter is declared [number], but the relay passes
    [data.receiverId] as it came in the frame; [client.userId === userId]
    holds only for a number equal to the registered id. *)
Definition sendToUser (w : World) (userId : JsValue) (data : ServerEvent)
  : bool * list Effect :=
  let userClients :=
    filter (λ client, JsNumber (c_userId client) = userId) (clients w) in
  if bool_decide (length userClients = 0%nat) then (false, [])
  else forEach_send w data userClients false.

(** [socket.close(code, reason)] of ws on an open socket: the socket
    goes to CLOSING and a close frame is written. *)
Definition socket_close (s : Socket) (code : Z) (reason : string) (w : World)
  : World * list Effect :=
  match readyState w !! s with
  | Some OPEN => (set_readyState s CLOSING w, [Close s code reason])
  | _ => (w, [])
  end.

(** [!token] for the value of [url.searchParams.get('token')]. *)
Definition token_missing (token : option Jwt.TokenString) : bool :=
  match token with
  | None => true
  | Some (Jwt.Garbage s) => bool_decide (s = EmptyString)
  | Some (Jwt.Encoded _) => false
  end.

(** The upgrade request as far as the ['connection'] listener reads it:
    whether [request.url] and the [Host] header make a URL at all, and
    what the [token] query parameter of that URL holds. *)
Inductive Request :=
| BadUrl                                  (* e.g. a Host header that is no host *)
| Url (token : option Jwt.TokenString).   (* the value of searchParams.get('token') *)

(** [new URL(request.url || '', `http://${request.headers.host}`)]
    followed by [url.searchParams.get('token')]: the constructor throws a
    TypeError on input that is no URL. *)
Definition URL_token (request : Request) : Exn (option Jwt.TokenString) :=
  match request with
  | BadUrl => Throw
  | Url token => Ok token
  end.

(** The ['connection'] listener of [initialize], run on socket [s] at time
    [now].  The URL is parsed before the [try] block is entered, so an
    exception of [new URL] leaves the listener: the result is [Throw]. *)
Definition on_connection (secret : string) (now : Z) (s : Socket)
    (request : Request) (w : World) : Exn (World * list Effect) :=
  token ← URL_token request;
  if token_missing token then Ok (socket_close s 1008 "Authentication required" w)
  else
    Ok (try_catch
          (decoded ← Jwt.verify token secret now;
           let userId := Jwt.userId (Jwt.payload decoded) in
           Ok (add_listeners s userId
                 (set_clients (clients w ++ [{| c_userId := userId; c_socket := s |}]) w),
               []))
          (socket_close s 1008 "Invalid authentication token" w)).

(** The ['close'] listener attached for [(userId, socket)]. *)
Definition on_close (userId : Z) (socket : Socket) (w : World) : World :=
  set_clients
    (filter (λ client, ¬ (c_userId client = userId ∧ c_socket client = socket))
            (clients w))
    w.

Definition error_frame : ServerEvent := error "Failed to process message".

(** The [catch] block of the ['message'] listener. *)
Definition on_message_catch (userId : Z) (w : World) : World * list Effect :=
  (w, (sendToUser w (JsNumber userId) error_frame).2).

(** The guard [data.type === 'message' && data.receiverId && data.content]. *)
Definition chat_guard (data : ClientData) : bool :=
  bool_decide (d_type data = JsString "message")
  && truthy (d_receiverId data)
  && truthy (d_content data).

(** The ['message'] listener up to its first suspension: it parses the
    frame and, if the guard passes, invokes [storage.createMessage] and
    suspends at the [await]; otherwise it is finished. *)
Definition on_message (userId : Z) (frame : RawFrame) (w : World)
  : World * list Effect :=
  try_catch
    (v ← JSON_parse frame;
     data ← properties v;
     if chat_guard data then
       let ins := {| a_senderId := userId;
                     a_receiverId := d_receiverId data;
                     a_content := d_content data |} in
       Ok (set_awaiting (awaiting w ++ [ins]) w, [CallCreateMessage ins])
     else Ok (w, []))
    (on_message_catch userId w).

(** How the database answers an insert.  It rejects, having drawn a value
    from the [serial] sequence or not (a violated constraint is detected
    after the id was drawn, a lost connection or an unreadable parameter
    before); or it commits at server time [now], storing [receiverId] and
    [content] as it read them from the parameters it was sent. *)
Inductive DbOutcome :=
| DbReject (serial_drawn : bool)
| DbCommit (now : Z) (receiverId : Z) (content : string).

(** The range of an [integer] column. *)
Definition int4 (n : Z) : Prop := -2147483648 ≤ n ≤ 2147483647.

(** The value of a non-empty string of decimal digits. *)
Definition decimal (s : string) : option Z :=
  match s with
  | EmptyString => None
  | String _ _ =>
      match Jwt.digits 0 s with
      | Some (n, EmptyString) => Some n
      | _ => None
      end
  end.

(** What an [integer] column can hold after an insert that was passed the
    value [v].  The driver sends parameters as text and the database reads
    them: a number with an integer value in range is stored as it is, a
    string of decimal digits as the number it spells; booleans, other
    numbers, arrays and objects are never read as an integer.  How other
    strings are read is the database's matter and left open. *)
Definition integer_column (v : JsValue) (stored : Z) : bool :=
  match v with
  | JsNumber n => bool_decide (stored = n ∧ int4 n)
  | JsString s =>
      match decimal s with
      | Some n => bool_decide (stored = n ∧ int4 n)
      | None => bool_decide (int4 stored)
      end
  | _ => false
  end.

(** What a [text] column can hold after an insert that was passed [v]: a
    string is stored as it is; the text the driver makes of any other
    value is left open. *)
Definition text_column (v : JsValue) (stored : string) : bool :=
  match v with
  | JsString s => bool_decide (stored = s)
  | _ => true
  end.

(** The answers the database can give to [createMessage(v)]. *)
Definition admissible (v : MessageValues) (o : DbOutcome) : bool :=
  match o with
  | DbReject _ => true
  | DbCommit _ receiverId content =>
      integer_column (a_receiverId v) receiverId
      && text_column (a_content v) content
  end.

(** A value drawn from the [serial] sequence and not used. *)
Definition skip_serial (t : MessagesTable) : MessagesTable :=
  {| rows := rows t; next_id := next_id t + 1 |}.

(** [DatabaseStorage.createMessage(v)]: the promise and the table after. *)
Definition createMessage (o : DbOutcome) (v : MessageValues) (t : MessagesTable)
  : Promise Message * MessagesTable :=
  match o with
  | DbReject serial_drawn => (Rejected, if serial_drawn then skip_serial t else t)
  | DbCommit now receiverId content =>
      let '(newMessage, t') :=
        insert_returning now {| i_senderId := a_senderId v;
                                i_receiverId := receiverId;
                                i_content := content |} t in
      (Resolved newMessage, t')
  end.

(** The rest of the ['message'] listener, run when the promise of
    [storage.createMessage(v)] settles, against the world of that moment. *)
Definition on_message_resume (v : MessageValues) (o : DbOutcome) (w : World)
  : World * list Effect :=
  let '(p, t') := createMessage o v (messages w) in
  let w' := set_messages t' w in
  try_catch
    (newMessage ← await p;
     let to_recipient := (sendToUser w' (a_receiverId v) (message newMessage)).2 in
     let to_sender :=
       (sendToUser w' (JsNumber (a_senderId v)) (message_sent (m_id newMessage))).2 in
     Ok (w', Persisted newMessage :: to_recipient ++ to_sender))
    (on_message_catch (a_senderId v) w').

(** ** server/storage.ts: the lookups behind invitation notifications *)

(** The part of [interface IStorage] that [sendInvitationNotification]
    consumes.  Each method is called once per notification, so a function
    to a promise describes any answer the store may give. *)
Record IStorage := mkStorage {
  getInvitation : Z → Promise (option Invitation);
  getJob : Z → Promise (option Job);
  getCompany : Z → Promise (option Company);
  getCandidateProfile : Z → Promise (option CandidateProfile)
}.

(** The tables read by [DatabaseStorage]. *)
Record Tables := mkTables {
  t_invitations : list Invitation;
  t_jobs : list Job;
  t_companies : list Company;
  t_candidateProfiles : list CandidateProfile
}.

(** [const [x] = await db.select().from(t).where(eq(col, k)); return x]. *)
Definition select_first {A} (col : A → Z) (k : Z) (t : list A) : Promise (option A) :=
  Resolved (head (filter (λ r, col r = k) t)).

(** [class DatabaseStorage]; [getCandidateProfile] selects on the
    [userId] column. *)
Definition DatabaseStorage (db : Tables) : IStorage :=
  {| getInvitation id := select_first inv_id id (t_invitations db);
     getJob id := select_first job_id id (t_jobs db);
     getCompany id := select_first co_id id (t_companies db);
     getCandidateProfile userId := select_first cp_userId userId (t_candidateProfiles db) |}.

(** What [sendInvitationNotification] has in hand when it reaches its
    final [return this.sendToUser(...)]: the user to notify and the event,
    or the early [return false]. *)
Definition invitation_lookup (storage : IStorage) (invitationId : Z)
  : Exn (option (Z * ServerEvent)) :=
  invitation ← await (getInvitation storage invitationId);
  match invitation with
  | None => Ok None
  | Some invitation =>
      job ← await (getJob storage (inv_jobId invitation));
      match job with
      | None => Ok None
      | Some job =>
          company ← await (getCompany storage (job_companyId job));
          match company with
          | None => Ok None
          | Some company =>
              candidateProfile ← await (getCandidateProfile storage (inv_candidateId invitation));
              match candidateProfile with
              | None => Ok None
              | Some candidateProfile =>
                  Ok (Some (cp_userId candidateProfile,
                            new_invitation invitation job company))
              end
          end
      end
  end.

(** [sendInvitationNotification(invitationId)]: the value its promise
    resolves to and the frames written.  The registry is read only by the
    final [sendToUser], so [w] is the world at that moment.  The outer
    [Exn] is what reaches the caller: [Throw] would be a rejected promise. *)
Definition sendInvitationNotification (storage : IStorage) (invitationId : Z)
    (w : World) : Exn (bool * list Effect) :=
  Ok (try_catch
        (target ← invitation_lookup storage invitationId;
         match target with
         | None => Ok (false, [])
         | Some (userId, data) => Ok (sendToUser w (JsNumber userId) data)
         end)
        (false, [])).

(** ** Token issuance: middleware/auth.ts and the auth routes *)

(** [createToken(payload)], minted at time [now]. *)
Definition createToken (secret : string) (now : Z) (payload : Jwt.JwtPayload)
  : option Jwt.Token :=
  Jwt.sign payload secret "7d" now.

(** The user record as far as the auth routes read it. *)
Record User := mkUser {
  u_id : Z;
  u_email : string;
  u_role : string
}.

(** The token that [POST /api/auth/login] (and [/register]) puts in the
    cookie for [user]. *)
Definition login_token (secret : string) (now : Z) (user : User) : option Jwt.Token :=
  createToken secret now
    {| Jwt.userId := u_id user; Jwt.email := u_email user; Jwt.role := u_role user |}.

(** The token that [GET /api/auth/ws-token] returns for the authenticated
    [req.user]. *)
Definition ws_token (secret : string) (now : Z) (req_user : User) : option Jwt.Token :=
  createToken secret now
    {| Jwt.userId := u_id req_user; Jwt.email := u_email req_user;
       Jwt.role := u_role req_user |}.

(** ** The event loop *)

(** What the event loop can run next.  Handlers run to completion (or to
    their [await]) before the next event is taken. *)
Inductive Event :=
| Connection (s : Socket) (request : Request) (now : Z)
    (* the server emits 'connection' for a new socket object *)
| Frame (s : Socket) (frame : RawFrame)
    (* socket s emits 'message' *)
| Settle (i : nat) (o : DbOutcome)
    (* the i-th pending storage.createMessage settles and its handler resumes *)
| Closing (s : Socket)
    (* the closing handshake starts: s goes to CLOSING *)
| Closed (s : Socket).
    (* ws sets readyState to CLOSED and emits 'close' on s *)

Section Server.

Variable secret : string.

(** The listener run for the event throws.  Nothing catches the
    exception, so the turn has no next world: the process exits and the
    run ends there.  (An ['error'] event of a socket, for which
    [initialize] attaches no listener, ends the process in the same way;
    the event loop below has no such event.) *)
Definition uncaught (w : World) (e : Event) : bool :=
  match e with
  | Connection s request now =>
      match readyState w !! s with
      | None =>
          match on_connection secret now s request (set_readyState s OPEN w) with
          | Throw => true
          | Ok _ => false
          end
      | Some _ => false
      end
  | _ => false
  end.

(** One turn of the event loop; [None] when the event cannot occur in
    this world (a settlement that is not [admissible] among them), or
    when the turn does not return to the event loop ([uncaught]). *)
Definition step (w : World) (e : Event) : option (World * list Effect) :=
  match e with
  | Connection s request now =>
      match readyState w !! s with
      | None =>
          match on_connection secret now s request (set_readyState s OPEN w) with
          | Ok next => Some next
          | Throw => None
          end
      | Some _ => None
      end
  | Frame s frame =>
      match readyState w !! s, listeners w !! s with
      | Some OPEN, Some userId | Some CLOSING, Some userId =>
          Some (on_message userId frame w)
      | _, _ => None
      end
  | Settle i o =>
      match awaiting w !! i with
      | Some v =>
          if admissible v o then
            Some (on_message_resume v o (set_awaiting (delete i (awaiting w)) w))
          else None
      | None => None
      end
  | Closing s =>
      match readyState w !! s with
      | Some OPEN => Some (set_readyState s CLOSING w, [])
      | _ => None
      end
  | Closed s =>
      match readyState w !! s with
      | Some OPEN | Some CLOSING =>
          let w' := set_readyState s CLOSED w in
          match listeners w !! s with
          | Some userId => Some (on_close userId s w', [])
          | None => Some (w', [])
          end
      | _ => None
      end
  end.

(** Worlds the server can be in, with the trace of effects so far. *)
Inductive reachable : World → list Effect → Prop :=
| reach_init : reachable initial_world []
| reach_step w tr e w' out :
    reachable w tr →
    step w e = Some (w', out) →
    reachable w' (tr ++ out).

End Server.

(** ** Vocabulary of the properties *)

(** [sockets(userId)]: the registry entries of a user whose socket is
    open, in registry order. *)
Definition live_clients (w : World) (userId : Z) : list ConnectedClient :=
  filter (λ c, socket_open w c) (filter (λ c, c_userId c = userId) (clients w)).

(** The frames [sendToUser] writes for [data]: one per live entry. *)
Definition pushes (w : World) (userId : Z) (data : ServerEvent) : list Effect :=
  (λ c, Send (c_socket c) data) <$> live_clients w userId.

(** The socket is in the registry, for some user. *)
Definition in_registry (w : World) (s : Socket) : Prop :=
  ∃ userId, {| c_userId := userId; c_socket := s |} ∈ clients w.


(** A chat frame that passes the handler's guard: [receiverId] and
    [content] are truthy, that is present and none of [null], [false],
    [0] and the empty string. *)
Definition accepted_chat_frame (frame : RawFrame) (data : ClientData) : Prop :=
  frame = JsonText (JsonObject data)
  ∧ d_type data = JsString "message"
  ∧ truthy (d_receiverId data) = true ∧ truthy (d_content data) = true.

(** The socket carries the listeners of [userId] and can still emit
    ['message']. *)
Definition listening (w : World) (s : Socket) (userId : Z) : Prop :=
  listeners w !! s = Some userId
  ∧ (readyState w !! s = Some OPEN ∨ readyState w !! s = Some CLOSING).

(** The JSON value has no [receiverId] or no [content]. *)
Definition lacks_field (v : JsonValue) : Prop :=
  match v with
  | JsonNull | JsonOther _ => True
  | JsonObject data => d_receiverId data = JsUndefined ∨ d_content data = JsUndefined
  end.

(** A JSON-parseable frame that lacks [receiverId] or [content]. *)
Definition incomplete_frame (frame : RawFrame) : Prop :=
  ∃ v, frame = JsonText v ∧ lacks_field v.

(** A frame that is not valid JSON at all. *)
Definition not_json (frame : RawFrame) : Prop :=
  ∃ text, frame = NotJson text.

Definition malformed_frame (frame : RawFrame) : Prop :=
  incomplete_frame frame ∨ not_json frame.

(** The credentials an upgrade is refused for. *)
Inductive refused_token (secret : string) (now : Z) : option Jwt.TokenString → Prop :=
| token_absent : refused_token secret now None
| token_malformed text : refused_token secret now (Some (Jwt.Garbage text))
| token_expired t :
    Jwt.exp (Jwt.claims t) ≤ now →
    refused_token secret now (Some (Jwt.Encoded t))
| token_tampered t :
    Jwt.sig_over t ≠ Jwt.claims t ∨ Jwt.sig_key t ≠ secret →
    refused_token secret now (Some (Jwt.Encoded t)).

(** The invitation or one of its linked records is not found. *)
Definition record_missing (storage : IStorage) (invitationId : Z) : Prop :=
  getInvitation storage invitationId = Resolved None
  ∨ ∃ invitation, getInvitation storage invitationId = Resolved (Some invitation)
    ∧ (getJob storage (inv_jobId invitation) = Resolved None
       ∨ ∃ job, getJob storage (inv_jobId invitation) = Resolved (Some job)
         ∧ (getCompany storage (job_companyId job) = Resolved None
            ∨ ∃ company, getCompany storage (job_companyId job) = Resolved (Some company)
              ∧ getCandidateProfile storage (inv_candidateId invitation) = Resolved None)).

(** What the registry and the sockets' ready states have to do with each
    other between two turns of the event loop. *)
Record lifecycle_inv (w : World) : Prop := mkInv {
  inv_listener : ∀ c, c ∈ clients w → listeners w !! c_socket c = Some (c_userId c);
  inv_not_closed : ∀ c, c ∈ clients w →
    readyState w !! c_socket c = Some OPEN ∨ readyState w !! c_socket c = Some CLOSING;
  inv_open_present : ∀ s, readyState w !! s = Some OPEN → in_registry w s;
  inv_nodup : NoDup (c_socket <$> clients w)
}.

(** The registry, the sockets and the listeners are the same in both
    worlds. *)
Definition same_registry (w w' : World) : Prop :=
  clients w' = clients w ∧ readyState w' = readyState w
  ∧ listeners w' = listeners w.

(** A world with two tabs of user 1 (sockets 0 and 1) and one session of
    user 2 (socket 2), all open. *)
Definition example_secret : string := JWT_SECRET None.

Definition example_token (userId : Z) : option Jwt.TokenString :=
  Jwt.Encoded <$>
    createToken example_secret 1000
      {| Jwt.userId := userId; Jwt.email := "u@example.org"; Jwt.role := "candidate" |}.

Definition example_events : list Event :=
  [Connection 0%nat (Url (example_token 1)) 1001;
   Connection 1%nat (Url (example_token 1)) 1002;
   Connection 2%nat (Url (example_token 2)) 1003].

Fixpoint run (secret : string) (w : World) (es : list Event)
  : option (World * list Effect) :=
  match es with
  | [] => Some (w, [])
  | e :: es =>
      match step secret w e with
      | Some (w', out) =>
          match run secret w' es with
          | Some (w'', out') => Some (w'', out ++ out')
          | None => None
          end
      | None => None
      end
  end.

Definition example_world : World :=
  {| clients := [ {| c_userId := 1; c_socket := 0%nat |};
                  {| c_userId := 1; c_socket := 1%nat |};
                  {| c_userId := 2; c_socket := 2%nat |} ];
     readyState := <[2%nat := OPEN]> (<[1%nat := OPEN]> (<[0%nat := OPEN]> ∅));
     listeners := <[2%nat := 2]> (<[1%nat := 1]> (<[0%nat := 1]> ∅));
     messages := {| rows := []; next_id := 1 |};
     awaiting := [] |}.

(** The same world after an upgrade with a token that does not decode
    (socket 3) and after socket 0 has closed. *)
Definition example_events_closed : list Event :=
  example_events ++
  [Connection 3%nat (Url (Some (Jwt.Garbage "not-a-jwt"))) 1004; Closed 0%nat].

Definition example_world_closed : World :=
  {| clients := [ {| c_userId := 1; c_socket := 1%nat |};
                  {| c_userId := 2; c_socket := 2%nat |} ];
     readyState := <[0%nat := CLOSED]>
                     (<[3%nat := CLOSING]>
                        (<[2%nat := OPEN]> (<[1%nat := OPEN]> (<[0%nat := OPEN]> ∅))));
     listeners := <[2%nat := 2]> (<[1%nat := 1]> (<[0%nat := 1]> ∅));
     messages := {| rows := []; next_id := 1 |};
     awaiting := [] |}.

(** User 1 sends ["hi"] to user 2 on socket 0: the frame, the insert it
    leads to, and the world while the insert is pending. *)
Definition example_data : ClientData :=
  {| d_type := JsString "message"; d_receiverId := JsNumber 2;
     d_content := JsString "hi" |}.

Definition example_frame : RawFrame := JsonText (JsonObject example_data).

Definition example_values : MessageValues :=
  {| a_senderId := 1; a_receiverId := JsNumber 2; a_content := JsString "hi" |}.

Definition example_insert : InsertMessage :=
  {| i_senderId := 1; i_receiverId := 2; i_content := "hi" |}.

Definition example_world_awaiting (v : MessageValues) : World :=
  set_awaiting [v] example_world.

(** The same message addressed to user 7, who has no session. *)
Definition example_data_offline : ClientData :=
  {| d_type := JsString "message"; d_receiverId := JsNumber 7;
     d_content := JsString "hi" |}.

Definition example_frame_offline : RawFrame :=
  JsonText (JsonObject example_data_offline).

Definition example_values_offline : MessageValues :=
  {| a_senderId := 1; a_receiverId := JsNumber 7; a_content := JsString "hi" |}.

(** The same message with the receiver's id written as a string:
    [{type:"message", receiverId:"2", content:"hi"}]. *)
Definition example_data_string_id : ClientData :=
  {| d_type := JsString "message"; d_receiverId := JsString "2";
     d_content := JsString "hi" |}.

Definition example_frame_string_id : RawFrame :=
  JsonText (JsonObject example_data_string_id).

Definition example_values_string_id : MessageValues :=
  {| a_senderId := 1; a_receiverId := JsString "2"; a_content := JsString "hi" |}.

(** The frame [{type:"message"}]: no [receiverId], no [content]. *)
Definition example_frame_incomplete : RawFrame :=
  JsonText (JsonObject {| d_type := JsString "message";
                          d_receiverId := JsUndefined;
                          d_content := JsUndefined |}).


(** An invitation whose job row is gone. *)
Definition example_tables : Tables :=
  {| t_invitations := [ {| inv_id := 5; inv_jobId := 9; inv_candidateId := 1;
                           inv_message := None; inv_status := "pending";
                           inv_createdAt := 900 |} ];
     t_jobs := [];
     t_companies := [];
     t_candidateProfiles := [] |}.

Definition example_user : User :=
  {| u_id := 1; u_email := "u@example.org"; u_role := "candidate" |}.

(** A token of user 1 whose [userId] claim was edited to 2 after
    signing. *)
Definition example_tampered_token : option Jwt.TokenString :=
  match example_token 1 with
  | Some (Jwt.Encoded t) =>
      Some (Jwt.Encoded
              {| Jwt.claims :=
                   {| Jwt.payload := {| Jwt.userId := 2;
                                        Jwt.email := "u@example.org";
                                        Jwt.role := "candidate" |};
                      Jwt.iat := Jwt.iat (Jwt.claims t);
                      Jwt.exp := Jwt.exp (Jwt.claims t) |};
                 Jwt.sig_key := Jwt.sig_key t;
                 Jwt.sig_over := Jwt.sig_over t |})
  | other => other
  end.

(** User 2 writes back to user 1, who has two tabs open. *)
Definition example_values_reply : MessageValues :=
  {| a_senderId := 2; a_receiverId := JsNumber 1; a_content := JsString "hello" |}.

(** ** Reading a trace *)

(** The rows a trace reports as persisted, oldest first. *)
Fixpoint persisted (tr : list Effect) : list Message :=
  match tr with
  | [] => []
  | Persisted m :: tr => m :: persisted tr
  | _ :: tr => persisted tr
  end.

(** The calls of [storage.createMessage] a trace reports. *)
Fixpoint create_calls (tr : list Effect) : list MessageValues :=
  match tr with
  | [] => []
  | CallCreateMessage v :: tr => v :: create_calls tr
  | _ :: tr => create_calls tr
  end.

(** The values of a row that an insert supplies. *)
Definition insert_of (m : Message) : InsertMessage :=
  {| i_senderId := m_senderId m; i_receiverId := m_receiverId m;
     i_content := m_content m |}.

(** The row is what the database can have made of the call [v]. *)
Definition stored_from (v : MessageValues) (m : Message) : Prop :=
  m_senderId m = a_senderId v
  ∧ integer_column (a_receiverId v) (m_receiverId m) = true
  ∧ text_column (a_content v) (m_content m) = true.

(** The frames [sendToUser] writes when it is passed the value [v] for
    [userId]: those for user [n] when [v] is the number [n], none
    otherwise. *)
Definition pushes_to (w : World) (v : JsValue) (data : ServerEvent) : list Effect :=
  match v with
  | JsNumber n => pushes w n data
  | _ => []
  end.

(** Reading [tr] from the left with the rows in [seen] persisted before
    it: every [message] event carries a row persisted earlier, and every
    [message_sent] the id of one. *)
Fixpoint pushed_after_persisted (seen : list Message) (tr : list Effect) : Prop :=
  match tr with
  | [] => True
  | Persisted m :: tr => pushed_after_persisted (m :: seen) tr
  | Send _ (message m) :: tr => m ∈ seen ∧ pushed_after_persisted seen tr
  | Send _ (message_sent id) :: tr =>
      (∃ m, m ∈ seen ∧ m_id m = id) ∧ pushed_after_persisted seen tr
  | _ :: tr => pushed_after_persisted seen tr
  end.

(** The turns of the event loop, case by case: the world and the effects
    each kind of turn ends with. *)
Inductive turn (secret : string) (w : World) : Event → World → list Effect → Prop :=
| turn_refused s token now reason :
    readyState w !! s = None →
    token_missing token = true ∨ Jwt.verify token secret now = Throw →
    turn secret w (Connection s (Url token) now)
      (set_readyState s CLOSING (set_readyState s OPEN w))
      [Close s 1008 reason]
| turn_accepted s token now decoded :
    readyState w !! s = None →
    token_missing token = false →
    Jwt.verify token secret now = Ok decoded →
    turn secret w (Connection s (Url token) now)
      (add_listeners s (Jwt.userId (Jwt.payload decoded))
         (set_clients
            (clients w ++ [{| c_userId := Jwt.userId (Jwt.payload decoded);
                              c_socket := s |}])
            (set_readyState s OPEN w)))
      []
| turn_frame_failed s frame userId :
    listeners w !! s = Some userId →
    JSON_parse frame = Throw ∨ frame = JsonText JsonNull →
    turn secret w (Frame s frame) w (pushes w userId error_frame)
| turn_frame_ignored s v data userId :
    listeners w !! s = Some userId →
    properties v = Ok data →
    chat_guard data = false →
    turn secret w (Frame s (JsonText v)) w []
| turn_frame_call s data userId :
    listeners w !! s = Some userId →
    chat_guard data = true →
    turn secret w (Frame s (JsonText (JsonObject data)))
      (set_awaiting
         (awaiting w ++ [{| a_senderId := userId; a_receiverId := d_receiverId data;
                            a_content := d_content data |}]) w)
      [CallCreateMessage {| a_senderId := userId; a_receiverId := d_receiverId data;
                            a_content := d_content data |}]
| turn_commit i v now receiverId content :
    awaiting w !! i = Some v →
    integer_column (a_receiverId v) receiverId = true →
    text_column (a_content v) content = true →
    let ins := {| i_senderId := a_senderId v; i_receiverId := receiverId;
                  i_content := content |} in
    turn secret w (Settle i (DbCommit now receiverId content))
      (set_messages (insert_returning now ins (messages w)).2
         (set_awaiting (delete i (awaiting w)) w))
      (Persisted (insert_returning now ins (messages w)).1
         :: pushes_to w (a_receiverId v) (message (insert_returning now ins (messages w)).1)
         ++ pushes w (a_senderId v)
              (message_sent (m_id (insert_returning now ins (messages w)).1)))
| turn_reject i v serial_drawn :
    awaiting w !! i = Some v →
    turn secret w (Settle i (DbReject serial_drawn))
      (set_messages (if serial_drawn then skip_serial (messages w) else messages w)
         (set_awaiting (delete i (awaiting w)) w))
      (pushes w (a_senderId v) error_frame)
| turn_closing s :
    readyState w !! s = Some OPEN →
    turn secret w (Closing s) (set_readyState s CLOSING w) []
| turn_closed_registered s userId :
    readyState w !! s = Some OPEN ∨ readyState w !! s = Some CLOSING →
    listeners w !! s = Some userId →
    turn secret w (Closed s) (on_close userId s (set_readyState s CLOSED w)) []
| turn_closed_refused s :
    readyState w !! s = Some OPEN ∨ readyState w !! s = Some CLOSING →
    listeners w !! s = None →
    turn secret w (Closed s) (set_readyState s CLOSED w) [].

(** Every pending insert and every stored row was sent by the user of a
    socket that passed authentication, and listeners sit on known
    sockets only. *)
Record sender_inv (w : World) : Prop := mkSenderInv {
  sender_known_socket : ∀ s u, listeners w !! s = Some u → is_Some (readyState w !! s);
  sender_awaiting : ∀ v, v ∈ awaiting w → ∃ s, listeners w !! s = Some (a_senderId v);
  sender_rows : ∀ m, m ∈ rows (messages w) → ∃ s, listeners w !! s = Some (m_senderId m)
}.

(** One more relay in the example world: the insert of user 1 to user 2
    has committed at time 2000. *)
Definition example_row : Message :=
  {| m_id := 1; m_senderId := 1; m_receiverId := 2; m_content := "hi";
     m_read := false; m_createdAt := 2000 |}.

Definition example_events_relayed : list Event :=
  example_events
  ++ [Frame 0%nat example_frame; Settle 0%nat (DbCommit 2000 2 "hi")].

Definition example_world_relayed : World :=
  set_messages {| rows := [example_row]; next_id := 2 |} example_world.

Definition example_trace_relayed : list Effect :=
  [CallCreateMessage example_values; Persisted example_row;
   Send 2%nat (message example_row);
   Send 0%nat (message_sent 1); Send 1%nat (message_sent 1)].

(** ** server/storage.ts: the message operations of [DatabaseStorage] *)

(** [getMessage(id)]: [const [message] = await db.select()...where(eq(id))]. *)
Definition getMessage (id : Z) (t : MessagesTable) : option Message :=
  head (filter (λ m, m_id m = id) (rows t)).

(** [.set({ read: true })] on one row. *)
Definition set_read_true (m : Message) : Message :=
  {| m_id := m_id m; m_senderId := m_senderId m; m_receiverId := m_receiverId m;
     m_content := m_content m; m_read := true; m_createdAt := m_createdAt m |}.

(** [db.update(messages).set({ read: true }).where(eq(messages.id, id))
    .returning()]: the updated rows and the table after. *)
Definition update_read_returning (id : Z) (t : MessagesTable)
  : list Message * MessagesTable :=
  (set_read_true <$> filter (λ m, m_id m = id) (rows t),
   {| rows := (λ m, if decide (m_id m = id) then set_read_true m else m) <$> rows t;
      next_id := next_id t |}).

(** [markMessageAsRead(id)]: the first updated row, or [undefined]. *)
Definition markMessageAsRead (id : Z) (t : MessagesTable)
  : option Message * MessagesTable :=
  let '(updated, t') := update_read_returning id t in (head updated, t').

(** [getUnreadMessageCount(userId)]: the SQL row count over the rows addressed to
    the user with [read = false]; [result[0].count || 0]. *)
Definition getUnreadMessageCount (userId : Z) (t : MessagesTable) : Z :=
  let count :=
    Z.of_nat (length (filter (λ m, m_receiverId m = userId ∧ m_read m = false)
                             (rows t))) in
  if count =? 0 then 0 else count.

(** [orderBy(desc(messages.createdAt))]: newest first.  Rows with equal
    [createdAt] come in an order the database leaves open; the properties
    below do not depend on it. *)
Definition newer_first (a b : Message) : Prop := m_createdAt b ≤ m_createdAt a.

#[global] Instance newer_first_dec a b : Decision (newer_first a b).
Proof. unfold newer_first. apply _. Defined.

#[global] Instance newer_first_total : Total newer_first.
Proof. intros a b. unfold newer_first. lia. Qed.

#[global] Instance newer_first_trans : Transitive newer_first.
Proof. intros a b c. unfold newer_first. lia. Qed.

Definition orderBy_createdAt_desc (l : list Message) : list Message :=
  merge_sort newer_first l.

(** The [where] clause of [getMessagesBetweenUsers]. *)
Definition between_users (user1Id user2Id : Z) (m : Message) : Prop :=
  (m_senderId m = user1Id ∧ m_receiverId m = user2Id)
  ∨ (m_senderId m = user2Id ∧ m_receiverId m = user1Id).

#[global] Instance between_users_dec u1 u2 m : Decision (between_users u1 u2 m).
Proof. unfold between_users. apply _. Defined.

(** [getMessagesBetweenUsers(user1Id, user2Id, limit = 50)]. *)
Definition getMessagesBetweenUsers (user1Id user2Id : Z) (limit : nat)
    (t : MessagesTable) : list Message :=
  take limit (orderBy_createdAt_desc (filter (between_users user1Id user2Id) (rows t))).

(** [getRecentMessagesByUser(userId, limit = 10)]. *)
Definition getRecentMessagesByUser (userId : Z) (limit : nat) (t : MessagesTable)
  : list Message :=
  take limit
    (orderBy_createdAt_desc
       (filter (λ m, m_senderId m = userId ∨ m_receiverId m = userId) (rows t))).

(** Ids are primary keys drawn from the serial. *)
Definition table_wf (t : MessagesTable) : Prop :=
  NoDup (m_id <$> rows t) ∧ Forall (λ m, m_id m < next_id t) (rows t).

(** A table with an old read message and two unread ones. *)
Definition example_table : MessagesTable :=
  {| rows := [ {| m_id := 1; m_senderId := 2; m_receiverId := 1; m_content := "a";
                  m_read := true; m_createdAt := 100 |};
               {| m_id := 2; m_senderId := 1; m_receiverId := 2; m_content := "b";
                  m_read := false; m_createdAt := 200 |};
               {| m_id := 3; m_senderId := 2; m_receiverId := 1; m_content := "c";
                  m_read := false; m_createdAt := 300 |};
               {| m_id := 4; m_senderId := 3; m_receiverId := 1; m_content := "d";
                  m_read := false; m_createdAt := 400 |} ];
     next_id := 5 |}.

(** ** Everything that writes to the messages table *)

(** The table is written by the socket server, when a relayed insert
    settles, and by the conversation route, which marks the messages it
    fetched read, one [markMessageAsRead(id)] at a time.  Each of these
    is one statement for the database, so they interleave freely. *)
Inductive Activity :=
| Turn (e : Event)     (* a turn of the socket server's event loop *)
| MarkRead (id : Z).   (* storage.markMessageAsRead(id), issued by a route *)

Definition act (secret : string) (w : World) (a : Activity)
  : option (World * list Effect) :=
  match a with
  | Turn e => step secret w e
  | MarkRead id => Some (set_messages (markMessageAsRead id (messages w)).2 w, [])
  end.

Fixpoint acts (secret : string) (w : World) (l : list Activity)
  : option (World * list Effect) :=
  match l with
  | [] => Some (w, [])
  | a :: l =>
      match act secret w a with
      | Some (w', out) =>
          match acts secret w' l with
          | Some (w'', out') => Some (w'', out ++ out')
          | None => None
          end
      | None => None
      end
  end.

(** [new] is the row [old], possibly marked read since. *)
Definition read_since (old new : Message) : Prop :=
  new = old ∨ new = set_read_true old.

(** ** server/routes.ts: the message routes *)

(** What a handler answers with: [res.status(s).json(body)]; [res.json]
    alone answers 200. *)
Inductive Body :=
| json_message (text : string)          (* { message: text } *)
| json_messages (l : list Message)      (* the rows, as an array *)
| json_invitation (i : option Invitation)
| json_count (count : Z).               (* { count } *)

Record Response := mkResponse {
  res_status : Z;
  res_body : Body
}.

(** How many more storage calls the database answers before one of them
    rejects; [None]: it answers them all. *)
Definition Budget := option nat.

(** One storage call: the budget left if it is answered, [None] if it
    rejects. *)
Definition answered (b : Budget) : option Budget :=
  match b with
  | None => Some None
  | Some O => None
  | Some (S n) => Some (Some n)
  end.

(** [message.senderId === otherUserId && !message.read]. *)
Definition unread_from (otherUserId : Z) (msg : Message) : Prop :=
  m_senderId msg = otherUserId ∧ m_read msg = false.

#[global] Instance unread_from_dec o m : Decision (unread_from o m).
Proof. unfold unread_from. apply _. Defined.

(** The loop of [GET /api/messages/:userId] over the fetched rows:
    [for (const message of messages) if (...) await
    storage.markMessageAsRead(message.id)].  A rejected call leaves the
    loop through the route's [catch]; the marks made before it stay. *)
Fixpoint mark_fetched_read (otherUserId : Z) (fetched : list Message)
    (b : Budget) (t : MessagesTable) : Exn unit * MessagesTable :=
  match fetched with
  | [] => (Ok tt, t)
  | msg :: rest =>
      if decide (unread_from otherUserId msg) then
        match answered b with
        | Some b' =>
            mark_fetched_read otherUserId rest b'
              (markMessageAsRead (m_id msg) t).2
        | None => (Throw, t)
        end
      else mark_fetched_read otherUserId rest b t
  end.

(** [GET /api/messages/:userId] for the authenticated user [userId] and a
    [:userId] parameter that [parseInt] reads as [otherUserId]: the
    response and the table after. *)
Definition get_conversation (userId otherUserId : Z) (b : Budget)
    (t : MessagesTable) : Response * MessagesTable :=
  match answered b with
  | Some b' =>
      let fetched := getMessagesBetweenUsers userId otherUserId 50 t in
      match mark_fetched_read otherUserId fetched b' t with
      | (Ok _, t') => ({| res_status := 200; res_body := json_messages fetched |}, t')
      | (Throw, t') =>
          ({| res_status := 500;
              res_body := json_message "Server error while fetching messages" |}, t')
      end
  | None =>
      ({| res_status := 500;
          res_body := json_message "Server error while fetching messages" |}, t)
  end.

(** [GET /api/messages/unread/count]. *)
Definition get_unread_count (userId : Z) (b : Budget) (t : MessagesTable) : Response :=
  match answered b with
  | Some _ => {| res_status := 200;
                 res_body := json_count (getUnreadMessageCount userId t) |}
  | None => {| res_status := 500;
               res_body := json_message "Server error while counting unread messages" |}
  end.

(** The rows of [l] with [read] set on those whose id is in [ids]. *)
Definition mark_all (ids : list Z) (l : list Message) : list Message :=
  (λ m, if decide (m_id m ∈ ids) then set_read_true m else m) <$> l.

(** The storage calls a conversation fetch needs: the query and one
    update per fetched row that is unread and from the other user. *)
Definition calls_needed (userId otherUserId : Z) (t : MessagesTable) : nat :=
  S (length (filter (unread_from otherUserId)
                    (getMessagesBetweenUsers userId otherUserId 50 t))).

Definition enough (b : Budget) (n : nat) : Prop :=
  match b with
  | None => True
  | Some k => (n ≤ k)%nat
  end.

(** ** server/middleware/auth.ts: the Express middleware *)

(** What a middleware does with a request: it answers it, or calls
    [next()] with [req.user] as it then stands. *)
Inductive Passed :=
| Answer (r : Response)
| Next (req_user : User).

(** [storage.getUser(id)] over the users table, as far as the auth layer
    reads a user row. *)
Definition getUser (users : list User) (id : Z) : Promise (option User) :=
  select_first u_id id users.

(** [authenticateToken], for the [token] cookie of the request
    ([req.cookies?.token]), run at time [now] against a storage whose
    [getUser] is given. *)
Definition authenticateToken (secret : string) (now : Z)
    (cookie : option Jwt.TokenString) (get_user : Z → Promise (option User))
  : Passed :=
  if token_missing cookie then
    Answer {| res_status := 401; res_body := json_message "Authentication required" |}
  else
    try_catch
      (decoded ← Jwt.verify cookie secret now;
       user ← await (get_user (Jwt.userId (Jwt.payload decoded)));
       match user with
       | None =>
           Ok (Answer {| res_status := 401; res_body := json_message "User not found" |})
       | Some user =>
           Ok (Next {| u_id := u_id user; u_email := u_email user;
                       u_role := u_role user |})
       end)
      (Answer {| res_status := 403;
                 res_body := json_message "Invalid or expired token" |}).




(** A users table in which user 1 has become an employer after the
    example token (role claim ["candidate"]) was minted. *)
Definition example_users : list User :=
  [ {| u_id := 1; u_email := "u@example.org"; u_role := "employer" |};
    {| u_id := 2; u_email := "v@example.org"; u_role := "candidate" |} ].

(** An invitation for the candidate profile 1, which belongs to user 2,
    while user 1 owns profile 2. *)
Definition example_tables_crossed : Tables :=
  {| t_invitations := [ {| inv_id := 5; inv_jobId := 9; inv_candidateId := 1;
                           inv_message := None; inv_status := "pending";
                           inv_createdAt := 900 |} ];
     t_jobs := [ {| job_id := 9; job_companyId := 4; job_title := "Intern" |} ];
     t_companies := [ {| co_id := 4; co_ownerId := 3; co_name := "Acme" |} ];
     t_candidateProfiles :=
       [ {| cp_id := 1; cp_userId := 2; cp_firstName := "V"; cp_lastName := "W" |};
         {| cp_id := 2; cp_userId := 1; cp_firstName := "U"; cp_lastName := "X" |} ] |}.

(** ** server/routes.ts: the invitation routes *)

(** The tables of [Tables] with the serial of [invitations.id]. *)
Record Db := mkDb {
  db_tables : Tables;
  db_invitation_serial : Z
}.

(** [InsertInvitation]: the insert schema omits [id], [status] and
    [createdAt]. *)
Record InsertInvitation := mkInsertInvitation {
  ii_jobId : Z;
  ii_candidateId : Z;
  ii_message : option string
}.

Definition lookup_by {A} (col : A → Z) (k : Z) (t : list A) : option A :=
  head (filter (λ r, col r = k) t).

(** The foreign keys of [invitations]: [job_id] references [jobs.id] and
    [candidate_id] references [candidate_profiles.id]. *)
Definition invitation_references_hold (v : InsertInvitation) (t : Tables) : bool :=
  bool_decide (is_Some (lookup_by job_id (ii_jobId v) (t_jobs t))
               ∧ is_Some (lookup_by cp_id (ii_candidateId v) (t_candidateProfiles t))).

(** [createInvitation(v)] at server time [now]: the row gets the next
    id, the default status ["pending"] and the default [createdAt].  The
    references are checked once the row, with its id, has been formed:
    when one does not hold the insert is rejected and the id it drew from
    the sequence is lost. *)
Definition createInvitation (now : Z) (v : InsertInvitation) (db : Db)
  : Promise Invitation * Db :=
  if invitation_references_hold v (db_tables db) then
    let row := {| inv_id := db_invitation_serial db;
                  inv_jobId := ii_jobId v;
                  inv_candidateId := ii_candidateId v;
                  inv_message := ii_message v;
                  inv_status := "pending";
                  inv_createdAt := now |} in
    (Resolved row,
     {| db_tables :=
          {| t_invitations := t_invitations (db_tables db) ++ [row];
             t_jobs := t_jobs (db_tables db);
             t_companies := t_companies (db_tables db);
             t_candidateProfiles := t_candidateProfiles (db_tables db) |};
        db_invitation_serial := db_invitation_serial db + 1 |})
  else
    (Rejected,
     {| db_tables := db_tables db;
        db_invitation_serial := db_invitation_serial db + 1 |}).

Definition set_status (status : string) (i : Invitation) : Invitation :=
  {| inv_id := inv_id i; inv_jobId := inv_jobId i;
     inv_candidateId := inv_candidateId i; inv_message := inv_message i;
     inv_status := status; inv_createdAt := inv_createdAt i |}.

(** [updateInvitationStatus(id, status)]: the first updated row and the
    database after. *)
Definition updateInvitationStatus (id : Z) (status : string) (db : Db)
  : option Invitation * Db :=
  (set_status status <$> lookup_by inv_id id (t_invitations (db_tables db)),
   {| db_tables :=
        {| t_invitations :=
             (λ i, if decide (inv_id i = id) then set_status status i else i)
               <$> t_invitations (db_tables db);
           t_jobs := t_jobs (db_tables db);
           t_companies := t_companies (db_tables db);
           t_candidateProfiles := t_candidateProfiles (db_tables db) |};
      db_invitation_serial := db_invitation_serial db |}).

Definition server_error (text : string) : Response :=
  {| res_status := 500; res_body := json_message text |}.

(** [POST /api/invitations] behind [authenticateToken] and
    [requireEmployer], for [req.user] and a body that
    [insertInvitationSchema.parse] accepts as [Some v] or refuses
    ([None]).  Besides the response and the database, the result names
    the invitation handed to [wsManager.sendInvitationNotification],
    which the route does not await. *)
Definition post_invitation (req_user : User) (body : option InsertInvitation)
    (now : Z) (b : Budget) (db : Db) : Response * Db * option Z :=
  match body with
  | None => ({| res_status := 400; res_body := json_message "Invalid data" |}, db, None)
  | Some invitationData =>
      match answered b with
      | None => (server_error "Server error while creating invitation", db, None)
      | Some b1 =>
          match lookup_by job_id (ii_jobId invitationData) (t_jobs (db_tables db)) with
          | None =>
              ({| res_status := 404; res_body := json_message "Job not found" |}, db, None)
          | Some job =>
              match answered b1 with
              | None => (server_error "Server error while creating invitation", db, None)
              | Some b2 =>
                  match lookup_by co_id (job_companyId job)
                                  (t_companies (db_tables db)) with
                  | Some company =>
                      if bool_decide (co_ownerId company ≠ u_id req_user) then
                        ({| res_status := 403;
                            res_body := json_message
                              "You do not have permission to create invitations for this job" |},
                         db, None)
                      else
                        match answered b2 with
                        | None =>
                            (server_error "Server error while creating invitation",
                             db, None)
                        | Some _ =>
                            match createInvitation now invitationData db with
                            | (Resolved invitation, db') =>
                                ({| res_status := 201;
                                    res_body := json_invitation (Some invitation) |},
                                 db', Some (inv_id invitation))
                            | (Rejected, db') =>
                                (server_error "Server error while creating invitation",
                                 db', None)
                            end
                        end
                  | None =>
                      ({| res_status := 403;
                          res_body := json_message
                            "You do not have permission to create invitations for this job" |},
                       db, None)
                  end
              end
          end
      end
  end.

(** [!status || !["accepted", "declined"].includes(status)]. *)
Definition invalid_status (status : option string) : bool :=
  match status with
  | None => true
  | Some s => bool_decide (s = EmptyString)
              || negb (bool_decide (s = "accepted" ∨ s = "declined"))
  end.

(** [PATCH /api/invitations/:id/respond] behind [authenticateToken] and
    [requireCandidate], for an [:id] that [parseInt] reads as
    [invitationId] and the [status] property of the body. *)
Definition respond_invitation (req_user : User) (invitationId : Z)
    (status : option string) (b : Budget) (db : Db) : Response * Db :=
  if invalid_status status then
    ({| res_status := 400; res_body := json_message "Invalid status" |}, db)
  else
    match answered b with
    | None => (server_error "Server error while responding to invitation", db)
    | Some b1 =>
        match lookup_by inv_id invitationId (t_invitations (db_tables db)) with
        | None =>
            ({| res_status := 404; res_body := json_message "Invitation not found" |}, db)
        | Some invitation =>
            match answered b1 with
            | None => (server_error "Server error while responding to invitation", db)
            | Some b2 =>
                match lookup_by cp_userId (u_id req_user)
                                (t_candidateProfiles (db_tables db)) with
                | None =>
                    ({| res_status := 404;
                        res_body := json_message "Candidate profile not found" |}, db)
                | Some candidateProfile =>
                    if bool_decide (inv_candidateId invitation ≠ cp_id candidateProfile)
                    then
                      ({| res_status := 403;
                          res_body := json_message
                            "You do not have permission to respond to this invitation" |},
                       db)
                    else
                      match answered b2 with
                      | None =>
                          (server_error "Server error while responding to invitation", db)
                      | Some _ =>
                          let '(updatedInvitation, db') :=
                            updateInvitationStatus invitationId
                              (default EmptyString status) db in
                          ({| res_status := 200;
                              res_body := json_invitation updatedInvitation |}, db')
                      end
                end
            end
        end
    end.

(** The crossed example with its serial, and the employer who owns the
    company. *)
Definition example_db : Db :=
  {| db_tables := example_tables_crossed; db_invitation_serial := 6 |}.

Definition example_employer : User :=
  {| u_id := 3; u_email := "e@example.org"; u_role := "employer" |}.

(** ** server/services/fileUpload.ts *)

(** The fields of [Express.Multer.File] that the service reads. *)
Record MulterFile := mkFile {
  f_originalname : string;
  f_mimetype : string;
  f_size : Z
}.

(** The two errors of [validateFile]; the message text is built from the
    limit, respectively from the list of allowed types. *)
Inductive FileError :=
| size_exceeds_limit (maxSizeBytes : Z)
| type_not_allowed (allowedTypes : list string).

(** [{ valid: boolean; error?: string }]. *)
Record Validation := mkValidation {
  v_valid : bool;
  v_error : option FileError
}.

Definition default_allowedTypes : list string :=
  ["application/pdf"; "application/msword";
   "application/vnd.openxmlformats-officedocument.wordprocessingml.document"].

Definition default_maxSizeBytes : Z := 5 * 1024 * 1024.

(** [validateFile(file, allowedTypes, maxSizeBytes)]. *)
Definition validateFile (file : MulterFile) (allowedTypes : list string)
    (maxSizeBytes : Z) : Validation :=
  if bool_decide (f_size file > maxSizeBytes) then
    {| v_valid := false; v_error := Some (size_exceeds_limit maxSizeBytes) |}
  else if negb (bool_decide (f_mimetype file ∈ allowedTypes)) then
    {| v_valid := false; v_error := Some (type_not_allowed allowedTypes) |}
  else {| v_valid := true; v_error := None |}.

(** The validation of [POST /api/candidate/resume] (defaults) and of
    [POST /api/parse-resume] (PDF only). *)
Definition validate_resume_upload (file : MulterFile) : Validation :=
  validateFile file default_allowedTypes default_maxSizeBytes.

Definition validate_resume_parse (file : MulterFile) : Validation :=
  validateFile file ["application/pdf"] default_maxSizeBytes.

(** [s.split(sep)] for a one-character separator: the pieces between the
    separators, never an empty array. *)
Fixpoint split_on (sep : ascii) (s : string) : list string :=
  match s with
  | EmptyString => [EmptyString]
  | String c rest =>
      if bool_decide (c = sep) then EmptyString :: split_on sep rest
      else match split_on sep rest with
           | piece :: pieces => String c piece :: pieces
           | [] => [String c EmptyString]
           end
  end.

(** [file.originalname.split('.').pop()]. *)
Definition fileExtension (originalname : string) : string :=
  default EmptyString (last (split_on "." originalname)).

(** The S3 key of [uploadToS3] for the UUID drawn by [randomUUID()]:
    [`${prefix}/${uuid}.${fileExtension}`]. *)
Definition upload_key (prefix uuid : string) (file : MulterFile) : string :=
  String.append prefix
    (String.append "/"
       (String.append uuid (String.append "." (fileExtension (f_originalname file))))).

(** A character occurs in a string. *)
Fixpoint occurs (c : ascii) (s : string) : Prop :=
  match s with
  | EmptyString => False
  | String c' rest => c' = c ∨ occurs c rest
  end.

(** * Properties *)

(** ** [sendToUser] *)

Lemma forEach_send_spec w data cs sent :
  forEach_send w data cs sent
  = (sent || bool_decide (filter (λ c, socket_open w c) cs ≠ []),
     (λ c, Send (c_socket c) data) <$> filter (λ c, socket_open w c) cs).
Proof.
  revert sent. induction cs as [|c cs IH]; intros sent; simpl.
  - by rewrite orb_false_r.
  - destruct (socket_open w c) eqn:Hc.
    + rewrite IH, filter_cons_True by (by apply Is_true_true). simpl.
      by rewrite orb_true_r.
    + rewrite IH, filter_cons_False by (by apply Is_true_false). done.
Qed.

Lemma sendToUser_spec w userId data :
  sendToUser w (JsNumber userId) data
  = (bool_decide (live_clients w userId ≠ []), pushes w userId data).
Proof.
  unfold sendToUser, pushes, live_clients.
  rewrite (list_filter_iff (λ client, JsNumber (c_userId client) = JsNumber userId)
             (λ c, c_userId c = userId)) by (intros c; split; congruence).
  set (us := filter _ (clients w)).
  case_bool_decide as Hlen.
  - apply nil_length_inv in Hlen. rewrite Hlen. done.
  - by rewrite forEach_send_spec.
Qed.

(** A value that is not a number matches no registry entry. *)
Lemma sendToUser_not_number w v data :
  (∀ n, v ≠ JsNumber n) → sendToUser w v data = (false, []).
Proof.
  intros Hv. unfold sendToUser.
  replace (filter _ (clients w)) with (@nil ConnectedClient); [done|].
  symmetry. apply elem_of_nil_inv. intros c [Hc _]%list_elem_of_filter.
  by apply (Hv (c_userId c)).
Qed.

Lemma sendToUser_pushes_to w v data :
  (sendToUser w v data).2 = pushes_to w v data.
Proof.
  destruct v as [| |b|n|t|t|t]; try (by rewrite sendToUser_not_number).
  by rewrite sendToUser_spec.
Qed.

Lemma run_example :
  run example_secret initial_world example_events = Some (example_world, []).
Proof. vm_compute. reflexivity. Qed.

Lemma live_clients_elem w userId c :
  c ∈ live_clients w userId
  ↔ c ∈ clients w ∧ c_userId c = userId ∧ readyState w !! c_socket c = Some OPEN.
Proof.
  unfold live_clients, socket_open.
  rewrite !list_elem_of_filter, bool_decide_spec. tauto.
Qed.

Lemma received_app s tr1 tr2 :
  received s (tr1 ++ tr2) = received s tr1 ++ received s tr2.
Proof.
  induction tr1 as [|e tr1 IH]; simpl; [done|].
  destruct e; try done. case_bool_decide; simpl; by rewrite IH.
Qed.

Lemma received_sends s data (cs : list ConnectedClient) :
  received s ((λ c, Send (c_socket c) data) <$> cs)
  = (λ _, data) <$> filter (λ c, c_socket c = s) cs.
Proof.
  induction cs as [|c cs IH]; csimpl; [done|].
  case_bool_decide.
  - rewrite filter_cons_True by done. csimpl. by rewrite IH.
  - by rewrite filter_cons_False.
Qed.

(** With distinct sockets in the list, one socket has at most one entry. *)
Lemma filter_socket_nodup (cs : list ConnectedClient) c :
  NoDup (c_socket <$> cs) → c ∈ cs →
  filter (λ c', c_socket c' = c_socket c) cs = [c].
Proof.
  induction cs as [|c' cs IH]; csimpl; intros Hnd Hin.
  - by apply elem_of_nil in Hin.
  - apply NoDup_cons in Hnd as [Hfresh Hnd].
    apply elem_of_cons in Hin as [->|Hin].
    + rewrite filter_cons_True by done. f_equal.
      apply elem_of_nil_inv. intros x [Hx Hxin]%list_elem_of_filter.
      apply Hfresh. rewrite <- Hx. by apply list_elem_of_fmap_2.
    + rewrite filter_cons_False; [by apply IH|].
      intros Heq. apply Hfresh. rewrite Heq. by apply list_elem_of_fmap_2.
Qed.

(** ** The connection lifecycle *)

Section Lifecycle.

Variable secret : string.

Lemma on_connection_refused now s token w :
  readyState w !! s = Some OPEN →
  token_missing token = true ∨ Jwt.verify token secret now = Throw →
  ∃ reason,
    on_connection secret now s (Url token) w
    = Ok (set_readyState s CLOSING w, [Close s 1008 reason]).
Proof.
  intros Hs Hbad. unfold on_connection, socket_close. simpl. rewrite Hs.
  destruct (token_missing token); [by eexists|].
  destruct Hbad as [? | ->]; [done|]. by eexists.
Qed.

Lemma on_connection_accepted now s token w decoded :
  token_missing token = false →
  Jwt.verify token secret now = Ok decoded →
  on_connection secret now s (Url token) w
  = Ok (add_listeners s (Jwt.userId (Jwt.payload decoded))
          (set_clients (clients w ++ [{| c_userId := Jwt.userId (Jwt.payload decoded);
                                         c_socket := s |}]) w), []).
Proof. intros Hm Hv. unfold on_connection. simpl. by rewrite Hm, Hv. Qed.

Lemma refused_token_spec now token :
  refused_token secret now token →
  token_missing token = true ∨ Jwt.verify token secret now = Throw.
Proof.
  intros [| |t Hexp|t Htamp]; simpl; auto; right.
  - repeat case_bool_decide; try done. lia.
  - case_bool_decide as H; [|done]. destruct H, Htamp; congruence.
Qed.

Lemma initial_inv : lifecycle_inv initial_world.
Proof.
  split; simpl.
  - intros c Hc. by apply elem_of_nil in Hc.
  - intros c Hc. by apply elem_of_nil in Hc.
  - intros s Hs. by rewrite lookup_empty in Hs.
  - constructor.
Qed.

Lemma socket_of_client_known w c :
  lifecycle_inv w → c ∈ clients w → is_Some (readyState w !! c_socket c).
Proof. intros Hinv Hc. destruct (inv_not_closed w Hinv c Hc) as [->| ->]; eauto. Qed.

Lemma connection_inv w s request now next :
  lifecycle_inv w → readyState w !! s = None →
  on_connection secret now s request (set_readyState s OPEN w) = Ok next →
  lifecycle_inv next.1.
Proof.
  intros Hinv Hfresh Hnext. destruct request as [|token]; [done|].
  assert (Hne : ∀ c, c ∈ clients w → c_socket c ≠ s).
  { intros c Hc Heq. destruct (socket_of_client_known w c Hinv Hc) as [r Hr].
    rewrite Heq in Hr. congruence. }
  destruct (token_missing token) eqn:Hm; [|destruct (Jwt.verify token secret now) as [decoded|] eqn:Hv].
  3: assert (Hbad : token_missing token = true ∨ Jwt.verify token secret now = Throw) by auto.
  1: assert (Hbad : token_missing token = true ∨ Jwt.verify token secret now = Throw) by auto.
  1,3: destruct (on_connection_refused now s token (set_readyState s OPEN w)
                  (lookup_insert_eq _ _ _) Hbad) as [reason Hr];
       rewrite Hr in Hnext; injection Hnext as <-; simpl;
       (split; simpl;
        [ exact (inv_listener w Hinv)
        | intros c Hc; rewrite !lookup_insert_ne by (by apply not_eq_sym, Hne);
          by apply (inv_not_closed w Hinv)
        | intros s' Hs'; destruct (decide (s = s')) as [->|Hss];
          [ by rewrite lookup_insert_eq in Hs'
          | rewrite !lookup_insert_ne in Hs' by done;
            by apply (inv_open_present w Hinv) ]
        | exact (inv_nodup w Hinv) ]).
  rewrite (on_connection_accepted now s token _ decoded Hm Hv) in Hnext.
  injection Hnext as <-. simpl.
  set (u := Jwt.userId (Jwt.payload decoded)).
  split; simpl.
  - intros c [Hc| ->%list_elem_of_singleton]%elem_of_app.
    + rewrite lookup_insert_ne by (by apply not_eq_sym, Hne).
      by apply (inv_listener w Hinv).
    + simpl. by rewrite lookup_insert_eq.
  - intros c [Hc| ->%list_elem_of_singleton]%elem_of_app.
    + rewrite lookup_insert_ne by (by apply not_eq_sym, Hne).
      by apply (inv_not_closed w Hinv).
    + simpl. left. by rewrite lookup_insert_eq.
  - intros s' Hs'. destruct (decide (s = s')) as [<-|Hss].
    + exists u. apply elem_of_app. right. by apply list_elem_of_singleton.
    + rewrite lookup_insert_ne in Hs' by done.
      destruct (inv_open_present w Hinv s' Hs') as [u' Hu'].
      exists u'. apply elem_of_app. by left.
  - rewrite fmap_app. apply NoDup_app. split; [exact (inv_nodup w Hinv)|].
    split; [|apply NoDup_singleton].
    intros s' [c [-> Hc]]%list_elem_of_fmap Hs'%list_elem_of_singleton.
    simpl in Hs'. by apply (Hne c Hc).
Qed.

Lemma same_registry_inv w w' :
  same_registry w w' → lifecycle_inv w → lifecycle_inv w'.
Proof.
  intros (Hc & Hr & Hl) [H1 H2 H3 H4].
  split; unfold in_registry; rewrite ?Hc, ?Hr, ?Hl; done.
Qed.

Lemma on_message_same_registry userId frame w :
  same_registry w (on_message userId frame w).1.
Proof.
  unfold on_message, on_message_catch, same_registry.
  destruct (JSON_parse frame) as [[|data|text]|]; simpl; try done.
  by destruct (chat_guard data).
Qed.

Lemma on_message_resume_same_registry v o w :
  same_registry w (on_message_resume v o w).1.
Proof. unfold on_message_resume, same_registry. by destruct o as [[]|]. Qed.

Lemma closing_inv w s :
  lifecycle_inv w → readyState w !! s = Some OPEN →
  lifecycle_inv (set_readyState s CLOSING w).
Proof.
  intros Hinv Hs. split; simpl.
  - exact (inv_listener w Hinv).
  - intros c Hc. destruct (decide (s = c_socket c)) as [<-|Hne].
    + right. by rewrite lookup_insert_eq.
    + rewrite !lookup_insert_ne by done. by apply (inv_not_closed w Hinv).
  - intros s'. destruct (decide (s = s')) as [<-|Hne].
    + by rewrite lookup_insert_eq.
    + rewrite lookup_insert_ne by done. apply (inv_open_present w Hinv).
  - exact (inv_nodup w Hinv).
Qed.

Lemma on_close_elem userId socket w c :
  c ∈ clients (on_close userId socket w)
  ↔ c ∈ clients w ∧ c ≠ {| c_userId := userId; c_socket := socket |}.
Proof.
  unfold on_close. simpl. rewrite list_elem_of_filter.
  destruct c as [u s]. simpl. split.
  - intros [Hne Hc]. split; [done|]. intros [= -> ->]. by apply Hne.
  - intros [Hc Hne]. split; [|done]. intros [-> ->]. by apply Hne.
Qed.

Lemma closed_inv w s :
  lifecycle_inv w →
  lifecycle_inv
    match listeners w !! s with
    | Some userId => on_close userId s (set_readyState s CLOSED w)
    | None => set_readyState s CLOSED w
    end.
Proof.
  intros Hinv.
  assert (Hgone : ∀ c,
    c ∈ clients match listeners w !! s with
                | Some userId => on_close userId s (set_readyState s CLOSED w)
                | None => set_readyState s CLOSED w
                end → c ∈ clients w ∧ c_socket c ≠ s).
  { intros c. destruct (listeners w !! s) as [u|] eqn:Hl.
    - intros [Hc Hne]%on_close_elem. simpl in Hc. split; [done|].
      intros Hs. apply Hne. pose proof (inv_listener w Hinv c Hc) as Hlc.
      rewrite Hs, Hl in Hlc. destruct c; simpl in *. congruence.
    - simpl. intros Hc. split; [done|]. intros Hs.
      pose proof (inv_listener w Hinv c Hc) as Hlc. rewrite Hs in Hlc.
      congruence. }
  assert (Hkeep : ∀ c, c ∈ clients w → c_socket c ≠ s →
    c ∈ clients match listeners w !! s with
                | Some userId => on_close userId s (set_readyState s CLOSED w)
                | None => set_readyState s CLOSED w
                end).
  { intros c Hc Hne. destruct (listeners w !! s) as [u|]; [|done].
    apply on_close_elem. split; [done|]. intros ->. by apply Hne. }
  assert (Hr : readyState match listeners w !! s with
                | Some userId => on_close userId s (set_readyState s CLOSED w)
                | None => set_readyState s CLOSED w
                end = <[s := CLOSED]> (readyState w)).
  { by destruct (listeners w !! s). }
  assert (Hl : listeners match listeners w !! s with
                | Some userId => on_close userId s (set_readyState s CLOSED w)
                | None => set_readyState s CLOSED w
                end = listeners w).
  { by destruct (listeners w !! s). }
  split.
  - intros c [Hc Hne]%Hgone. rewrite Hl. by apply (inv_listener w Hinv).
  - intros c [Hc Hne]%Hgone. rewrite Hr, !lookup_insert_ne by done.
    by apply (inv_not_closed w Hinv).
  - intros s'. rewrite Hr. destruct (decide (s = s')) as [<-|Hne].
    + by rewrite lookup_insert_eq.
    + rewrite lookup_insert_ne by done. intros Hs'.
      destruct (inv_open_present w Hinv s' Hs') as [u Hu].
      exists u. apply Hkeep; [done|]. simpl. by apply not_eq_sym.
  - destruct (listeners w !! s) as [u|]; [|exact (inv_nodup w Hinv)].
    unfold on_close. simpl.
    refine (sublist_NoDup _ _ (inv_nodup w Hinv) _).
    apply fmap_sublist. by apply sublist_filter.
Qed.

Lemma step_inv w e w' out :
  lifecycle_inv w → step secret w e = Some (w', out) → lifecycle_inv w'.
Proof.
  intros Hinv Hstep. destruct e as [s request now|s frame|i o|s|s]; simpl in Hstep.
  - destruct (readyState w !! s) eqn:Hs; [done|].
    destruct (on_connection secret now s request (set_readyState s OPEN w))
      as [next|] eqn:Hnext; [|done].
    injection Hstep as Hw. pose proof (connection_inv w s request now next Hinv Hs Hnext) as H.
    rewrite Hw in H. exact H.
  - assert (∃ userId, on_message userId frame w = (w', out)) as [u Hu].
    { destruct (readyState w !! s) as [[]|]; try done;
      destruct (listeners w !! s) as [u|]; try done; exists u; congruence. }
    pose proof (on_message_same_registry u frame w) as H. rewrite Hu in H.
    by apply (same_registry_inv w).
  - destruct (awaiting w !! i) as [v|]; [|done].
    destruct (admissible v o); [|done]. injection Hstep as Hw.
    pose proof (on_message_resume_same_registry v o
                  (set_awaiting (delete i (awaiting w)) w)) as H.
    rewrite Hw in H. by apply (same_registry_inv w).
  - destruct (readyState w !! s) as [[]|] eqn:Hs; try done.
    injection Hstep as <- _. by apply closing_inv.
  - pose proof (closed_inv w s Hinv) as H.
    destruct (readyState w !! s) as [[]|]; try done;
      destruct (listeners w !! s); injection Hstep as <- _; exact H.
Qed.

Lemma reachable_inv w tr : reachable secret w tr → lifecycle_inv w.
Proof.
  induction 1 as [|w tr e w' out _ IH Hstep]; [apply initial_inv|].
  by apply (step_inv w e w' out).
Qed.

End Lifecycle.

(** ** What the message handlers emit *)

Lemma on_message_not_json userId text w :
  on_message userId (NotJson text) w = (w, pushes w userId error_frame).
Proof. unfold on_message, on_message_catch. simpl. by rewrite sendToUser_spec. Qed.

Lemma on_message_null userId w :
  on_message userId (JsonText JsonNull) w = (w, pushes w userId error_frame).
Proof. unfold on_message, on_message_catch. simpl. by rewrite sendToUser_spec. Qed.

Lemma on_message_other userId text w :
  on_message userId (JsonText (JsonOther text)) w = (w, []).
Proof. done. Qed.

Lemma on_message_object userId data w :
  on_message userId (JsonText (JsonObject data)) w
  = if chat_guard data then
      let v := {| a_senderId := userId;
                  a_receiverId := d_receiverId data;
                  a_content := d_content data |} in
      (set_awaiting (awaiting w ++ [v]) w, [CallCreateMessage v])
    else (w, []).
Proof. unfold on_message. simpl. by destruct (chat_guard data). Qed.

Lemma pushes_same_registry w w' userId data :
  same_registry w w' → pushes w' userId data = pushes w userId data.
Proof.
  intros (Hc & Hr & _). unfold pushes, live_clients, socket_open.
  by rewrite Hc, Hr.
Qed.

Lemma pushes_to_same_registry w w' v data :
  same_registry w w' → pushes_to w' v data = pushes_to w v data.
Proof. intros H. destruct v; simpl; try done. by apply pushes_same_registry. Qed.

Lemma on_message_resume_commit v now receiverId content w :
  on_message_resume v (DbCommit now receiverId content) w
  = let '(row, t') :=
      insert_returning now {| i_senderId := a_senderId v;
                              i_receiverId := receiverId;
                              i_content := content |} (messages w) in
    (set_messages t' w,
     Persisted row
       :: pushes_to w (a_receiverId v) (message row)
       ++ pushes w (a_senderId v) (message_sent (m_id row))).
Proof.
  unfold on_message_resume. simpl.
  rewrite sendToUser_spec, sendToUser_pushes_to.
  by rewrite (pushes_same_registry w), (pushes_to_same_registry w).
Qed.

Lemma on_message_resume_reject v serial_drawn w :
  on_message_resume v (DbReject serial_drawn) w
  = (set_messages (if serial_drawn then skip_serial (messages w) else messages w) w,
     pushes w (a_senderId v) error_frame).
Proof.
  unfold on_message_resume, on_message_catch. simpl.
  rewrite sendToUser_spec. by rewrite (pushes_same_registry w).
Qed.

Lemma received_pushes w userId data s :
  received s (pushes w userId data)
  = (λ _, data) <$> filter (λ c, c_socket c = s) (live_clients w userId).
Proof. unfold pushes. apply received_sends. Qed.

Lemma pushes_to_cases w v data :
  pushes_to w v data = [] ∨ ∃ n, v = JsNumber n ∧ pushes_to w v data = pushes w n data.
Proof. destruct v; simpl; eauto. Qed.

Lemma received_pushes_absent w userId data s :
  ¬ in_registry w s → received s (pushes w userId data) = [].
Proof.
  intros Habs. rewrite received_pushes.
  replace (filter _ (live_clients w userId)) with (@nil ConnectedClient); [done|].
  symmetry. apply elem_of_nil_inv.
  intros [u s'] [Hs (Hc & _ & _)%live_clients_elem]%list_elem_of_filter.
  simpl in Hs. subst s'. apply Habs. by exists u.
Qed.

(** A live entry of the user receives the pushed event exactly once when
    sockets are not registered twice. *)
Lemma received_pushes_live w userId data s :
  NoDup (c_socket <$> clients w) →
  {| c_userId := userId; c_socket := s |} ∈ clients w →
  readyState w !! s = Some OPEN →
  received s (pushes w userId data) = [data].
Proof.
  intros Hnd Hc Hopen. rewrite received_pushes.
  assert (Hlive : {| c_userId := userId; c_socket := s |} ∈ live_clients w userId).
  { by apply live_clients_elem. }
  pose proof (filter_socket_nodup (live_clients w userId)
                {| c_userId := userId; c_socket := s |}) as Hone.
  cbn [c_socket] in Hone. rewrite Hone; [done| |done].
  refine (sublist_NoDup _ _ Hnd _). apply fmap_sublist.
  unfold live_clients. etrans; by apply sublist_filter.
Qed.

(** ** Sockets outside the registry *)

Section Outside.

Variable secret : string.

Lemma on_connection_cases now s token w :
  readyState w !! s = Some OPEN →
  (∃ reason, (token_missing token = true ∨ Jwt.verify token secret now = Throw)
             ∧ on_connection secret now s (Url token) w
               = Ok (set_readyState s CLOSING w, [Close s 1008 reason]))
  ∨ (∃ decoded, token_missing token = false
                ∧ Jwt.verify token secret now = Ok decoded
                ∧ on_connection secret now s (Url token) w
                  = Ok (add_listeners s (Jwt.userId (Jwt.payload decoded))
                          (set_clients
                             (clients w ++ [{| c_userId := Jwt.userId (Jwt.payload decoded);
                                               c_socket := s |}]) w), [])).
Proof.
  intros Hs. destruct (token_missing token) eqn:Hm.
  - left. destruct (on_connection_refused secret now s token w Hs) as [r Hr]; eauto.
  - destruct (Jwt.verify token secret now) as [decoded|] eqn:Hv.
    + right. exists decoded. by rewrite (on_connection_accepted secret now s token w decoded).
    + left. destruct (on_connection_refused secret now s token w Hs) as [r Hr]; eauto.
Qed.

(** Every turn the event loop can take has one of the shapes of [turn]. *)
Lemma step_turn w e w' out :
  step secret w e = Some (w', out) → turn secret w e w' out.
Proof.
  intros Hstep. destruct e as [s request now|s frame|i o|s|s]; simpl in Hstep.
  - destruct (readyState w !! s) eqn:Hs; [done|].
    destruct request as [|token]; [done|].
    destruct (on_connection_cases now s token (set_readyState s OPEN w)
                (lookup_insert_eq _ _ _)) as [(r & Hbad & Hr)|(d & Hm & Hv & Hr)];
      rewrite Hr in Hstep; injection Hstep as <- <-.
    + by apply turn_refused.
    + by apply turn_accepted.
  - assert (∃ userId, listeners w !! s = Some userId
                      ∧ on_message userId frame w = (w', out)) as (u & Hl & Hu).
    { destruct (readyState w !! s) as [[]|]; try done;
      destruct (listeners w !! s) as [u|]; try done; exists u; split; congruence. }
    destruct frame as [text|[|data|text]].
    + rewrite on_message_not_json in Hu. injection Hu as <- <-.
      apply turn_frame_failed; [done|by left].
    + rewrite on_message_null in Hu. injection Hu as <- <-.
      apply turn_frame_failed; [done|by right].
    + rewrite on_message_object in Hu.
      destruct (chat_guard data) eqn:Hg; injection Hu as <- <-.
      * by apply (turn_frame_call secret w s data u).
      * by apply (turn_frame_ignored secret w s (JsonObject data) data u).
    + rewrite on_message_other in Hu. injection Hu as <- <-.
      by eapply (turn_frame_ignored secret w s (JsonOther text)).
  - destruct (awaiting w !! i) as [v|] eqn:Hv; [|done].
    destruct (admissible v o) eqn:Hadm; [|done]. injection Hstep as Hw.
    set (w0 := set_awaiting (delete i (awaiting w)) w) in *.
    assert (Hsame : same_registry w w0) by done.
    destruct o as [serial_drawn|now receiverId content].
    + rewrite on_message_resume_reject in Hw. injection Hw as <- <-.
      rewrite (pushes_same_registry w) by done. by apply turn_reject.
    + rewrite on_message_resume_commit in Hw.
      change (messages w0) with (messages w) in Hw.
      simpl in Hadm. apply andb_true_iff in Hadm as [Hr Hc].
      pose proof (turn_commit secret w i v now receiverId content Hv Hr Hc) as Ht.
      unfold insert_returning in Hw, Ht. cbn [fst snd] in Hw, Ht.
      injection Hw as <- <-.
      rewrite (pushes_same_registry w), (pushes_to_same_registry w) by done.
      exact Ht.
  - destruct (readyState w !! s) as [[]|] eqn:Hs; try done.
    injection Hstep as <- <-. by apply turn_closing.
  - destruct (readyState w !! s) as [[]|] eqn:Hs; try done;
      destruct (listeners w !! s) as [u|] eqn:Hl; injection Hstep as <- <-;
      (by apply turn_closed_registered; auto) || (by apply turn_closed_refused; auto).
Qed.

Lemma elem_of_pushes w userId data s e :
  Send s e ∈ pushes w userId data
  ↔ e = data ∧ {| c_userId := userId; c_socket := s |} ∈ clients w
    ∧ readyState w !! s = Some OPEN.
Proof.
  unfold pushes. rewrite list_elem_of_fmap. split.
  - intros ([u s'] & [= -> ->] & (Hin & Hu & Hopen)%live_clients_elem).
    simpl in *. by subst u.
  - intros (-> & Hin & Hopen). eexists. split; [|by apply live_clients_elem]. done.
Qed.

Lemma elem_of_pushes_to w v data s e :
  Send s e ∈ pushes_to w v data
  ↔ e = data ∧ ∃ n, v = JsNumber n
      ∧ {| c_userId := n; c_socket := s |} ∈ clients w
      ∧ readyState w !! s = Some OPEN.
Proof.
  destruct v as [| |b|n|t|t|t]; simpl;
    try (split; [by intros ?%elem_of_nil|by intros (_ & n & ? & _)]).
  rewrite elem_of_pushes. split.
  - intros (-> & ? & ?). eauto.
  - intros (-> & n' & [= <-] & ? & ?). done.
Qed.

Lemma received_pushes_to_absent w v data s :
  ¬ in_registry w s → received s (pushes_to w v data) = [].
Proof.
  intros Habs. destruct (pushes_to_cases w v data) as [->|(n & _ & ->)]; [done|].
  by apply received_pushes_absent.
Qed.

(** A turn of the event loop registers at most the socket of the
    connection it handles, which is a new one. *)
Lemma step_registry_growth w e w' out s :
  step secret w e = Some (w', out) →
  in_registry w' s → in_registry w s ∨ readyState w !! s = None.
Proof.
  intros Hturn%step_turn Hin. destruct Hturn; try (by left).
  - destruct Hin as [u [Hu|Hu%list_elem_of_singleton]%elem_of_app].
    + left. by exists u.
    + right. injection Hu as _ ->. done.
  - left. destruct Hin as [u Hu]. exists u.
    by apply on_close_elem in Hu as [Hu _].
Qed.

(** Socket objects are never forgotten. *)
Lemma step_ready_known w e w' out s :
  step secret w e = Some (w', out) →
  is_Some (readyState w !! s) → is_Some (readyState w' !! s).
Proof.
  intros Hturn%step_turn Hs.
  assert (Hins : ∀ s0 r, is_Some (<[s0 := r]> (readyState w) !! s)).
  { intros s0 r. destruct (decide (s0 = s)) as [->|Hne].
    - rewrite lookup_insert_eq. eauto.
    - by rewrite lookup_insert_ne. }
  destruct Hturn; simpl; try done; try apply Hins.
  destruct (decide (s0 = s)) as [->|Hne].
  - rewrite lookup_insert_eq. eauto.
  - rewrite lookup_insert_ne by done. apply Hins.
Qed.

(** A turn of the event loop writes frames only to registered sockets. *)
Lemma step_received_absent w e w' out s :
  ¬ in_registry w s → step secret w e = Some (w', out) → received s out = [].
Proof.
  intros Habs Hturn%step_turn.
  destruct Hturn; simpl; try done; try (by apply received_pushes_absent).
  by rewrite received_app, received_pushes_to_absent, received_pushes_absent.
Qed.

(** Once a socket object exists and is not registered, it stays
    unregistered and no frame is ever written to it. *)
Lemma run_stays_out w es w' out s :
  is_Some (readyState w !! s) → ¬ in_registry w s →
  run secret w es = Some (w', out) →
  ¬ in_registry w' s ∧ received s out = [].
Proof.
  revert w w' out. induction es as [|e es IH]; simpl; intros w w' out Hs Habs Hrun.
  - by injection Hrun as <- <-.
  - destruct (step secret w e) as [[w1 out1]|] eqn:Hstep; [|done].
    destruct (run secret w1 es) as [[w2 out2]|] eqn:Hrest; [|done].
    injection Hrun as <- <-.
    destruct (IH w1 w2 out2) as [Hout Hrecv]; try done.
    + by apply (step_ready_known w e w1 out1).
    + intros Hin. destruct (step_registry_growth w e w1 out1 s Hstep Hin) as [?|Hnone];
        [done|]. rewrite Hnone in Hs. by destruct Hs.
    + split; [done|].
      by rewrite received_app, (step_received_absent w e w1 out1), Hrecv.
Qed.

End Outside.

Lemma run_reachable secret w tr es w' out :
  reachable secret w tr → run secret w es = Some (w', out) →
  reachable secret w' (tr ++ out).
Proof.
  revert w tr w' out. induction es as [|e es IH]; simpl; intros w tr w' out Hr Hrun.
  - injection Hrun as <- <-. by rewrite app_nil_r.
  - destruct (step secret w e) as [[w1 out1]|] eqn:Hstep; [|done].
    destruct (run secret w1 es) as [[w2 out2]|] eqn:Hrest; [|done].
    injection Hrun as <- <-. rewrite app_assoc.
    apply (IH w1); [|done]. by apply (reach_step secret w tr e).
Qed.

Lemma example_reachable : reachable example_secret example_world [].
Proof.
  exact (run_reachable example_secret initial_world [] example_events _ _
           (reach_init _) run_example).
Qed.

Lemma example_closed_reachable :
  reachable example_secret example_world_closed
    [Close 3%nat 1008 "Invalid authentication token"].
Proof.
  apply (run_reachable example_secret initial_world [] example_events_closed);
    [constructor|].
  vm_compute. reflexivity.
Qed.

(** C2: in every world the event loop can reach, a socket whose ready
    state is OPEN is in the registry and a socket whose ready state is
    CLOSED is not. *)
Theorem registry_matches_ready_state secret w tr s :
  reachable secret w tr →
  (readyState w !! s = Some OPEN → in_registry w s)
  ∧ (readyState w !! s = Some CLOSED → ¬ in_registry w s).
Proof.
  intros Hinv%reachable_inv. split.
  - apply (inv_open_present w Hinv).
  - intros Hs [u Hu].
    destruct (inv_not_closed w Hinv _ Hu) as [H|H]; simpl in H; congruence.
Qed.

Lemma registry_matches_ready_state_witness :
  reachable example_secret example_world_closed
    [Close 3%nat 1008 "Invalid authentication token"]
  ∧ in_registry example_world_closed 1%nat
  ∧ ¬ in_registry example_world_closed 0%nat.
Proof.
  split; [apply example_closed_reachable|]. split.
  - apply (registry_matches_ready_state example_secret example_world_closed
             [Close 3%nat 1008 "Invalid authentication token"] 1%nat);
      [apply example_closed_reachable|reflexivity].
  - apply (registry_matches_ready_state example_secret example_world_closed
             [Close 3%nat 1008 "Invalid authentication token"] 0%nat);
      [apply example_closed_reachable|reflexivity].
Defined.

Lemma filter_all {A} (P : A → Prop) `{∀ x, Decision (P x)} (l : list A) :
  (∀ x, x ∈ l → P x) → filter P l = l.
Proof.
  induction l as [|x l IH]; intros Hall; [done|].
  rewrite filter_cons_True by (apply Hall; left).
  f_equal. apply IH. intros y Hy. apply Hall. by right.
Qed.

(** C4: an upgrade whose URL parses and whose token is absent, does not
    decode, is expired or fails signature verification is answered with a
    close frame of code 1008 and nothing else; the registry and the
    listeners are unchanged, and from then on the socket never enters the
    registry and no frame is ever written to it.  An upgrade whose URL
    does not parse is not answered at all: [new URL] throws before the
    token is looked at and outside the [try] block, so the listener
    throws, no close frame is written, and the turn does not return to the
    event loop. *)
Theorem refused_upgrade_closed_1008 secret w tr s request now :
  reachable secret w tr →
  readyState w !! s = None →
  match request with
  | Url token =>
      refused_token secret now token →
      ∃ reason w',
        step secret w (Connection s (Url token) now) = Some (w', [Close s 1008 reason])
        ∧ clients w' = clients w
        ∧ listeners w' = listeners w
        ∧ readyState w' !! s = Some CLOSING
        ∧ ∀ es w'' out, run secret w' es = Some (w'', out) →
            ¬ in_registry w'' s ∧ received s out = []
  | BadUrl =>
      on_connection secret now s BadUrl (set_readyState s OPEN w) = Throw
      ∧ uncaught secret w (Connection s BadUrl now) = true
      ∧ step secret w (Connection s BadUrl now) = None
  end.
Proof.
  intros Hinv%reachable_inv Hfresh. destruct request as [|token].
  { simpl. by rewrite Hfresh. }
  intros Hbad%refused_token_spec.
  destruct (on_connection_refused secret now s token (set_readyState s OPEN w)
              (lookup_insert_eq _ _ _) Hbad) as [reason Hr].
  exists reason, (set_readyState s CLOSING (set_readyState s OPEN w)).
  split; [|split; [done|split; [done|split]]].
  - simpl. by rewrite Hfresh, Hr.
  - simpl. by rewrite lookup_insert_eq.
  - intros es w'' out Hrun.
    apply (run_stays_out secret _ es w'' out s) in Hrun; [done| |].
    + simpl. rewrite lookup_insert_eq. eauto.
    + intros [u Hu]. simpl in Hu.
      destruct (socket_of_client_known w _ Hinv Hu) as [r Hsome].
      simpl in Hsome. congruence.
Qed.

Lemma refused_upgrade_closed_1008_witness :
  reachable example_secret example_world []
  ∧ readyState example_world !! 3%nat = None
  ∧ refused_token example_secret 1004 None
  ∧ (∃ reason w',
       step example_secret example_world (Connection 3%nat (Url None) 1004)
       = Some (w', [Close 3%nat 1008 reason])
       ∧ clients w' = clients example_world
       ∧ readyState w' !! 3%nat = Some CLOSING)
  ∧ uncaught example_secret example_world (Connection 3%nat BadUrl 1004) = true
  ∧ step example_secret example_world (Connection 3%nat BadUrl 1004) = None.
Proof.
  split; [apply example_reachable|]. split; [reflexivity|].
  split; [constructor|]. split.
  - destruct (refused_upgrade_closed_1008 example_secret example_world [] 3%nat
                (Url None) 1004 example_reachable eq_refl)
      as (reason & w' & Hstep & Hc & _ & Hr & _); [constructor|].
    by exists reason, w'.
  - apply (refused_upgrade_closed_1008 example_secret example_world [] 3%nat
             BadUrl 1004); [apply example_reachable|reflexivity].
Defined.

(** C8: when a registered socket closes, the registry loses exactly the
    entry of that socket; every other entry, of the same user or of
    another, stays where it was. *)
Theorem close_removes_exactly_that_entry secret w tr userId s :
  reachable secret w tr →
  {| c_userId := userId; c_socket := s |} ∈ clients w →
  ∃ w' before after,
    step secret w (Closed s) = Some (w', [])
    ∧ clients w = before ++ {| c_userId := userId; c_socket := s |} :: after
    ∧ clients w' = before ++ after
    ∧ {| c_userId := userId; c_socket := s |} ∉ clients w'.
Proof.
  intros Hinv%reachable_inv Hin.
  pose proof (inv_listener w Hinv _ Hin) as Hl. simpl in Hl.
  pose proof (inv_not_closed w Hinv _ Hin) as Hr. simpl in Hr.
  pose proof (inv_nodup w Hinv) as Hnd.
  destruct (list_elem_of_split _ _ Hin) as (before & after & Hsplit).
  exists (on_close userId s (set_readyState s CLOSED w)), before, after.
  assert (Hclients : clients (on_close userId s (set_readyState s CLOSED w))
                     = before ++ after).
  { unfold on_close. simpl. rewrite Hsplit in Hnd |- *.
    rewrite fmap_app, fmap_cons in Hnd. simpl in Hnd.
    apply NoDup_app in Hnd as (_ & Hdisj & [Hfresh _]%NoDup_cons).
    rewrite filter_app, filter_cons_False by tauto.
    rewrite !filter_all; [done| |].
    - intros c Hc [_ Hs]. apply Hfresh. rewrite <- Hs. by apply list_elem_of_fmap_2.
    - intros c Hc [_ Hs]. apply (Hdisj s); [|left].
      rewrite <- Hs. by apply list_elem_of_fmap_2. }
  split; [|split; [done|split; [done|]]].
  - simpl. rewrite Hl. by destruct Hr as [-> | ->].
  - intros [_ Hne]%on_close_elem. by apply Hne.
Qed.

Lemma close_removes_exactly_that_entry_witness :
  reachable example_secret example_world []
  ∧ {| c_userId := 1; c_socket := 0%nat |} ∈ clients example_world
  ∧ ∃ w' before after,
      step example_secret example_world (Closed 0%nat) = Some (w', [])
      ∧ clients example_world
        = before ++ {| c_userId := 1; c_socket := 0%nat |} :: after
      ∧ clients w' = before ++ after
      ∧ {| c_userId := 1; c_socket := 0%nat |} ∉ clients w'.
Proof.
  split; [apply example_reachable|]. split; [left|].
  apply (close_removes_exactly_that_entry example_secret example_world [] 1 0%nat);
    [apply example_reachable|left].
Defined.

(** ** The relay *)

Lemma accepted_chat_frame_guard frame data :
  accepted_chat_frame frame data → chat_guard data = true.
Proof.
  intros (_ & Ht & Hr & Hc). unfold chat_guard.
  by rewrite Ht, Hr, Hc, bool_decide_eq_true_2.
Qed.

Lemma pushes_are_sends w userId data :
  Forall (λ e, is_send e) (pushes w userId data).
Proof.
  unfold pushes. apply Forall_fmap, Forall_forall. by intros c _.
Qed.



(** The turn that handles an accepted chat frame. *)
Lemma frame_accepted_step secret w s userId frame data :
  listening w s userId →
  accepted_chat_frame frame data →
  step secret w (Frame s frame)
  = Some (set_awaiting
            (awaiting w ++ [{| a_senderId := userId;
                               a_receiverId := d_receiverId data;
                               a_content := d_content data |}]) w,
          [CallCreateMessage {| a_senderId := userId;
                                a_receiverId := d_receiverId data;
                                a_content := d_content data |}]).
Proof.
  intros [Hl Hr] Hacc. pose proof (accepted_chat_frame_guard _ _ Hacc) as Hg.
  destruct Hacc as (-> & _). simpl. rewrite Hl.
  destruct Hr as [-> | ->]; by rewrite on_message_object, Hg.
Qed.

(** The turn in which a pending insert commits. *)
Lemma settle_commit_step secret w j v now receiverId content :
  awaiting w !! j = Some v →
  admissible v (DbCommit now receiverId content) = true →
  let row := {| m_id := next_id (messages w); m_senderId := a_senderId v;
                m_receiverId := receiverId; m_content := content;
                m_read := false; m_createdAt := now |} in
  step secret w (Settle j (DbCommit now receiverId content))
  = Some (set_messages {| rows := rows (messages w) ++ [row];
                          next_id := next_id (messages w) + 1 |}
            (set_awaiting (delete j (awaiting w)) w),
          Persisted row
            :: pushes_to w (a_receiverId v) (message row)
            ++ pushes w (a_senderId v) (message_sent (m_id row))).
Proof.
  intros Hv Hadm row. cbn [step]. rewrite Hv, Hadm, on_message_resume_commit.
  unfold insert_returning. cbn [messages set_awaiting].
  by rewrite (pushes_same_registry w), (pushes_to_same_registry w).
Qed.





Lemma filter_const_false {A B} (P : B → Prop) `{∀ x, Decision (P x)}
    (d : B) (l : list A) :
  ¬ P d → filter P ((λ _, d) <$> l) = [].
Proof.
  intros Hd. induction l as [|x l IH]; csimpl; [done|].
  by rewrite filter_cons_False.
Qed.

Lemma example_awaiting_reachable :
  reachable example_secret (example_world_awaiting example_values)
    [CallCreateMessage example_values].
Proof.
  apply (run_reachable example_secret initial_world []
           (example_events ++ [Frame 0%nat example_frame])); [constructor|].
  vm_compute. reflexivity.
Qed.

Lemma example_string_id_reachable :
  reachable example_secret (example_world_awaiting example_values_string_id)
    [CallCreateMessage example_values_string_id].
Proof.
  apply (run_reachable example_secret initial_world []
           (example_events ++ [Frame 0%nat example_frame_string_id])); [constructor|].
  vm_compute. reflexivity.
Qed.

Lemma socket_owner_unique (cs : list ConnectedClient) u u' s :
  NoDup (c_socket <$> cs) →
  {| c_userId := u; c_socket := s |} ∈ cs →
  {| c_userId := u'; c_socket := s |} ∈ cs →
  u = u'.
Proof.
  intros Hnd H1 H2.
  pose proof (filter_socket_nodup cs _ Hnd H1) as E1.
  pose proof (filter_socket_nodup cs _ Hnd H2) as E2.
  cbn [c_socket] in E1, E2. rewrite E1 in E2. by injection E2.
Qed.

(** A socket registered to one user receives nothing of what is pushed
    to another. *)
Lemma received_pushes_other w u n data s :
  NoDup (c_socket <$> clients w) →
  {| c_userId := u; c_socket := s |} ∈ clients w →
  n ≠ u →
  received s (pushes w n data) = [].
Proof.
  intros Hnd Hc Hne. rewrite received_pushes.
  replace (filter _ (live_clients w n)) with (@nil ConnectedClient); [done|].
  symmetry. apply elem_of_nil_inv.
  intros [n' s'] [Hs (Hin & Hn & _)%live_clients_elem]%list_elem_of_filter.
  simpl in *. subst. by apply Hne, (socket_owner_unique (clients w) _ _ s Hnd).
Qed.

(** C5: when the insert of a relayed message commits, an open socket
    registered to user [u] receives the [message] event, once and carrying
    the row the insert returned, exactly when the [receiverId] of the
    frame is the number [u]; the row is then addressed to [u].  When the
    frame spells the id of [u] as a string, the row is addressed to [u]
    all the same, but no [message] event is written to the socket. *)
Theorem live_recipient_sockets_get_the_persisted_message
    secret w tr j v now receiverId content u s :
  reachable secret w tr →
  awaiting w !! j = Some v →
  admissible v (DbCommit now receiverId content) = true →
  {| c_userId := u; c_socket := s |} ∈ clients w →
  readyState w !! s = Some OPEN →
  ∃ w' out row,
    step secret w (Settle j (DbCommit now receiverId content)) = Some (w', out)
    ∧ row = {| m_id := next_id (messages w); m_senderId := a_senderId v;
               m_receiverId := receiverId; m_content := content;
               m_read := false; m_createdAt := now |}
    ∧ rows (messages w') = rows (messages w) ++ [row]
    ∧ (a_receiverId v = JsNumber u →
       receiverId = u
       ∧ Send s (message row) ∈ out
       ∧ filter (λ e, is_message_event e) (received s out) = [message row])
    ∧ (a_receiverId v ≠ JsNumber u →
       filter (λ e, is_message_event e) (received s out) = [])
    ∧ (∀ text, a_receiverId v = JsString text → decimal text = Some u →
       receiverId = u).
Proof.
  intros Hinv%reachable_inv Hv Hadm Hin Hopen.
  pose proof (inv_nodup w Hinv) as Hnd.
  eexists _, _, _. split; [by apply settle_commit_step|].
  split; [done|]. split; [done|].
  set (row := {| m_id := next_id (messages w); m_senderId := a_senderId v;
                 m_receiverId := receiverId; m_content := content;
                 m_read := false; m_createdAt := now |}).
  assert (Hsent : filter (λ e, is_message_event e)
                    (received s (pushes w (a_senderId v) (message_sent (m_id row))))
                  = []).
  { rewrite received_pushes. apply filter_const_false. by intros []. }
  cbn [admissible] in Hadm. apply andb_true_iff in Hadm as [Hr _].
  split; [|split].
  - intros Hnum. rewrite Hnum in Hr |- *. cbn [integer_column pushes_to] in Hr |- *.
    apply bool_decide_eq_true in Hr as [-> _].
    split; [done|]. split.
    + right. apply elem_of_app. left. by apply elem_of_pushes.
    + cbn [received]. rewrite received_app, filter_app, Hsent, app_nil_r.
      by rewrite (received_pushes_live w u _ s Hnd Hin Hopen).
  - intros Hother. cbn [received]. rewrite received_app, filter_app, Hsent, app_nil_r.
    destruct (pushes_to_cases w (a_receiverId v) (message row))
      as [->|(n & Hn & ->)]; [done|].
    rewrite (received_pushes_other w u n _ s Hnd Hin); [done|].
    intros ->. by apply Hother.
  - intros text Htext Hdec. rewrite Htext in Hr. cbn [integer_column] in Hr.
    rewrite Hdec in Hr. by apply bool_decide_eq_true in Hr as [-> _].
Qed.

(** The failing input of C5: user 1 sends
    [{type:"message", receiverId:"2", content:"hi"}]; the row is stored
    for user 2, whose socket 2 is open and registered, and no [message]
    event is written to it. *)
Lemma live_recipient_sockets_get_the_persisted_message_witness :
  reachable example_secret (example_world_awaiting example_values_string_id)
    [CallCreateMessage example_values_string_id]
  ∧ awaiting (example_world_awaiting example_values_string_id) !! 0%nat
    = Some example_values_string_id
  ∧ admissible example_values_string_id (DbCommit 2000 2 "hi") = true
  ∧ {| c_userId := 2; c_socket := 2%nat |}
      ∈ clients (example_world_awaiting example_values_string_id)
  ∧ readyState (example_world_awaiting example_values_string_id) !! 2%nat = Some OPEN
  ∧ ∃ w' out row,
      step example_secret (example_world_awaiting example_values_string_id)
        (Settle 0%nat (DbCommit 2000 2 "hi")) = Some (w', out)
      ∧ rows (messages w') = [row]
      ∧ m_receiverId row = 2
      ∧ filter (λ e, is_message_event e) (received 2%nat out) = [].
Proof.
  assert (Hin : {| c_userId := 2; c_socket := 2%nat |}
                  ∈ clients (example_world_awaiting example_values_string_id)).
  { right. right. left. }
  split; [apply example_string_id_reachable|]. split; [reflexivity|].
  split; [reflexivity|]. split; [exact Hin|]. split; [reflexivity|].
  destruct (live_recipient_sockets_get_the_persisted_message example_secret
              (example_world_awaiting example_values_string_id)
              [CallCreateMessage example_values_string_id] 0%nat
              example_values_string_id 2000 2 "hi" 2 2%nat
              example_string_id_reachable eq_refl eq_refl Hin eq_refl)
    as (w' & out & row & Hstep & Hrow & Hrows & _ & Hnone & _).
  exists w', out, row. split; [exact Hstep|].
  rewrite Hrows, Hrow. split; [reflexivity|]. split; [reflexivity|].
  apply Hnone. discriminate.
Defined.

(** C6: an accepted chat frame leaves a pending insert; whatever the
    event loop handles in between, when that insert commits the row is
    added and every open socket registered to the sender receives
    [message_sent] with the id of the persisted row, whether or not the
    recipient is connected.  When the user the row is addressed to has no
    open socket in the registry, the confirmations are all that is
    written: no [message] event goes to any socket. *)
Theorem offline_recipient_persisted_and_confirmed secret w s userId frame data :
  listening w s userId →
  accepted_chat_frame frame data →
  let v := {| a_senderId := userId; a_receiverId := d_receiverId data;
              a_content := d_content data |} in
  ∃ w1,
    step secret w (Frame s frame) = Some (w1, [CallCreateMessage v])
    ∧ awaiting w1 = awaiting w ++ [v]
    ∧ ∀ es w2 out2 j now receiverId content,
        run secret w1 es = Some (w2, out2) →
        awaiting w2 !! j = Some v →
        admissible v (DbCommit now receiverId content) = true →
        ∃ w3 out3 row,
          step secret w2 (Settle j (DbCommit now receiverId content)) = Some (w3, out3)
          ∧ row = {| m_id := next_id (messages w2); m_senderId := userId;
                     m_receiverId := receiverId; m_content := content;
                     m_read := false; m_createdAt := now |}
          ∧ rows (messages w3) = rows (messages w2) ++ [row]
          ∧ (∀ s', {| c_userId := userId; c_socket := s' |} ∈ clients w2 →
                   readyState w2 !! s' = Some OPEN →
                   Send s' (message_sent (m_id row)) ∈ out3)
          ∧ (live_clients w2 receiverId = [] →
             out3 = Persisted row :: pushes w2 userId (message_sent (m_id row))
             ∧ ∀ s' m, Send s' (message m) ∉ out3).
Proof.
  intros Hl Hacc v. eexists. split; [by apply frame_accepted_step|].
  split; [done|].
  intros es w2 out2 j now receiverId content _ Hv Hadm.
  eexists _, _, _. split; [by apply settle_commit_step|].
  split; [done|]. split; [done|]. split.
  - intros s' Hin Hopen. right. apply elem_of_app. right.
    by apply elem_of_pushes.
  - intros Hoff.
    assert (Hnone : ∀ d, pushes_to w2 (a_receiverId v) d = []).
    { intros d. destruct (pushes_to_cases w2 (a_receiverId v) d)
        as [->|(n & Hn & ->)]; [done|].
      cbn [admissible] in Hadm. apply andb_true_iff in Hadm as [Hr _].
      rewrite Hn in Hr. cbn [integer_column] in Hr.
      apply bool_decide_eq_true in Hr as [-> _].
      unfold pushes. by rewrite Hoff. }
    rewrite Hnone. split; [done|].
    intros s' m [?|(? & _)%elem_of_pushes]%elem_of_cons; done.
Qed.

Lemma offline_recipient_persisted_and_confirmed_witness :
  run example_secret initial_world example_events = Some (example_world, [])
  ∧ listening example_world 0%nat 1
  ∧ accepted_chat_frame example_frame_offline example_data_offline
  ∧ step example_secret example_world (Frame 0%nat example_frame_offline)
    = Some (example_world_awaiting example_values_offline,
            [CallCreateMessage example_values_offline])
  ∧ live_clients (example_world_awaiting example_values_offline) 7 = []
  ∧ ∃ w3 row,
      step example_secret (example_world_awaiting example_values_offline)
        (Settle 0%nat (DbCommit 2000 7 "hi"))
      = Some (w3, [Persisted row; Send 0%nat (message_sent 1);
                   Send 1%nat (message_sent 1)])
      ∧ rows (messages w3) = [row].
Proof.
  assert (Hl : listening example_world 0%nat 1) by (split; [reflexivity|by left]).
  assert (Hacc : accepted_chat_frame example_frame_offline example_data_offline)
    by done.
  destruct (offline_recipient_persisted_and_confirmed example_secret example_world
              0%nat 1 example_frame_offline example_data_offline Hl Hacc)
    as (w1 & Hcall & _ & Hsettle).
  assert (Hw1 : w1 = example_world_awaiting example_values_offline).
  { assert (H : step example_secret example_world (Frame 0%nat example_frame_offline)
                = Some (example_world_awaiting example_values_offline,
                        [CallCreateMessage example_values_offline])) by reflexivity.
    rewrite H in Hcall. by injection Hcall. }
  subst w1.
  split; [apply run_example|]. split; [exact Hl|]. split; [exact Hacc|].
  split; [exact Hcall|]. split; [reflexivity|].
  destruct (Hsettle [] (example_world_awaiting example_values_offline) [] 0%nat
              2000 7 "hi" eq_refl eq_refl eq_refl)
    as (w3 & out3 & row & Hstep & Hrow & Hrows & _ & Hoff).
  destruct (Hoff eq_refl) as [Hout _].
  exists w3, row. rewrite Hstep, Hout, Hrows, Hrow. split; reflexivity.
Defined.

(** ** Frames that are not relayed *)

(** C3, as stated, fails: the frame [{type:"message"}], sent by user 1 on
    the open, registered socket 0, is malformed, yet no [error] event is
    written to socket 0 (nothing is written at all). *)
Lemma incomplete_frame_gets_no_error :
  malformed_frame example_frame_incomplete
  ∧ listening example_world 0%nat 1
  ∧ {| c_userId := 1; c_socket := 0%nat |} ∈ clients example_world
  ∧ readyState example_world !! 0%nat = Some OPEN
  ∧ step example_secret example_world (Frame 0%nat example_frame_incomplete)
    = Some (example_world, [])
  ∧ ¬ ∃ w' out msg,
        step example_secret example_world (Frame 0%nat example_frame_incomplete)
        = Some (w', out)
        ∧ Send 0%nat (error msg) ∈ out.
Proof.
  split; [left; eexists; split; [reflexivity|by left]|].
  split; [split; [reflexivity|by left]|].
  split; [left|]. split; [reflexivity|]. split; [reflexivity|].
  intros (w' & out & msg & Hstep & Hin).
  assert (H : step example_secret example_world (Frame 0%nat example_frame_incomplete)
              = Some (example_world, [])) by reflexivity.
  rewrite H in Hstep. injection Hstep as _ <-. by apply elem_of_nil in Hin.
Qed.

(** C3, amended: a malformed frame is dropped with the world unchanged
    (no message row, no pending storage call, every socket in the ready
    state it had, the registry as it was) and no close frame.  A frame
    that is not JSON, and the JSON frame [null], are answered with the
    [error] event on every open socket registered to the sender; any
    other JSON frame that lacks [receiverId] or [content] is answered
    with nothing. *)
Theorem malformed_frame_dropped secret w s userId frame :
  listening w s userId →
  malformed_frame frame →
  ∃ out,
    step secret w (Frame s frame) = Some (w, out)
    ∧ Forall (λ e, is_send e) out
    ∧ (not_json frame ∨ frame = JsonText JsonNull →
       out = pushes w userId error_frame)
    ∧ (incomplete_frame frame → frame ≠ JsonText JsonNull → out = []).
Proof.
  intros [Hl Hr] Hmal.
  assert (Hstep : step secret w (Frame s frame) = Some (on_message userId frame w)).
  { simpl. rewrite Hl. by destruct Hr as [-> | ->]. }
  rewrite Hstep. clear Hstep.
  destruct frame as [text|[|data|text]].
  - exists (pushes w userId error_frame). rewrite on_message_not_json.
    split; [done|]. split; [apply pushes_are_sends|]. split; [done|].
    by intros (v & ? & _).
  - exists (pushes w userId error_frame). rewrite on_message_null.
    split; [done|]. split; [apply pushes_are_sends|]. by split.
  - destruct Hmal as [(v & [= <-] & Hmiss)|(text & ?)]; [|done].
    exists []. assert (Hg : chat_guard data = false).
    { unfold chat_guard. destruct Hmiss as [-> | ->]; simpl;
        by rewrite ?andb_false_r. }
    rewrite on_message_object, Hg. split; [done|]. split; [constructor|].
    split; [|done]. by intros [(text & ?)|?].
  - exists []. rewrite on_message_other. split; [done|]. split; [constructor|].
    split; [|done]. by intros [(text' & ?)|?].
Qed.

Lemma malformed_frame_dropped_witness :
  listening example_world 0%nat 1
  ∧ malformed_frame (NotJson "{oops")
  ∧ malformed_frame (JsonText JsonNull)
  ∧ malformed_frame example_frame_incomplete
  ∧ step example_secret example_world (Frame 0%nat (NotJson "{oops"))
    = Some (example_world, [Send 0%nat error_frame; Send 1%nat error_frame])
  ∧ step example_secret example_world (Frame 0%nat (JsonText JsonNull))
    = Some (example_world, [Send 0%nat error_frame; Send 1%nat error_frame])
  ∧ step example_secret example_world (Frame 0%nat example_frame_incomplete)
    = Some (example_world, []).
Proof.
  assert (Hl : listening example_world 0%nat 1) by (split; [reflexivity|by left]).
  assert (H1 : malformed_frame (NotJson "{oops")) by (right; by eexists).
  assert (H2 : malformed_frame (JsonText JsonNull)).
  { left. by eexists. }
  assert (H3 : malformed_frame example_frame_incomplete).
  { left. eexists. split; [reflexivity|by left]. }
  split; [exact Hl|]. split; [exact H1|]. split; [exact H2|]. split; [exact H3|].
  split; [|split].
  - destruct (malformed_frame_dropped example_secret example_world 0%nat 1
                (NotJson "{oops") Hl H1) as (out & -> & _ & Hout & _).
    rewrite Hout by (left; by eexists). reflexivity.
  - destruct (malformed_frame_dropped example_secret example_world 0%nat 1
                (JsonText JsonNull) Hl H2) as (out & -> & _ & Hout & _).
    rewrite Hout by (by right). reflexivity.
  - destruct (malformed_frame_dropped example_secret example_world 0%nat 1
                example_frame_incomplete Hl H3) as (out & -> & _ & _ & Hout).
    rewrite Hout; [reflexivity| |done].
    eexists. split; [reflexivity|by left].
Defined.

(** C10: when handling a frame fails, by a JSON parse error or by a
    rejected insert, the [error] event goes to every open socket
    registered to the sending user, and to nothing else.  The world is
    left as it was, but for the value of the serial that a rejected insert
    may have drawn. *)
Theorem failure_error_reaches_all_sender_sockets userId frame v w :
  JSON_parse frame = Throw →
  a_senderId v = userId →
  on_message userId frame w = (w, pushes w userId error_frame)
  ∧ on_message_resume v (DbReject false) w = (w, pushes w userId error_frame)
  ∧ on_message_resume v (DbReject true) w
    = (set_messages (skip_serial (messages w)) w, pushes w userId error_frame)
  ∧ ∀ s, Send s error_frame ∈ pushes w userId error_frame
         ↔ {| c_userId := userId; c_socket := s |} ∈ clients w
           ∧ readyState w !! s = Some OPEN.
Proof.
  intros Hparse <-. split; [|split; [|split]].
  - destruct frame as [text|value]; [|done]. apply on_message_not_json.
  - rewrite on_message_resume_reject. by destruct w.
  - apply on_message_resume_reject.
  - intros s. unfold pushes. rewrite list_elem_of_fmap. split.
    + intros ([u s'] & [= ->] & (Hin & Hu & Hopen)%live_clients_elem).
      simpl in *. by subst u.
    + intros [Hin Hopen]. eexists. split; [|by apply live_clients_elem]. done.
Qed.

Lemma failure_error_reaches_all_sender_sockets_witness :
  JSON_parse (NotJson "{oops") = Throw
  ∧ a_senderId example_values = 1
  ∧ on_message 1 (NotJson "{oops") example_world
    = (example_world, [Send 0%nat error_frame; Send 1%nat error_frame])
  ∧ on_message_resume example_values (DbReject false) example_world
    = (example_world, [Send 0%nat error_frame; Send 1%nat error_frame]).
Proof.
  split; [reflexivity|]. split; [reflexivity|].
  destruct (failure_error_reaches_all_sender_sockets 1 (NotJson "{oops")
              example_values example_world eq_refl eq_refl) as (H1 & H2 & _).
  rewrite H1, H2. split; reflexivity.
Defined.

(** ** Invitation notifications *)

Lemma invitation_lookup_missing storage invitationId :
  record_missing storage invitationId →
  invitation_lookup storage invitationId = Ok None.
Proof.
  unfold invitation_lookup.
  intros [Hi|(i & Hi & Hrest)]; rewrite Hi; simpl; [done|].
  destruct Hrest as [Hj|(j & Hj & Hrest)]; rewrite Hj; simpl; [done|].
  destruct Hrest as [Hc|(c & Hc & Hp)]; rewrite Hc; simpl; [done|].
  by rewrite Hp.
Qed.

(** Whatever the store answers, [sendInvitationNotification] never
    raises; it resolves to [true] exactly when it wrote the event to at
    least one socket, the sockets written to are the open sockets
    registered to the [userId] of the profile the store returned, and
    when a lookup finds nothing it resolves to [false] and writes
    nothing. *)
Lemma notification_outcome storage invitationId w :
  ∃ sent out,
    sendInvitationNotification storage invitationId w = Ok (sent, out)
    ∧ (sent = true ↔ ∃ s data, Send s data ∈ out)
    ∧ (∀ i j c p,
         getInvitation storage invitationId = Resolved (Some i) →
         getJob storage (inv_jobId i) = Resolved (Some j) →
         getCompany storage (job_companyId j) = Resolved (Some c) →
         getCandidateProfile storage (inv_candidateId i) = Resolved (Some p) →
         out = pushes w (cp_userId p) (new_invitation i j c))
    ∧ (record_missing storage invitationId → sent = false ∧ out = []).
Proof.
  unfold sendInvitationNotification.
  destruct (invitation_lookup storage invitationId) as [[[u data]|]|] eqn:Hlook;
    simpl.
  - rewrite sendToUser_spec. eexists _, _. split; [done|]. split; [|split].
    + rewrite bool_decide_eq_true. unfold pushes. split.
      * destruct (live_clients w u) as [|c l]; [done|]. intros _.
        exists (c_socket c), data. left.
      * intros (s & d & Hin) Hnil. rewrite Hnil in Hin.
        by apply elem_of_nil in Hin.
    + intros i j c p Hi Hj Hc Hp. unfold invitation_lookup in Hlook.
      rewrite Hi in Hlook. simpl in Hlook. rewrite Hj in Hlook. simpl in Hlook.
      rewrite Hc in Hlook. simpl in Hlook. rewrite Hp in Hlook. simpl in Hlook.
      by injection Hlook as <- <-.
    + intros Hmiss%invitation_lookup_missing. congruence.
  - exists false, []. split; [done|]. split; [|split; [|done]].
    + split; [done|]. intros (s & d & Hin). by apply elem_of_nil in Hin.
    + intros i j c p Hi Hj Hc Hp. unfold invitation_lookup in Hlook.
      rewrite Hi in Hlook. simpl in Hlook. rewrite Hj in Hlook. simpl in Hlook.
      rewrite Hc in Hlook. simpl in Hlook. rewrite Hp in Hlook. done.
  - exists false, []. split; [done|]. split; [|split; [|done]].
    + split; [done|]. intros (s & d & Hin). by apply elem_of_nil in Hin.
    + intros i j c p Hi Hj Hc Hp. unfold invitation_lookup in Hlook.
      rewrite Hi in Hlook. simpl in Hlook. rewrite Hj in Hlook. simpl in Hlook.
      rewrite Hc in Hlook. simpl in Hlook. rewrite Hp in Hlook. done.
Qed.

(** C7: [sendInvitationNotification] never raises, resolves to [true]
    exactly when it wrote the event to at least one socket, and resolves
    to [false], writing nothing, when a lookup finds nothing.  But the
    sockets written to are not those of the invited candidate: the
    profile is looked up by [user_id] with the invitation's
    [candidateId], which is a profile id, so a socket of the user who
    owns the invited profile receives nothing unless that user's id
    happens to equal the profile's id. *)
Theorem notify_true_iff_delivered secret db invitationId w tr :
  reachable secret w tr →
  ∃ sent out,
    sendInvitationNotification (DatabaseStorage db) invitationId w = Ok (sent, out)
    ∧ (sent = true ↔ ∃ s data, Send s data ∈ out)
    ∧ (record_missing (DatabaseStorage db) invitationId → sent = false ∧ out = [])
    ∧ (∀ i p s,
         getInvitation (DatabaseStorage db) invitationId = Resolved (Some i) →
         p ∈ t_candidateProfiles db →
         cp_id p = inv_candidateId i →
         {| c_userId := cp_userId p; c_socket := s |} ∈ clients w →
         cp_userId p ≠ inv_candidateId i →
         received s out = []).
Proof.
  intros Hinv%reachable_inv.
  destruct (notification_outcome (DatabaseStorage db) invitationId w)
    as (sent & out & Hres & Hiff & Hout & Hmiss).
  exists sent, out. split; [done|]. split; [done|]. split; [done|].
  intros i p s Hi Hp Hpid Hs Hne.
  destruct (getJob (DatabaseStorage db) (inv_jobId i)) as [[j|]|] eqn:Hj; [| |done].
  2: { destruct Hmiss as [_ ->]; [|done]. right. exists i. split; [done|]. by left. }
  destruct (getCompany (DatabaseStorage db) (job_companyId j)) as [[c|]|] eqn:Hc;
    [| |done].
  2: { destruct Hmiss as [_ ->]; [|done]. right. exists i. split; [done|].
       right. exists j. split; [done|]. by left. }
  destruct (getCandidateProfile (DatabaseStorage db) (inv_candidateId i))
    as [[p'|]|] eqn:Hp'; [| |done].
  2: { destruct Hmiss as [_ ->]; [|done]. right. exists i. split; [done|].
       right. exists j. split; [done|]. right. exists c. by split. }
  rewrite (Hout i j c p' Hi Hj Hc Hp').
  apply (received_pushes_other w (cp_userId p)); [exact (inv_nodup w Hinv)|done|].
  simpl in Hp'. unfold select_first in Hp'. injection Hp' as Hp'.
  apply head_Some_elem_of, list_elem_of_filter in Hp' as [Hp' _]. congruence.
Qed.

(** The failing input of C7: invitation 5 invites the profile with id 1,
    which belongs to user 2; user 2 has socket 2 open.  The notification
    resolves to [true], and nothing is written to socket 2. *)
Lemma notify_true_iff_delivered_witness :
  reachable example_secret example_world []
  ∧ ∃ out,
      sendInvitationNotification (DatabaseStorage example_tables_crossed) 5
        example_world = Ok (true, out)
      ∧ {| c_userId := 2; c_socket := 2%nat |} ∈ clients example_world
      ∧ readyState example_world !! 2%nat = Some OPEN
      ∧ received 2%nat out = [].
Proof.
  split; [apply example_reachable|].
  destruct (notify_true_iff_delivered example_secret example_tables_crossed 5
              example_world [] example_reachable)
    as (sent & out & Hres & _ & _ & Hwrong).
  assert (Hsent : sent = true).
  { assert (H : ∃ o, sendInvitationNotification
                       (DatabaseStorage example_tables_crossed) 5 example_world
                     = Ok (true, o)) by (eexists; vm_compute; reflexivity).
    destruct H as [o Ho]. rewrite Ho in Hres. by injection Hres. }
  subst sent. exists out. split; [exact Hres|].
  assert (Hin : {| c_userId := 2; c_socket := 2%nat |} ∈ clients example_world).
  { right. right. left. }
  split; [exact Hin|]. split; [reflexivity|].
  apply (Hwrong
           {| inv_id := 5; inv_jobId := 9; inv_candidateId := 1;
              inv_message := None; inv_status := "pending"; inv_createdAt := 900 |}
           {| cp_id := 1; cp_userId := 2; cp_firstName := "V"; cp_lastName := "W" |}
           2%nat); [reflexivity|left|reflexivity|exact Hin|discriminate].
Defined.

(** ** Token issuance *)

(** C9 does not hold of the code: the token of [/api/auth/ws-token] is
    minted by the same [createToken] as the login token, so it is the same
    token when minted at the same time, and both live seven days. *)
Theorem ws_token_lives_as_long_as_login_token secret now user :
  ∃ t,
    ws_token secret now user = Some t
    ∧ login_token secret now user = Some t
    ∧ Jwt.lifetime t = 604800.
Proof.
  assert (Hspan : Jwt.span_seconds "7d" = Some 604800) by reflexivity.
  unfold ws_token, login_token, createToken, Jwt.sign. rewrite Hspan.
  eexists. split; [reflexivity|]. split; [reflexivity|].
  unfold Jwt.lifetime. simpl. lia.
Qed.

Example ws_token_example :
  Jwt.lifetime <$> ws_token example_secret 1000 example_user = Some 604800
  ∧ Jwt.lifetime <$> login_token example_secret 1000 example_user = Some 604800.
Proof. split; reflexivity. Qed.

(** ** Scenarios *)

(** A token minted at time 1000 is refused from time 1000 + 7 days on. *)
Example expired_token_refused :
  step example_secret example_world (Connection 3%nat (Url (example_token 1)) 605800)
  = Some (set_readyState 3%nat CLOSING (set_readyState 3%nat OPEN example_world),
          [Close 3%nat 1008 "Invalid authentication token"]).
Proof. vm_compute. reflexivity. Qed.

Example tampered_token_refused :
  refused_token example_secret 1004 example_tampered_token
  ∧ step example_secret example_world (Connection 3%nat (Url example_tampered_token) 1004)
    = Some (set_readyState 3%nat CLOSING (set_readyState 3%nat OPEN example_world),
            [Close 3%nat 1008 "Invalid authentication token"]).
Proof.
  split; [|vm_compute; reflexivity].
  apply token_tampered. left. vm_compute. congruence.
Qed.

Example missing_token_refused :
  step example_secret example_world (Connection 3%nat (Url None) 1004)
  = Some (set_readyState 3%nat CLOSING (set_readyState 3%nat OPEN example_world),
          [Close 3%nat 1008 "Authentication required"]).
Proof. vm_compute. reflexivity. Qed.

(** Sender 1 sends ["hi"] to user 2, who has one open socket. *)
Example relay_scenario_online :
  (on_message_resume example_values (DbCommit 2000 2 "hi") example_world).2
  = let row := {| m_id := 1; m_senderId := 1; m_receiverId := 2;
                  m_content := "hi"; m_read := false; m_createdAt := 2000 |} in
    [Persisted row; Send 2%nat (message row);
     Send 0%nat (message_sent 1); Send 1%nat (message_sent 1)].
Proof. vm_compute. reflexivity. Qed.

(** Both tabs of user 1 receive the same event. *)
Example relay_scenario_two_tabs :
  (on_message_resume example_values_reply (DbCommit 2000 1 "hello") example_world).2
  = let row := {| m_id := 1; m_senderId := 2; m_receiverId := 1;
                  m_content := "hello"; m_read := false; m_createdAt := 2000 |} in
    [Persisted row; Send 0%nat (message row); Send 1%nat (message row);
     Send 2%nat (message_sent 1)].
Proof. vm_compute. reflexivity. Qed.

(** A stale entry: socket 1 is CLOSING but still registered; the push
    skips it. *)
Example relay_scenario_stale_entry :
  (on_message_resume example_values_reply (DbCommit 2000 1 "hello")
     (set_readyState 1%nat CLOSING example_world)).2
  = let row := {| m_id := 1; m_senderId := 2; m_receiverId := 1;
                  m_content := "hello"; m_read := false; m_createdAt := 2000 |} in
    [Persisted row; Send 0%nat (message row); Send 2%nat (message_sent 1)].
Proof. vm_compute. reflexivity. Qed.

(** The receiver's id written as a string: the row is stored for user 2,
    whose socket 2 is open, and only the sender's tabs are written to.
    The database cannot have stored another receiver or another content
    than the ones it was sent. *)
Example relay_scenario_string_id :
  run example_secret example_world
    [Frame 0%nat example_frame_string_id; Settle 0%nat (DbCommit 2000 2 "hi")]
  = Some (example_world_relayed,
          [CallCreateMessage example_values_string_id; Persisted example_row;
           Send 0%nat (message_sent 1); Send 1%nat (message_sent 1)])
  ∧ step example_secret (example_world_awaiting example_values_string_id)
      (Settle 0%nat (DbCommit 2000 3 "hi")) = None
  ∧ step example_secret (example_world_awaiting example_values_string_id)
      (Settle 0%nat (DbCommit 2000 2 "other")) = None.
Proof. split; [|split]; vm_compute; reflexivity. Qed.

(** A rejected insert that had drawn its id: the next row gets id 2. *)
Example relay_scenario_serial_gap :
  run example_secret example_world
    [Frame 0%nat example_frame; Settle 0%nat (DbReject true);
     Frame 0%nat example_frame; Settle 0%nat (DbCommit 2000 2 "hi")]
  = Some (set_messages
            {| rows := [ {| m_id := 2; m_senderId := 1; m_receiverId := 2;
                            m_content := "hi"; m_read := false;
                            m_createdAt := 2000 |} ];
               next_id := 3 |} example_world,
          [CallCreateMessage example_values;
           Send 0%nat error_frame; Send 1%nat error_frame;
           CallCreateMessage example_values;
           Persisted {| m_id := 2; m_senderId := 1; m_receiverId := 2;
                        m_content := "hi"; m_read := false; m_createdAt := 2000 |};
           Send 2%nat (message {| m_id := 2; m_senderId := 1; m_receiverId := 2;
                                  m_content := "hi"; m_read := false;
                                  m_createdAt := 2000 |});
           Send 0%nat (message_sent 2); Send 1%nat (message_sent 2)]).
Proof. vm_compute. reflexivity. Qed.

(** An upgrade whose URL does not parse: the listener throws. *)
Example bad_url_upgrade_throws :
  on_connection example_secret 1004 3%nat BadUrl
    (set_readyState 3%nat OPEN example_world) = Throw
  ∧ step example_secret example_world (Connection 3%nat BadUrl 1004) = None.
Proof. split; reflexivity. Qed.

(** * Further properties of the socket layer *)

Lemma example_relayed_reachable :
  reachable example_secret example_world_relayed example_trace_relayed.
Proof.
  apply (run_reachable example_secret initial_world [] example_events_relayed);
    [constructor|].
  vm_compute. reflexivity.
Qed.

(** X1: whatever the event loop handles, a frame is written only to a
    socket that is registered and whose ready state is OPEN at that
    moment; a stale entry (CLOSING) is skipped. *)
Theorem frames_go_to_open_registered_sockets secret w e w' out s ev :
  step secret w e = Some (w', out) →
  Send s ev ∈ out →
  readyState w !! s = Some OPEN ∧ in_registry w s.
Proof.
  intros Hturn%step_turn Hin.
  assert (Hpush : ∀ u d, Send s ev ∈ pushes w u d →
                         readyState w !! s = Some OPEN ∧ in_registry w s).
  { intros u d (_ & Hc & Hopen)%elem_of_pushes. split; [done|]. by exists u. }
  destruct Hturn; try (by apply elem_of_nil in Hin); try (by eapply Hpush).
  - by apply list_elem_of_singleton in Hin.
  - by apply list_elem_of_singleton in Hin.
  - apply elem_of_cons in Hin as [?|[Hin|?]%elem_of_app]; [done| |by eapply Hpush].
    apply elem_of_pushes_to in Hin as (_ & n & _ & Hc & Hopen).
    split; [done|]. by exists n.
Qed.

Lemma frames_go_to_open_registered_sockets_witness :
  step example_secret (example_world_awaiting example_values)
    (Settle 0%nat (DbCommit 2000 2 "hi"))
  = Some (example_world_relayed,
          [Persisted example_row; Send 2%nat (message example_row);
           Send 0%nat (message_sent 1); Send 1%nat (message_sent 1)])
  ∧ readyState (example_world_awaiting example_values) !! 2%nat = Some OPEN
  ∧ in_registry (example_world_awaiting example_values) 2%nat.
Proof.
  assert (Hstep : step example_secret (example_world_awaiting example_values)
                    (Settle 0%nat (DbCommit 2000 2 "hi"))
                  = Some (example_world_relayed,
                          [Persisted example_row; Send 2%nat (message example_row);
                           Send 0%nat (message_sent 1); Send 1%nat (message_sent 1)])).
  { vm_compute. reflexivity. }
  split; [exact Hstep|].
  apply (frames_go_to_open_registered_sockets example_secret _ _ _ _ 2%nat
           (message example_row) Hstep).
  right. left.
Defined.

(** X2: when a relayed message commits, the frames written go to the two
    parties only: a [message] event to a socket whose only registered
    user is the receiver of the row (and then the frame named that user
    by number), a [message_sent] to a socket whose only registered user is
    the sender, and nothing to anyone else. *)
Theorem relay_frames_reach_only_the_two_parties
    secret w tr i v now receiverId content w' out s ev :
  reachable secret w tr →
  awaiting w !! i = Some v →
  step secret w (Settle i (DbCommit now receiverId content)) = Some (w', out) →
  Send s ev ∈ out →
  let row := (insert_returning now {| i_senderId := a_senderId v;
                                      i_receiverId := receiverId;
                                      i_content := content |} (messages w)).1 in
  ∃ userId,
    {| c_userId := userId; c_socket := s |} ∈ clients w
    ∧ (∀ u, {| c_userId := u; c_socket := s |} ∈ clients w → u = userId)
    ∧ ((userId = m_receiverId row ∧ a_receiverId v = JsNumber userId
        ∧ ev = message row)
       ∨ (userId = m_senderId row ∧ ev = message_sent (m_id row))).
Proof.
  intros Hinv%reachable_inv Hv Hturn%step_turn Hin row.
  inversion Hturn as [| | | | |i' v' now' r' c' Hv' Hr Hc| | | |]; subst.
  assert (v' = v) as -> by congruence.
  apply elem_of_cons in Hin as [?|[Hin|Hin]%elem_of_app]; [done| |].
  - apply elem_of_pushes_to in Hin as (-> & n & Hn & Hin & _).
    rewrite Hn in Hr. cbn [integer_column] in Hr.
    apply bool_decide_eq_true in Hr as [-> _].
    exists n. split; [done|]. split; [|by left].
    intros u Hu. by apply (socket_owner_unique (clients w) _ _ s (inv_nodup w Hinv)).
  - apply elem_of_pushes in Hin as (-> & Hin & _).
    exists (a_senderId v). split; [done|]. split; [|by right].
    intros u Hu. by apply (socket_owner_unique (clients w) _ _ s (inv_nodup w Hinv)).
Qed.

Lemma relay_frames_reach_only_the_two_parties_witness :
  reachable example_secret (example_world_awaiting example_values)
    [CallCreateMessage example_values]
  ∧ awaiting (example_world_awaiting example_values) !! 0%nat = Some example_values
  ∧ ∃ userId,
      {| c_userId := userId; c_socket := 2%nat |}
        ∈ clients (example_world_awaiting example_values)
      ∧ userId = 2.
Proof.
  split; [apply example_awaiting_reachable|]. split; [reflexivity|].
  assert (Hstep : step example_secret (example_world_awaiting example_values)
                    (Settle 0%nat (DbCommit 2000 2 "hi"))
                  = Some (example_world_relayed,
                          [Persisted example_row; Send 2%nat (message example_row);
                           Send 0%nat (message_sent 1); Send 1%nat (message_sent 1)])).
  { vm_compute. reflexivity. }
  destruct (relay_frames_reach_only_the_two_parties example_secret _ _ 0%nat
              example_values 2000 2 "hi" _ _ 2%nat (message example_row)
              example_awaiting_reachable eq_refl Hstep)
    as (u & Hu & _ & [(-> & _)|[_ Hev]]); [right; left| |done].
  exists 2. split; [exact Hu|reflexivity].
Defined.

(** X3: a token minted by [createToken] (the login cookie and the
    ws-token alike) and presented in the query string of an upgrade whose
    URL parses registers the new socket under the token's user id, behind
    all existing entries and with nothing written, exactly when it was
    minted under the server's secret less than seven days earlier;
    otherwise the upgrade is closed with 1008 and the registry is
    unchanged.  An upgrade whose URL does not parse never gets that far:
    whatever token it was meant to carry, the listener throws and the turn
    does not return to the event loop. *)
Theorem minted_token_upgrade secret0 secret now0 payload t w s now :
  createToken secret0 now0 payload = Some t →
  readyState w !! s = None →
  step secret w (Connection s (Url (Some (Jwt.Encoded t))) now)
  = Some
      (if bool_decide (secret0 = secret ∧ now < now0 + 604800) then
         (add_listeners s (Jwt.userId payload)
            (set_clients
               (clients w ++ [{| c_userId := Jwt.userId payload; c_socket := s |}])
               (set_readyState s OPEN w)), [])
       else
         (set_readyState s CLOSING (set_readyState s OPEN w),
          [Close s 1008 "Invalid authentication token"]))
  ∧ step secret w (Connection s BadUrl now) = None
  ∧ uncaught secret w (Connection s BadUrl now) = true.
Proof.
  intros Hmint Hfresh.
  assert (Hspan : Jwt.span_seconds "7d" = Some 604800) by reflexivity.
  unfold createToken, Jwt.sign in Hmint. rewrite Hspan in Hmint.
  injection Hmint as <-. simpl. rewrite Hfresh. split; [|done].
  unfold on_connection, socket_close. simpl. rewrite lookup_insert_eq.
  repeat case_bool_decide; simpl; try done; exfalso; intuition (try lia; congruence).
Qed.

Lemma minted_token_upgrade_witness :
  ws_token example_secret 1000 example_user
  = createToken example_secret 1000
      {| Jwt.userId := 1; Jwt.email := "u@example.org"; Jwt.role := "candidate" |}
  ∧ readyState example_world !! 3%nat = None
  ∧ ∃ t, ws_token example_secret 1000 example_user = Some t
    ∧ step example_secret example_world
        (Connection 3%nat (Url (Some (Jwt.Encoded t))) 605799)
      = Some (add_listeners 3%nat 1
                (set_clients
                   (clients example_world ++ [{| c_userId := 1; c_socket := 3%nat |}])
                   (set_readyState 3%nat OPEN example_world)), [])
    ∧ step example_secret example_world
        (Connection 3%nat (Url (Some (Jwt.Encoded t))) 605800)
      = Some (set_readyState 3%nat CLOSING (set_readyState 3%nat OPEN example_world),
              [Close 3%nat 1008 "Invalid authentication token"])
    ∧ step example_secret example_world (Connection 3%nat BadUrl 605799) = None.
Proof.
  split; [reflexivity|]. split; [reflexivity|].
  destruct (ws_token example_secret 1000 example_user) as [t|] eqn:Ht; [|done].
  exists t. split; [reflexivity|]. split; [|split].
  - destruct (minted_token_upgrade example_secret example_secret 1000 _ t
                example_world 3%nat 605799 Ht eq_refl) as [-> _]. reflexivity.
  - destruct (minted_token_upgrade example_secret example_secret 1000 _ t
                example_world 3%nat 605800 Ht eq_refl) as [-> _]. reflexivity.
  - by destruct (minted_token_upgrade example_secret example_secret 1000 _ t
                   example_world 3%nat 605799 Ht eq_refl) as (_ & H & _).
Defined.

(** ** The trace and the messages table *)

Lemma persisted_app tr1 tr2 : persisted (tr1 ++ tr2) = persisted tr1 ++ persisted tr2.
Proof. induction tr1 as [|[] tr1 IH]; simpl; by rewrite ?IH. Qed.

Lemma create_calls_app tr1 tr2 :
  create_calls (tr1 ++ tr2) = create_calls tr1 ++ create_calls tr2.
Proof. induction tr1 as [|[] tr1 IH]; simpl; by rewrite ?IH. Qed.

Lemma persisted_pushes w u d : persisted (pushes w u d) = [].
Proof. unfold pushes. induction (live_clients w u); csimpl; done. Qed.

Lemma create_calls_pushes w u d : create_calls (pushes w u d) = [].
Proof. unfold pushes. induction (live_clients w u); csimpl; done. Qed.

Lemma pushed_after_persisted_mono seen seen' tr :
  seen ⊆ seen' → pushed_after_persisted seen tr → pushed_after_persisted seen' tr.
Proof.
  revert seen seen'. induction tr as [|e tr IH]; intros seen seen' Hsub; [done|].
  destruct e as [v|m|s [m|id|msg|i j c]|s code reason]; simpl; try by apply IH.
  - apply IH. intros x [->|Hx]%elem_of_cons; [left|right; by apply Hsub].
  - intros [Hm H]. split; [by apply Hsub|by eapply IH].
  - intros [(m & Hm & Hid) H]. split; [exists m; split; [by apply Hsub|done]|by eapply IH].
Qed.

Lemma pushed_after_persisted_app seen tr1 tr2 :
  pushed_after_persisted seen tr1 →
  pushed_after_persisted (reverse (persisted tr1) ++ seen) tr2 →
  pushed_after_persisted seen (tr1 ++ tr2).
Proof.
  revert seen. induction tr1 as [|e tr1 IH]; intros seen H1 H2; [done|].
  destruct e as [v|m|s [m|id|msg|i j c]|s code reason]; simpl in *;
    try (by apply IH); try (destruct H1 as [? H1]; split; [done|by apply IH]).
  apply IH; [done|]. by rewrite reverse_cons, <- app_assoc in H2.
Qed.

Lemma pushed_after_persisted_pushes seen w u d :
  match d with
  | message m => m ∈ seen
  | message_sent id => ∃ m, m ∈ seen ∧ m_id m = id
  | _ => True
  end →
  pushed_after_persisted seen (pushes w u d).
Proof.
  intros Hd. unfold pushes. induction (live_clients w u) as [|c l IH]; csimpl; [done|].
  destruct d; try done; by split.
Qed.

Lemma pushed_after_persisted_pushes_to seen w v d :
  match d with
  | message m => m ∈ seen
  | message_sent id => ∃ m, m ∈ seen ∧ m_id m = id
  | _ => True
  end →
  pushed_after_persisted seen (pushes_to w v d).
Proof.
  intros Hd. destruct (pushes_to_cases w v d) as [->|(n & _ & ->)]; [done|].
  by apply pushed_after_persisted_pushes.
Qed.

Lemma persisted_pushes_to w v d : persisted (pushes_to w v d) = [].
Proof.
  destruct (pushes_to_cases w v d) as [->|(n & _ & ->)]; [done|].
  apply persisted_pushes.
Qed.

Lemma create_calls_pushes_to w v d : create_calls (pushes_to w v d) = [].
Proof.
  destruct (pushes_to_cases w v d) as [->|(n & _ & ->)]; [done|].
  apply create_calls_pushes.
Qed.

Lemma turn_pushed_after_persisted secret w e w' out seen :
  turn secret w e w' out → pushed_after_persisted seen out.
Proof.
  intros Hturn. destruct Hturn; try (simpl; done);
    try (by apply pushed_after_persisted_pushes).
  cbn [pushed_after_persisted].
  apply (pushed_after_persisted_app _ (pushes_to _ _ _)).
  - apply pushed_after_persisted_pushes_to. left.
  - apply pushed_after_persisted_pushes.
    exists (insert_returning now ins (messages w)).1. split; [|done].
    rewrite persisted_pushes_to. left.
Qed.

Lemma reachable_pushed_after_persisted secret w tr :
  reachable secret w tr → pushed_after_persisted [] tr.
Proof.
  induction 1 as [|w tr e w' out _ IH Hstep]; [done|].
  apply pushed_after_persisted_app; [done|].
  by apply (turn_pushed_after_persisted secret w e w'), step_turn.
Qed.

Lemma pushed_after_persisted_split seen tr before s d after :
  pushed_after_persisted seen tr →
  tr = before ++ Send s d :: after →
  match d with
  | message m => m ∈ seen ∨ Persisted m ∈ before
  | message_sent id => ∃ m, m_id m = id ∧ (m ∈ seen ∨ Persisted m ∈ before)
  | _ => True
  end.
Proof.
  intros Hp ->. revert seen Hp.
  induction before as [|e before IH]; intros seen Hp.
  - simpl in Hp. destruct d; try done.
    + left. by destruct Hp.
    + destruct Hp as [(m & Hm & Hid) _]. eauto.
  - assert (Hskip : pushed_after_persisted seen (before ++ Send s d :: after) →
      match d with
      | message m => m ∈ seen ∨ Persisted m ∈ e :: before
      | message_sent id => ∃ m, m_id m = id ∧ (m ∈ seen ∨ Persisted m ∈ e :: before)
      | _ => True
      end).
    { intros H. specialize (IH seen H). destruct d; try done.
      - destruct IH as [?|?]; [by left|right; by right].
      - destruct IH as (m & Hid & [?|?]); exists m; (split; [done|]);
          [by left|right; by right]. }
    destruct e as [v|m0|s0 [m0|id0|msg0|i0 j0 c0]|s0 code reason]; simpl in Hp;
      try (by apply Hskip); try (destruct Hp as [_ Hp]; by apply Hskip).
    specialize (IH (m0 :: seen) Hp). destruct d; try done.
    + destruct IH as [[->|?]%elem_of_cons|?]; [right; left|by left|right; by right].
    + destruct IH as (m & Hid & Hor). exists m. split; [done|].
      destruct Hor as [[->|?]%elem_of_cons|?]; [right; left|by left|right; by right].
Qed.

(** X5: over the whole life of the server, a [message] event is written
    to a socket only after the row it carries was persisted, and a
    [message_sent] confirmation only after a row with that id was
    persisted. *)
Theorem nothing_is_pushed_before_it_is_persisted secret w tr before s after :
  reachable secret w tr →
  (∀ m, tr = before ++ Send s (message m) :: after → Persisted m ∈ before)
  ∧ (∀ id, tr = before ++ Send s (message_sent id) :: after →
           ∃ m, m_id m = id ∧ Persisted m ∈ before).
Proof.
  intros Hp%reachable_pushed_after_persisted. split.
  - intros m Heq.
    destruct (pushed_after_persisted_split [] tr before s (message m) after Hp Heq)
      as [Hnil|?]; [by apply elem_of_nil in Hnil|done].
  - intros id Heq.
    destruct (pushed_after_persisted_split [] tr before s (message_sent id) after Hp Heq)
      as (m & Hid & [Hnil|?]); [by apply elem_of_nil in Hnil|eauto].
Qed.

Lemma nothing_is_pushed_before_it_is_persisted_witness :
  reachable example_secret example_world_relayed example_trace_relayed
  ∧ Persisted example_row
      ∈ [CallCreateMessage example_values; Persisted example_row].
Proof.
  split; [apply example_relayed_reachable|].
  destruct (nothing_is_pushed_before_it_is_persisted example_secret
              example_world_relayed example_trace_relayed
              [CallCreateMessage example_values; Persisted example_row] 2%nat
              [Send 0%nat (message_sent 1); Send 1%nat (message_sent 1)]
              example_relayed_reachable) as [H _].
  apply (H example_row). reflexivity.
Defined.

Lemma turn_calls_inv secret w tr e w' out calls :
  Forall2 stored_from calls (rows (messages w)) →
  calls ++ awaiting w ⊆+ create_calls tr →
  turn secret w e w' out →
  ∃ calls',
    Forall2 stored_from calls' (rows (messages w'))
    ∧ calls' ++ awaiting w' ⊆+ create_calls (tr ++ out).
Proof.
  intros Hrows IH Hturn. rewrite create_calls_app.
  destruct Hturn;
    cbn [messages awaiting set_messages set_awaiting set_readyState
         add_listeners set_clients on_close create_calls];
    rewrite ?create_calls_app, ?create_calls_pushes, ?app_nil_r;
    try (by exists calls).
  - exists calls. split; [done|]. rewrite app_assoc. by apply submseteq_skips_r.
  - exists (calls ++ [v]). split.
    + unfold insert_returning. cbn [fst snd rows].
      apply Forall2_app; [done|]. by repeat constructor.
    + rewrite create_calls_pushes_to, app_nil_r, <- app_assoc. cbn [app].
      by rewrite <- (delete_Permutation (awaiting w) i v).
  - exists calls. split; [by destruct serial_drawn|].
    etrans; [|exact IH]. apply submseteq_skips_l.
    rewrite (delete_Permutation (awaiting w) i v) at 2 by done.
    by apply submseteq_cons.
Qed.

(** X6: every row of the messages table and every insert still pending
    stems from a [createMessage] call of its own: there are calls, one
    per row and in the order of the rows, such that each row holds what
    the database can have made of its call, and these calls together with
    the pending ones are, with multiplicity, among the calls of the trace.
    So one call never yields two rows and no row appears without a
    call. *)
Theorem rows_and_pending_inserts_stem_from_calls secret w tr :
  reachable secret w tr →
  ∃ calls,
    Forall2 stored_from calls (rows (messages w))
    ∧ calls ++ awaiting w ⊆+ create_calls tr
    ∧ Forall2 (λ v m, ∀ n s,
                 a_receiverId v = JsNumber n → a_content v = JsString s →
                 insert_of m = {| i_senderId := a_senderId v; i_receiverId := n;
                                  i_content := s |})
        calls (rows (messages w)).
Proof.
  intros Hreach.
  assert (Hcalls : ∃ calls, Forall2 stored_from calls (rows (messages w))
                            ∧ calls ++ awaiting w ⊆+ create_calls tr).
  { induction Hreach as [|w tr e w' out _ (calls & Hrows & IH) Hstep].
    - exists []. by split; [constructor|].
    - by apply (turn_calls_inv secret w tr e w' out calls), step_turn. }
  destruct Hcalls as (calls & Hrows & Hsub). exists calls.
  split; [done|]. split; [done|].
  eapply Forall2_impl; [exact Hrows|].
  intros v m (Hs & Hr & Hc) n s Hn Hstr. rewrite Hn in Hr. rewrite Hstr in Hc.
  cbn [integer_column text_column] in Hr, Hc.
  apply bool_decide_eq_true in Hr as [Hr _]. apply bool_decide_eq_true in Hc.
  unfold insert_of. by rewrite Hs, Hr, Hc.
Qed.

Lemma rows_and_pending_inserts_stem_from_calls_witness :
  reachable example_secret example_world_relayed example_trace_relayed
  ∧ ∃ calls,
      Forall2 stored_from calls [example_row]
      ∧ calls ⊆+ [example_values; example_values].
Proof.
  split; [apply example_relayed_reachable|].
  destruct (rows_and_pending_inserts_stem_from_calls example_secret
              example_world_relayed example_trace_relayed example_relayed_reachable)
    as (calls & Hrows & Hsub & _).
  exists calls. split; [exact Hrows|].
  simpl in Hsub. rewrite app_nil_r in Hsub.
  etrans; [exact Hsub|]. by apply submseteq_cons.
Defined.

Lemma initial_sender_inv : sender_inv initial_world.
Proof.
  split; simpl.
  - intros s u Hs. by rewrite lookup_empty in Hs.
  - intros v Hv. by apply elem_of_nil in Hv.
  - intros m Hm. by apply elem_of_nil in Hm.
Qed.

Lemma turn_sender_inv secret w e w' out :
  sender_inv w → turn secret w e w' out → sender_inv w'.
Proof.
  intros [Hknown Hawait Hrows] Hturn.
  assert (Hins : ∀ (rs : gmap Socket ReadyState) s r s',
                   is_Some (rs !! s') → is_Some (<[s := r]> rs !! s')).
  { intros rs s r s' Hl. destruct (decide (s = s')) as [->|Hne].
    - rewrite lookup_insert_eq. eauto.
    - by rewrite lookup_insert_ne. }
  assert (Hdel : ∀ i v', v' ∈ delete i (awaiting w) →
                   ∃ s, listeners w !! s = Some (a_senderId v')).
  { intros i v' Hv'. apply Hawait. eapply elem_of_sublist; [exact Hv'|].
    apply sublist_delete. }
  destruct Hturn.
  - split; simpl; [|done|done].
    intros s' u Hl. by apply Hins, Hins, (Hknown s' u).
  - assert (Hkeep : ∀ u, (∃ s', listeners w !! s' = Some u) →
        ∃ s', <[s := Jwt.userId (Jwt.payload decoded)]> (listeners w) !! s' = Some u).
    { intros u [s' Hs']. exists s'. rewrite lookup_insert_ne; [done|]. intros <-.
      destruct (Hknown s _ Hs') as [r Hr]. congruence. }
    split; simpl.
    + intros s' u [[<- _]|[Hne Hl]]%lookup_insert_Some.
      * rewrite lookup_insert_eq. eauto.
      * by apply Hins, (Hknown s' u).
    + intros v Hv. by apply Hkeep, Hawait.
    + intros m Hm. by apply Hkeep, Hrows.
  - by split.
  - by split.
  - split; simpl; [done| |done].
    intros v [Hv| ->%list_elem_of_singleton]%elem_of_app; [by apply Hawait|].
    by exists s.
  - split; simpl; [done|by apply Hdel|].
    intros m [Hm| ->%list_elem_of_singleton]%elem_of_app; [by apply Hrows|].
    simpl. apply Hawait. by eapply list_elem_of_lookup_2.
  - split; simpl; [done|by apply Hdel|by destruct serial_drawn].
  - split; simpl; [|done|done].
    intros s' u Hl. by apply Hins, (Hknown s' u).
  - split; simpl; [|done|done].
    intros s' u Hl. by apply Hins, (Hknown s' u).
  - split; simpl; [|done|done].
    intros s' u Hl. by apply Hins, (Hknown s' u).
Qed.

Lemma reachable_sender_inv secret w tr : reachable secret w tr → sender_inv w.
Proof.
  induction 1 as [|w tr e w' out _ IH Hstep]; [apply initial_sender_inv|].
  by apply (turn_sender_inv secret w e w' out), step_turn.
Qed.

(** X7: the sender recorded in a stored message cannot be chosen by the
    client: for every row of the messages table, [senderId] is the user
    id under which some socket passed authentication (the id its
    listeners close over). *)
Theorem stored_sender_is_an_authenticated_user secret w tr m :
  reachable secret w tr →
  m ∈ rows (messages w) →
  ∃ s, listeners w !! s = Some (m_senderId m) ∧ is_Some (readyState w !! s).
Proof.
  intros Hinv%reachable_sender_inv Hm.
  destruct (sender_rows w Hinv m Hm) as [s Hs]. exists s. split; [done|].
  by apply (sender_known_socket w Hinv s (m_senderId m)).
Qed.

Lemma stored_sender_is_an_authenticated_user_witness :
  reachable example_secret example_world_relayed example_trace_relayed
  ∧ example_row ∈ rows (messages example_world_relayed)
  ∧ ∃ s, listeners example_world_relayed !! s = Some 1
         ∧ is_Some (readyState example_world_relayed !! s).
Proof.
  split; [apply example_relayed_reachable|]. split; [left|].
  apply (stored_sender_is_an_authenticated_user example_secret
           example_world_relayed example_trace_relayed example_row
           example_relayed_reachable).
  left.
Defined.

(** X8: once the close event of a socket has been handled, the socket is
    out of the registry for good and no frame is ever written to it
    again, whatever the event loop handles afterwards. *)
Theorem closed_socket_never_written_again secret w tr s w' out es w'' out' :
  reachable secret w tr →
  step secret w (Closed s) = Some (w', out) →
  run secret w' es = Some (w'', out') →
  out = [] ∧ readyState w' !! s = Some CLOSED
  ∧ ¬ in_registry w'' s ∧ received s out' = [].
Proof.
  intros Hreach Hstep Hrun.
  pose proof (reach_step secret w tr (Closed s) w' out Hreach Hstep) as Hreach'.
  assert (Hclosed : out = [] ∧ readyState w' !! s = Some CLOSED).
  { apply step_turn in Hstep. inversion Hstep; subst; simpl;
      by rewrite lookup_insert_eq. }
  destruct Hclosed as [-> Hclosed]. split; [done|]. split; [done|].
  apply (run_stays_out secret w' es w'' out' s); [by rewrite Hclosed| |done].
  intros [u Hu]. apply reachable_inv in Hreach'.
  destruct (inv_not_closed w' Hreach' _ Hu) as [H|H]; simpl in H; congruence.
Qed.

Lemma closed_socket_never_written_again_witness :
  reachable example_secret example_world []
  ∧ ∃ w' w'' out',
      step example_secret example_world (Closed 0%nat) = Some (w', [])
      ∧ run example_secret w'
          [Frame 1%nat example_frame; Settle 0%nat (DbCommit 2000 2 "hi")]
        = Some (w'', out')
      ∧ ¬ in_registry w'' 0%nat ∧ received 0%nat out' = [].
Proof.
  split; [apply example_reachable|].
  destruct (step example_secret example_world (Closed 0%nat)) as [[w' out]|] eqn:Hstep;
    [|by vm_compute in Hstep].
  destruct (run example_secret w'
              [Frame 1%nat example_frame; Settle 0%nat (DbCommit 2000 2 "hi")])
    as [[w'' out']|] eqn:Hrun.
  - destruct (closed_socket_never_written_again example_secret example_world []
                0%nat w' out _ w'' out' example_reachable Hstep Hrun)
      as (-> & _ & Hout & Hrecv).
    exists w', w'', out'. by rewrite Hrun.
  - exfalso. vm_compute in Hstep. injection Hstep as <- _.
    by vm_compute in Hrun.
Defined.

(** The recipient's only socket closes while the insert is pending: the
    message is still persisted and the sender's tabs are still
    confirmed; nothing is written to the closed socket. *)
Example relay_scenario_recipient_closes_meanwhile :
  run example_secret example_world
    [Frame 0%nat example_frame; Closed 2%nat; Settle 0%nat (DbCommit 2000 2 "hi")]
  = Some (on_close 2 2%nat (set_readyState 2%nat CLOSED example_world_relayed),
          [CallCreateMessage example_values; Persisted example_row;
           Send 0%nat (message_sent 1); Send 1%nat (message_sent 1)]).
Proof. vm_compute. reflexivity. Qed.

(** * The message store *)

Lemma getMessage_Some id t m :
  getMessage id t = Some m → m ∈ rows t ∧ m_id m = id.
Proof.
  unfold getMessage. intros Hh%head_Some_elem_of.
  apply list_elem_of_filter in Hh. tauto.
Qed.

Lemma getMessage_None id t :
  getMessage id t = None ↔ ∀ m, m ∈ rows t → m_id m ≠ id.
Proof.
  unfold getMessage. rewrite head_None. split.
  - intros Hnil m Hm Hid. by apply (filter_nil_not_elem_of _ _ m Hnil).
  - intros Hall. apply elem_of_nil_inv. intros m [Hid Hm]%list_elem_of_filter.
    by apply (Hall m).
Qed.

Lemma filter_id_nodup (l : list Message) m :
  NoDup (m_id <$> l) → m ∈ l → filter (λ m', m_id m' = m_id m) l = [m].
Proof.
  induction l as [|m' l IH]; csimpl; intros Hnd Hin.
  - by apply elem_of_nil in Hin.
  - apply NoDup_cons in Hnd as [Hfresh Hnd].
    apply elem_of_cons in Hin as [->|Hin].
    + rewrite filter_cons_True by done. f_equal.
      apply elem_of_nil_inv. intros x [Hx Hxin]%list_elem_of_filter.
      apply Hfresh. rewrite <- Hx. by apply list_elem_of_fmap_2.
    + rewrite filter_cons_False; [by apply IH|].
      intros Heq. apply Hfresh. rewrite Heq. by apply list_elem_of_fmap_2.
Qed.

Lemma getMessage_wf t m :
  table_wf t → m ∈ rows t → getMessage (m_id m) t = Some m.
Proof.
  intros [Hnd _] Hm. unfold getMessage. by rewrite (filter_id_nodup _ m Hnd Hm).
Qed.

Lemma insert_returning_wf now v t :
  table_wf t → table_wf (insert_returning now v t).2.
Proof.
  intros [Hnd Hlt]. split; simpl.
  - rewrite fmap_app. apply NoDup_app. split; [done|]. split; [|apply NoDup_singleton].
    intros id [m [-> Hm]]%list_elem_of_fmap Hid%list_elem_of_singleton.
    simpl in Hid. rewrite Forall_forall in Hlt. specialize (Hlt m Hm). lia.
  - apply Forall_app. split.
    + eapply Forall_impl; [exact Hlt|]. simpl. intros. lia.
    + apply Forall_singleton. simpl. lia.
Qed.

(** X9: insert and lookup round trip.  On a table whose ids are distinct
    and below the serial, the row returned by an insert is found again
    under its id, unchanged; no other id's lookup changes; and an id at
    or above the serial is not found. *)
Theorem insert_then_getMessage now v t :
  table_wf t →
  getMessage (m_id (insert_returning now v t).1) (insert_returning now v t).2
    = Some (insert_returning now v t).1
  ∧ (∀ id, id ≠ m_id (insert_returning now v t).1 →
           getMessage id (insert_returning now v t).2 = getMessage id t)
  ∧ (∀ id, next_id t ≤ id → getMessage id t = None)
  ∧ table_wf (insert_returning now v t).2.
Proof.
  intros Hwf. split; [|split; [|split]].
  - apply getMessage_wf; [by apply insert_returning_wf|].
    simpl. apply elem_of_app. right. left.
  - intros id Hne. unfold getMessage. simpl.
    rewrite filter_app, filter_cons_False, filter_nil, app_nil_r; [done|].
    simpl. simpl in Hne. congruence.
  - intros id Hid. apply getMessage_None. intros m Hm Heq.
    destruct Hwf as [_ Hlt]. rewrite Forall_forall in Hlt. specialize (Hlt m Hm). lia.
  - by apply insert_returning_wf.
Qed.

Lemma insert_then_getMessage_witness :
  table_wf example_table
  ∧ getMessage 5 (insert_returning 500 example_insert example_table).2
    = Some {| m_id := 5; m_senderId := 1; m_receiverId := 2; m_content := "hi";
              m_read := false; m_createdAt := 500 |}
  ∧ getMessage 6 example_table = None.
Proof.
  assert (Hwf : table_wf example_table).
  { split; [compute_done|]. repeat constructor. }
  split; [exact Hwf|].
  destruct (insert_then_getMessage 500 example_insert example_table Hwf)
    as (H1 & _ & H3 & _).
  split; [exact H1|]. apply H3. simpl. lia.
Defined.

Lemma filter_id_update id id' (l : list Message) :
  filter (λ m, m_id m = id')
    ((λ m, if decide (m_id m = id) then set_read_true m else m) <$> l)
  = (λ m, if decide (m_id m = id) then set_read_true m else m)
      <$> filter (λ m, m_id m = id') l.
Proof.
  induction l as [|m l IH]; csimpl; [done|].
  destruct (decide (m_id m = id')) as [Hm|Hm].
  - rewrite !filter_cons_True; [|done|by case_decide]. csimpl. by rewrite IH.
  - rewrite !filter_cons_False; [done|done|by case_decide].
Qed.

Lemma getMessage_update id id' t :
  getMessage id' (update_read_returning id t).2
  = (λ m, if decide (m_id m = id) then set_read_true m else m) <$> getMessage id' t.
Proof.
  unfold getMessage. simpl. rewrite filter_id_update.
  by destruct (filter _ (rows t)).
Qed.

Lemma update_ids id t :
  m_id <$> rows (update_read_returning id t).2 = m_id <$> rows t.
Proof.
  simpl. rewrite <- list_fmap_compose. apply list_fmap_ext.
  intros _ m _. simpl. by case_decide.
Qed.

Lemma update_wf id t : table_wf t → table_wf (update_read_returning id t).2.
Proof.
  intros [Hnd Hlt]. split; [by rewrite update_ids|]. simpl.
  apply Forall_fmap. eapply Forall_impl; [exact Hlt|].
  intros m Hm. simpl. by case_decide.
Qed.

Lemma update_missing id t :
  getMessage id t = None → update_read_returning id t = ([], t).
Proof.
  intros Hnone. unfold update_read_returning.
  assert (Hf : filter (λ m, m_id m = id) (rows t) = []) by (by apply head_None).
  rewrite Hf. f_equal. destruct t as [l n]. simpl. f_equal.
  rewrite <- (list_fmap_id l) at 2. apply list_fmap_ext.
  intros _ m Hm%list_elem_of_lookup_2. simpl. case_decide as Hid; [|done].
  exfalso. by apply (proj1 (getMessage_None id {| rows := l; next_id := n |}) Hnone m).
Qed.

(** X10: [markMessageAsRead] of an id that is not in the table returns
    [undefined] and leaves the table as it is; of an id that is, it
    returns the row with [read = true] and otherwise unchanged, that row
    is what the id now looks up, every other id looks up what it did, and
    the number of rows and the serial are unchanged.  Marking twice is
    the same as marking once. *)
Theorem markMessageAsRead_effect id t :
  table_wf t →
  match getMessage id t with
  | None => markMessageAsRead id t = (None, t)
  | Some m =>
      (markMessageAsRead id t).1 = Some (set_read_true m)
      ∧ getMessage id (markMessageAsRead id t).2 = Some (set_read_true m)
  end
  ∧ (∀ id', id' ≠ id →
        getMessage id' (markMessageAsRead id t).2 = getMessage id' t)
  ∧ length (rows (markMessageAsRead id t).2) = length (rows t)
  ∧ next_id (markMessageAsRead id t).2 = next_id t
  ∧ table_wf (markMessageAsRead id t).2
  ∧ (markMessageAsRead id (markMessageAsRead id t).2).2 = (markMessageAsRead id t).2.
Proof.
  intros Hwf.
  assert (Heq : markMessageAsRead id t
                = (head (update_read_returning id t).1, (update_read_returning id t).2))
    by done.
  assert (H2 : (markMessageAsRead id t).2 = (update_read_returning id t).2) by done.
  split; [|split; [|split; [|split; [|split]]]].
  - destruct (getMessage id t) as [m|] eqn:Hm.
    + destruct (getMessage_Some id t m Hm) as [Hin Hid]. split.
      * rewrite Heq. simpl. subst id.
        by rewrite (filter_id_nodup _ m (proj1 Hwf) Hin).
      * rewrite H2, getMessage_update, Hm. simpl. by rewrite decide_True.
    + by rewrite Heq, (update_missing id t Hm).
  - intros id' Hne. rewrite H2, getMessage_update.
    destruct (getMessage id' t) as [m|] eqn:Hm; [|done]. simpl.
    destruct (getMessage_Some id' t m Hm) as [_ Hid]. by rewrite decide_False by congruence.
  - rewrite H2. simpl. by rewrite length_fmap.
  - by rewrite H2.
  - rewrite H2. by apply update_wf.
  - rewrite H2. unfold markMessageAsRead at 1. simpl. f_equal.
    rewrite <- list_fmap_compose. apply list_fmap_ext. intros _ m _. simpl.
    repeat case_decide; simpl in *; done.
Qed.

Lemma markMessageAsRead_effect_witness :
  table_wf example_table
  ∧ markMessageAsRead 9 example_table = (None, example_table)
  ∧ (markMessageAsRead 3 example_table).1
    = Some {| m_id := 3; m_senderId := 2; m_receiverId := 1; m_content := "c";
              m_read := true; m_createdAt := 300 |}.
Proof.
  assert (Hwf : table_wf example_table).
  { split; [compute_done|]. repeat constructor. }
  split; [exact Hwf|]. split.
  - pose proof (markMessageAsRead_effect 9 example_table Hwf) as [H _].
    exact H.
  - pose proof (markMessageAsRead_effect 3 example_table Hwf) as [[H _] _].
    exact H.
Defined.

Lemma getMessage_after_mark id' t m id :
  getMessage id' t = Some m →
  ∃ m', getMessage id' (markMessageAsRead id t).2 = Some m'
        ∧ m_id m' = m_id m ∧ insert_of m' = insert_of m
        ∧ m_createdAt m' = m_createdAt m.
Proof.
  intros Hm.
  change (markMessageAsRead id t).2 with (update_read_returning id t).2.
  rewrite getMessage_update, Hm. simpl.
  case_decide; eexists; (split; [done|]); by destruct m.
Qed.

(** X11: a message that is read stays read: neither an insert nor a
    [markMessageAsRead] of any id changes what the id of a read message
    looks up, and neither ever changes a row's id, sender, receiver,
    content or creation time. *)
Theorem read_is_monotone id' t m :
  getMessage id' t = Some m →
  (m_read m = true →
     (∀ id, getMessage id' (markMessageAsRead id t).2 = Some m)
     ∧ (∀ now v, getMessage id' (insert_returning now v t).2 = Some m))
  ∧ (∀ id, ∃ m', getMessage id' (markMessageAsRead id t).2 = Some m'
                 ∧ insert_of m' = insert_of m ∧ m_id m' = m_id m
                 ∧ m_createdAt m' = m_createdAt m
                 ∧ (m_read m = true → m_read m' = true)).
Proof.
  intros Hm.
  assert (H2 : ∀ id, (markMessageAsRead id t).2 = (update_read_returning id t).2) by done.
  split.
  - intros Hread. split.
    + intros id. rewrite H2, getMessage_update, Hm. simpl.
      case_decide; [|done]. destruct m. simpl in *. by subst.
    + intros now v. unfold getMessage in *. simpl. rewrite filter_app.
      destruct (filter _ (rows t)); [done|]. done.
  - intros id. rewrite H2, getMessage_update, Hm. simpl.
    case_decide; eexists; (split; [done|]); by destruct m.
Qed.

Lemma read_is_monotone_witness :
  getMessage 1 example_table
  = Some {| m_id := 1; m_senderId := 2; m_receiverId := 1; m_content := "a";
            m_read := true; m_createdAt := 100 |}
  ∧ getMessage 1 (markMessageAsRead 3 example_table).2 = getMessage 1 example_table.
Proof.
  split; [reflexivity|].
  destruct (read_is_monotone 1 example_table _ eq_refl) as [H _].
  destruct (H eq_refl) as [Hmark _]. by rewrite (Hmark 3).
Defined.

Lemma getUnreadMessageCount_length userId t :
  getUnreadMessageCount userId t
  = Z.of_nat (length (filter (λ m, m_receiverId m = userId ∧ m_read m = false)
                             (rows t))).
Proof.
  unfold getUnreadMessageCount.
  destruct (Z.eqb_spec (Z.of_nat (length (filter (λ m, m_receiverId m = userId
                                                      ∧ m_read m = false) (rows t)))) 0);
    congruence.
Qed.

Lemma update_split (l : list Message) m :
  NoDup (m_id <$> l) → m ∈ l →
  ∃ l1 l2,
    l = l1 ++ m :: l2
    ∧ (λ m', if decide (m_id m' = m_id m) then set_read_true m' else m') <$> l
      = l1 ++ set_read_true m :: l2.
Proof.
  intros Hnd Hin. destruct (list_elem_of_split _ _ Hin) as (l1 & l2 & ->).
  exists l1, l2. split; [done|].
  rewrite fmap_app, fmap_cons in Hnd. apply NoDup_app in Hnd as (_ & Hdisj & Hnd).
  apply NoDup_cons in Hnd as [Hfresh _].
  rewrite fmap_app, fmap_cons. rewrite decide_True by done.
  f_equal; [|f_equal].
  - rewrite <- (list_fmap_id l1) at 2. apply list_fmap_ext.
    intros _ x Hx%list_elem_of_lookup_2. simpl. case_decide as Hid; [|done].
    exfalso. apply (Hdisj (m_id m)); [|left]. rewrite <- Hid.
    by apply list_elem_of_fmap_2.
  - rewrite <- (list_fmap_id l2) at 2. apply list_fmap_ext.
    intros _ x Hx%list_elem_of_lookup_2. simpl. case_decide as Hid; [|done].
    exfalso. apply Hfresh. rewrite <- Hid. by apply list_elem_of_fmap_2.
Qed.

(** X12: the unread count of a user goes up by one with every insert
    addressed to that user and is untouched by inserts addressed to
    others; marking a message read takes one off the count of its
    receiver if the message was unread, and changes no other count. *)
Theorem unread_count_bookkeeping userId t :
  (∀ now v,
     getUnreadMessageCount userId (insert_returning now v t).2
     = getUnreadMessageCount userId t
       + (if decide (i_receiverId v = userId) then 1 else 0))
  ∧ (table_wf t →
     ∀ id m, getMessage id t = Some m →
       getUnreadMessageCount userId (markMessageAsRead id t).2
       = getUnreadMessageCount userId t
         - (if decide (m_receiverId m = userId ∧ m_read m = false) then 1 else 0))
  ∧ 0 ≤ getUnreadMessageCount userId t.
Proof.
  split; [|split].
  - intros now v. rewrite !getUnreadMessageCount_length. simpl.
    rewrite filter_app, length_app, filter_cons, filter_nil. simpl.
    case_decide as H1; case_decide as H2; simpl in *; try lia; exfalso; tauto.
  - intros [Hnd _] id m Hm. destruct (getMessage_Some id t m Hm) as [Hin <-].
    rewrite !getUnreadMessageCount_length.
    change (rows (markMessageAsRead (m_id m) t).2)
      with ((λ m', if decide (m_id m' = m_id m) then set_read_true m' else m')
              <$> rows t).
    destruct (update_split (rows t) m Hnd Hin) as (l1 & l2 & Hl & ->).
    rewrite Hl, !filter_app, !length_app, !filter_cons. simpl.
    rewrite (decide_False (P := m_receiverId m = userId ∧ true = false))
      by (by intros [_ ?]).
    case_decide; simpl; lia.
  - rewrite getUnreadMessageCount_length. lia.
Qed.

Lemma unread_count_bookkeeping_witness :
  table_wf example_table
  ∧ getUnreadMessageCount 1 example_table = 2
  ∧ getUnreadMessageCount 1 (markMessageAsRead 3 example_table).2 = 1
  ∧ getUnreadMessageCount 2 (markMessageAsRead 3 example_table).2 = 1.
Proof.
  assert (Hwf : table_wf example_table).
  { split; [compute_done|]. repeat constructor. }
  split; [exact Hwf|]. split; [reflexivity|].
  split.
  - destruct (unread_count_bookkeeping 1 example_table) as (_ & H & _).
    rewrite (H Hwf 3 _ eq_refl). reflexivity.
  - destruct (unread_count_bookkeeping 2 example_table) as (_ & H & _).
    rewrite (H Hwf 3 _ eq_refl). reflexivity.
Defined.

(** [ORDER BY ... DESC LIMIT n] over any selection of rows: what the page
    is, whichever way equal timestamps are ordered. *)
Lemma order_limit_page (all : list Message) limit :
  let page := take limit (orderBy_createdAt_desc all) in
  StronglySorted newer_first page
  ∧ length page = Nat.min limit (length all)
  ∧ page ⊆+ all
  ∧ (∀ m m', m ∈ page → m' ∈ all → m' ∉ page → m_createdAt m' ≤ m_createdAt m)
  ∧ ((length all ≤ limit)%nat → page ≡ₚ all).
Proof.
  intros page. unfold page, orderBy_createdAt_desc.
  set (sorted := merge_sort newer_first all).
  assert (Hperm : sorted ≡ₚ all) by apply merge_sort_Permutation.
  assert (Hss : StronglySorted newer_first (take limit sorted ++ drop limit sorted)).
  { rewrite take_drop. apply StronglySorted_merge_sort; apply _. }
  split; [by apply StronglySorted_app_1_l in Hss|].
  split; [by rewrite length_take, Hperm|].
  split; [rewrite <- Hperm; apply sublist_submseteq, sublist_take|].
  split.
  - intros m m' Hm Hall Hout.
    assert (Hin : m' ∈ take limit sorted ++ drop limit sorted)
      by (by rewrite take_drop, Hperm).
    apply elem_of_app in Hin as [?|Hdrop]; [done|].
    exact (StronglySorted_app_1_elem_of _ _ _ m m' Hss Hm Hdrop).
  - intros Hlen. rewrite take_ge; [done|]. by rewrite Hperm.
Qed.

Lemma conversation_page_lemma user1Id user2Id limit t :
  let all := filter (between_users user1Id user2Id) (rows t) in
  let page := getMessagesBetweenUsers user1Id user2Id limit t in
  StronglySorted newer_first page
  ∧ length page = Nat.min limit (length all)
  ∧ page ⊆+ all
  ∧ (∀ m m', m ∈ page → m' ∈ all → m' ∉ page → m_createdAt m' ≤ m_createdAt m)
  ∧ ((length all ≤ limit)%nat → page ≡ₚ all).
Proof. intros all page. apply order_limit_page. Qed.

(** X13: the page [getMessagesBetweenUsers] returns is ordered newest
    first, holds [min limit n] of the [n] rows exchanged by the two users
    and nothing else, each row at most once per occurrence; any row of
    the conversation left out is at most as new as every row kept; when
    the conversation fits in the limit the page is the whole conversation;
    and the selection is the same whichever of the two users is given
    first. *)
Theorem conversation_page user1Id user2Id limit t :
  let all := filter (between_users user1Id user2Id) (rows t) in
  let page := getMessagesBetweenUsers user1Id user2Id limit t in
  StronglySorted newer_first page
  ∧ length page = Nat.min limit (length all)
  ∧ page ⊆+ all
  ∧ (∀ m m', m ∈ page → m' ∈ all → m' ∉ page → m_createdAt m' ≤ m_createdAt m)
  ∧ ((length all ≤ limit)%nat → page ≡ₚ all)
  ∧ all = filter (between_users user2Id user1Id) (rows t).
Proof.
  intros all page.
  destruct (order_limit_page all limit) as (H1 & H2 & H3 & H4 & H5).
  repeat (split; [done|]).
  apply list_filter_iff. intros m. unfold between_users. tauto.
Qed.

Example conversation_page_example :
  getMessagesBetweenUsers 1 2 50 example_table
  = [ {| m_id := 3; m_senderId := 2; m_receiverId := 1; m_content := "c";
         m_read := false; m_createdAt := 300 |};
      {| m_id := 2; m_senderId := 1; m_receiverId := 2; m_content := "b";
         m_read := false; m_createdAt := 200 |};
      {| m_id := 1; m_senderId := 2; m_receiverId := 1; m_content := "a";
         m_read := true; m_createdAt := 100 |} ]
  ∧ getMessagesBetweenUsers 1 2 2 example_table
    = [ {| m_id := 3; m_senderId := 2; m_receiverId := 1; m_content := "c";
           m_read := false; m_createdAt := 300 |};
        {| m_id := 2; m_senderId := 1; m_receiverId := 2; m_content := "b";
           m_read := false; m_createdAt := 200 |} ].
Proof. split; vm_compute; reflexivity. Qed.

Lemma conversation_page_witness :
  (length (filter (between_users 1 2) (rows example_table)) ≤ 50)%nat
  ∧ getMessagesBetweenUsers 1 2 50 example_table
    ≡ₚ filter (between_users 1 2) (rows example_table)
  ∧ length (getMessagesBetweenUsers 1 2 2 example_table) = 2%nat.
Proof.
  assert (Hlen : (length (filter (between_users 1 2) (rows example_table)) ≤ 50)%nat).
  { vm_compute. lia. }
  split; [exact Hlen|]. split.
  - destruct (conversation_page 1 2 50 example_table) as (_ & _ & _ & _ & H & _).
    exact (H Hlen).
  - destruct (conversation_page 1 2 2 example_table) as (_ & H & _).
    rewrite H. reflexivity.
Defined.

Lemma skip_serial_wf t : table_wf t → table_wf (skip_serial t).
Proof.
  intros [Hnd Hlt]. split; [done|]. simpl.
  eapply Forall_impl; [exact Hlt|]. simpl. intros. lia.
Qed.

Lemma read_since_update id (l : list Message) :
  Forall2 read_since l
    ((λ m, if decide (m_id m = id) then set_read_true m else m) <$> l).
Proof.
  apply Forall2_fmap_r, Forall_Forall2_diag, Forall_forall.
  intros m _. simpl. case_decide; [by right|by left].
Qed.

Lemma read_since_trans (l1 l2 l3 : list Message) :
  Forall2 read_since l1 l2 → Forall2 read_since l2 l3 → Forall2 read_since l1 l3.
Proof.
  intros H12. revert l3. induction H12 as [|a b l1 l2 Hab _ IH]; intros l3 H23.
  - by inversion H23.
  - inversion H23 as [|b' c l2' l3' Hbc H23']; subst. constructor; [|by apply IH].
    destruct Hab as [-> | ->], Hbc as [-> | ->]; (by left) || (by right).
Qed.

(** What one activity does to the messages table. *)
Lemma act_table secret w a w' out :
  table_wf (messages w) →
  act secret w a = Some (w', out) →
  Forall2 read_since (rows (messages w) ++ persisted out) (rows (messages w'))
  ∧ table_wf (messages w')
  ∧ next_id (messages w) ≤ next_id (messages w')
  ∧ (persisted out = []
     ∨ ∃ m, persisted out = [m] ∧ m_id m = next_id (messages w)
            ∧ m_id m < next_id (messages w') ∧ m_read m = false).
Proof.
  intros Hwf Hact.
  assert (Hrefl : ∀ l : list Message, Forall2 read_since l l).
  { intros l. apply Forall_Forall2_diag, Forall_forall. intros m _. by left. }
  destruct a as [e|id]; simpl in Hact.
  - apply step_turn in Hact.
    destruct Hact;
      cbn [messages set_messages set_awaiting set_readyState add_listeners
           set_clients on_close persisted];
      rewrite ?persisted_pushes, ?app_nil_r;
      try (split; [apply Hrefl|split; [done|split; [lia|by left]]]).
    + rewrite persisted_app, persisted_pushes_to, persisted_pushes, app_nil_r.
      split; [apply Hrefl|]. split; [by apply insert_returning_wf|].
      split; [simpl; lia|]. right. eexists. split; [done|]. simpl.
      split; [done|]. split; [lia|done].
    + destruct serial_drawn.
      * split; [apply Hrefl|]. split; [by apply skip_serial_wf|].
        split; [simpl; lia|by left].
      * split; [apply Hrefl|]. split; [done|]. split; [lia|by left].
  - injection Hact as <- <-. cbn [messages set_messages persisted].
    rewrite app_nil_r.
    split; [apply read_since_update|]. split; [by apply (update_wf id)|].
    split; [simpl; lia|by left].
Qed.

Lemma reachable_table_wf secret w tr :
  reachable secret w tr → table_wf (messages w).
Proof.
  induction 1 as [|w tr e w' out _ IH Hstep].
  - split; [constructor|constructor].
  - by destruct (act_table secret w (Turn e) w' out IH Hstep) as (_ & ? & _).
Qed.

(** X4: start from any messages table whose ids are distinct and below
    the serial, and let the socket server take turns while routes mark
    messages read, in any interleaving.  Then the table holds, in order,
    the rows it had followed by the rows reported persisted, each as it
    was stored but for a read flag that may have been set since; ids stay
    distinct and below the serial, and the serial never goes back; the
    rows reported persisted were inserted unread, under ids that the
    table had not used and that grow strictly from one row to the next
    (a rejected insert that drew an id leaves a gap). *)
Theorem table_holds_exactly_the_persisted_rows secret w0 l w out :
  table_wf (messages w0) →
  acts secret w0 l = Some (w, out) →
  Forall2 read_since (rows (messages w0) ++ persisted out) (rows (messages w))
  ∧ table_wf (messages w)
  ∧ next_id (messages w0) ≤ next_id (messages w)
  ∧ StronglySorted Z.lt (m_id <$> persisted out)
  ∧ Forall (λ m, next_id (messages w0) ≤ m_id m < next_id (messages w)
                 ∧ m_read m = false) (persisted out).
Proof.
  revert w0 out. induction l as [|a l IH]; intros w0 out Hwf Hacts; simpl in Hacts.
  - injection Hacts as <- <-. simpl. rewrite app_nil_r.
    split; [apply Forall_Forall2_diag, Forall_forall; intros m _; by left|].
    split; [done|]. split; [lia|]. split; constructor.
  - destruct (act secret w0 a) as [[w1 out1]|] eqn:Hact; [|done].
    destruct (acts secret w1 l) as [[w2 out2]|] eqn:Hrest; [|done].
    injection Hacts as <- <-.
    destruct (act_table secret w0 a w1 out1 Hwf Hact) as (H1 & Hwf1 & Hn1 & Hp1).
    destruct (IH w1 out2 Hwf1 Hrest) as (H2 & Hwf2 & Hn2 & Hs2 & Hb2).
    rewrite persisted_app.
    split; [|split; [done|split; [lia|]]].
    + rewrite app_assoc. apply (read_since_trans _ (rows (messages w1) ++ persisted out2));
        [|done].
      apply Forall2_app; [done|].
      apply Forall_Forall2_diag, Forall_forall. intros m _. by left.
    + assert (Hb2' : Forall (λ m, next_id (messages w0) ≤ m_id m < next_id (messages w2)
                                  ∧ m_read m = false) (persisted out2)).
      { eapply Forall_impl; [exact Hb2|]. simpl. intros m [? ?]. split; [lia|done]. }
      destruct Hp1 as [->|(m & -> & Hid & Hlt & Hread)]; [by split|].
      split.
      * cbn [app fmap list_fmap]. apply SSorted_cons; [done|].
        apply Forall_fmap. eapply Forall_impl; [exact Hb2|]. simpl. intros m' [? _]. lia.
      * cbn [app]. apply Forall_cons. split; [|done]. split; [lia|done].
Qed.

(** The table of the example after a rejected insert that drew an id,
    a committed one, and a route marking the new row read. *)
Lemma table_holds_exactly_the_persisted_rows_witness :
  table_wf (messages example_world)
  ∧ ∃ w out,
      acts example_secret example_world
        [Turn (Frame 0%nat example_frame); Turn (Settle 0%nat (DbReject true));
         Turn (Frame 0%nat example_frame);
         Turn (Settle 0%nat (DbCommit 2000 2 "hi")); MarkRead 2]
      = Some (w, out)
      ∧ persisted out
        = [ {| m_id := 2; m_senderId := 1; m_receiverId := 2; m_content := "hi";
               m_read := false; m_createdAt := 2000 |} ]
      ∧ rows (messages w)
        = [ {| m_id := 2; m_senderId := 1; m_receiverId := 2; m_content := "hi";
               m_read := true; m_createdAt := 2000 |} ]
      ∧ Forall2 read_since (persisted out) (rows (messages w)).
Proof.
  assert (Hwf : table_wf (messages example_world)) by (split; constructor).
  split; [exact Hwf|].
  destruct (acts example_secret example_world
              [Turn (Frame 0%nat example_frame); Turn (Settle 0%nat (DbReject true));
               Turn (Frame 0%nat example_frame);
               Turn (Settle 0%nat (DbCommit 2000 2 "hi")); MarkRead 2])
    as [[w out]|] eqn:Hacts; [|by vm_compute in Hacts].
  destruct (table_holds_exactly_the_persisted_rows example_secret example_world _
              w out Hwf Hacts) as (Hrows & _).
  exists w, out. split; [reflexivity|].
  vm_compute in Hacts. injection Hacts as <- <-.
  split; [reflexivity|]. split; [reflexivity|]. exact Hrows.
Defined.

(** X14: live push and later fetch agree.  When a relay commits in a
    world the server can reach, the row carried by every [message] event
    it writes is exactly what [getMessage] returns for that id right
    after; it belongs to the conversation of its sender and receiver, and
    is on the fetched page whenever the earlier conversation is shorter
    than the limit; and marking messages read afterwards changes nothing
    of it but, possibly, the read flag. *)
Theorem pushed_message_is_what_the_store_returns
    secret w tr i now receiverId content w' out s m :
  reachable secret w tr →
  step secret w (Settle i (DbCommit now receiverId content)) = Some (w', out) →
  Send s (message m) ∈ out →
  getMessage (m_id m) (messages w') = Some m
  ∧ (∀ limit,
       (length (filter (between_users (m_senderId m) (m_receiverId m))
                       (rows (messages w))) < limit)%nat →
       m ∈ getMessagesBetweenUsers (m_senderId m) (m_receiverId m) limit (messages w'))
  ∧ (∀ id, ∃ m', getMessage (m_id m) (markMessageAsRead id (messages w')).2 = Some m'
                 ∧ m_id m' = m_id m ∧ insert_of m' = insert_of m
                 ∧ m_createdAt m' = m_createdAt m).
Proof.
  intros Hreach Hstep Hin.
  pose proof (reach_step secret w tr _ w' out Hreach Hstep) as Hreach'.
  pose proof (reachable_table_wf secret w' _ Hreach') as Hwf'.
  assert (Hrow : m ∈ rows (messages w')
                 ∧ rows (messages w') = rows (messages w) ++ [m]).
  { apply step_turn in Hstep.
    inversion Hstep as [| | | | |i' v now' r' c' Hv Hr Hc| | | |]; subst.
    apply elem_of_cons in Hin as [?|[Hin|Hin]%elem_of_app]; [done| |].
    - apply elem_of_pushes_to in Hin as (Heq & _).
      injection Heq as ->. simpl. split; [|done]. apply elem_of_app. right. left.
    - by apply elem_of_pushes in Hin as (Heq & _). }
  destruct Hrow as [Hrow Hrows].
  assert (Hget : getMessage (m_id m) (messages w') = Some m)
    by (by apply getMessage_wf).
  split; [done|]. split.
  - intros limit Hlen.
    destruct (conversation_page_lemma (m_senderId m) (m_receiverId m) limit (messages w'))
      as (_ & _ & _ & _ & Hall).
    assert (Hm : m ∈ filter (between_users (m_senderId m) (m_receiverId m))
                        (rows (messages w'))).
    { apply list_elem_of_filter. split; [left; done|done]. }
    rewrite Hall; [done|].
    rewrite Hrows, filter_app, length_app, filter_cons_True by (by left).
    simpl. lia.
  - intros id. by apply getMessage_after_mark.
Qed.

Lemma pushed_message_is_what_the_store_returns_witness :
  reachable example_secret (example_world_awaiting example_values)
    [CallCreateMessage example_values]
  ∧ getMessage 1 (messages example_world_relayed) = Some example_row
  ∧ example_row ∈ getMessagesBetweenUsers 1 2 50 (messages example_world_relayed).
Proof.
  split; [apply example_awaiting_reachable|].
  assert (Hstep : step example_secret (example_world_awaiting example_values)
                    (Settle 0%nat (DbCommit 2000 2 "hi"))
                  = Some (example_world_relayed,
                          [Persisted example_row; Send 2%nat (message example_row);
                           Send 0%nat (message_sent 1); Send 1%nat (message_sent 1)])).
  { vm_compute. reflexivity. }
  destruct (pushed_message_is_what_the_store_returns example_secret _ _ 0%nat 2000
              2 "hi" _ _ 2%nat example_row example_awaiting_reachable Hstep)
    as (H1 & H2 & _); [right; left|].
  split; [exact H1|]. apply (H2 50%nat). vm_compute. lia.
Defined.

(** * The conversation route *)

Lemma mark_all_nil l : mark_all [] l = l.
Proof.
  unfold mark_all. rewrite <- (list_fmap_id l) at 2. apply list_fmap_ext.
  by intros _ m _.
Qed.

Lemma mark_all_cons id ids l :
  mark_all ids ((λ m, if decide (m_id m = id) then set_read_true m else m) <$> l)
  = mark_all (id :: ids) l.
Proof.
  unfold mark_all. rewrite <- list_fmap_compose. apply list_fmap_ext.
  intros _ m _. cbn beta. unfold compose.
  destruct (decide (m_id m = id)) as [Hid|Hid]; cbn [m_id set_read_true];
    repeat case_decide; try done; exfalso;
    repeat match goal with
           | H : context [_ ∈ _ :: _] |- _ => rewrite elem_of_cons in H
           end; tauto.
Qed.

(** What the loop leaves behind: the ids it marked are a prefix of the
    ids it was to mark, all of them if no call was rejected. *)
Lemma mark_fetched_read_spec otherUserId fetched b t :
  ∃ marked,
    marked `prefix_of` (m_id <$> filter (unread_from otherUserId) fetched)
    ∧ rows (mark_fetched_read otherUserId fetched b t).2 = mark_all marked (rows t)
    ∧ next_id (mark_fetched_read otherUserId fetched b t).2 = next_id t
    ∧ ((mark_fetched_read otherUserId fetched b t).1 = Ok tt
       → marked = m_id <$> filter (unread_from otherUserId) fetched)
    ∧ ((mark_fetched_read otherUserId fetched b t).1 = Ok tt
       ↔ enough b (length (filter (unread_from otherUserId) fetched))).
Proof.
  revert b t. induction fetched as [|m fetched IH]; intros b t;
    cbn [mark_fetched_read].
  - exists []. rewrite mark_all_nil. split; [done|]. split; [done|].
    split; [done|]. split; [done|]. split; [|done]. intros _. destruct b; simpl; lia.
  - destruct (decide (unread_from otherUserId m)) as [Hm|Hm].
    + rewrite filter_cons_True by done. rewrite fmap_cons.
      destruct b as [[|k]|]; cbn [answered length].
      * exists []. rewrite mark_all_nil. split; [apply prefix_nil|].
        split; [done|]. split; [done|]. split; [done|]. split; [done|simpl; lia].
      * destruct (IH (Some k) (markMessageAsRead (m_id m) t).2)
          as (marked & Hpre & Hrows & Hnext & Hall & Hiff).
        exists (m_id m :: marked). split; [by apply prefix_cons|].
        split; [rewrite Hrows; apply mark_all_cons|]. split; [by rewrite Hnext|].
        split; [intros H; by rewrite (Hall H)|].
        rewrite Hiff. simpl. lia.
      * destruct (IH None (markMessageAsRead (m_id m) t).2)
          as (marked & Hpre & Hrows & Hnext & Hall & Hiff).
        exists (m_id m :: marked). split; [by apply prefix_cons|].
        split; [rewrite Hrows; apply mark_all_cons|]. split; [by rewrite Hnext|].
        split; [intros H; by rewrite (Hall H)|done].
    + rewrite filter_cons_False by done. apply IH.
Qed.

Lemma filter_id_fmap (f : Message → Message) id (l : list Message) :
  (∀ m, m_id (f m) = m_id m) →
  filter (λ m, m_id m = id) (f <$> l) = f <$> filter (λ m, m_id m = id) l.
Proof.
  intros Hf. induction l as [|m l IH]; csimpl; [done|].
  destruct (decide (m_id m = id)) as [Hm|Hm].
  - rewrite !filter_cons_True; [|done|by rewrite Hf]. csimpl. by rewrite IH.
  - rewrite !filter_cons_False; [done|done|by rewrite Hf].
Qed.

Lemma getMessage_mark_all ids id t t' :
  rows t' = mark_all ids (rows t) →
  getMessage id t'
  = (λ m, if decide (m_id m ∈ ids) then set_read_true m else m) <$> getMessage id t.
Proof.
  intros Hrows. unfold getMessage. rewrite Hrows. unfold mark_all.
  rewrite filter_id_fmap; [|intros m; by case_decide].
  by destruct (filter _ (rows t)).
Qed.

Lemma same_id_same_row t m m' :
  table_wf t → m ∈ rows t → m' ∈ rows t → m_id m = m_id m' → m = m'.
Proof.
  intros Hwf Hm Hm' Hid.
  pose proof (getMessage_wf t m Hwf Hm) as H1.
  pose proof (getMessage_wf t m' Hwf Hm') as H2.
  rewrite Hid in H1. congruence.
Qed.

Lemma page_rows userId otherUserId limit t m :
  m ∈ getMessagesBetweenUsers userId otherUserId limit t →
  m ∈ rows t ∧ between_users userId otherUserId m.
Proof.
  intros Hm.
  destruct (conversation_page_lemma userId otherUserId limit t) as (_ & _ & Hsub & _).
  pose proof (elem_of_submseteq _ _ _ Hm Hsub) as Hin.
  apply list_elem_of_filter in Hin. tauto.
Qed.

Lemma get_conversation_spec userId otherUserId b t :
  ∃ marked,
    marked `prefix_of`
      (m_id <$> filter (unread_from otherUserId)
                       (getMessagesBetweenUsers userId otherUserId 50 t))
    ∧ rows (get_conversation userId otherUserId b t).2 = mark_all marked (rows t)
    ∧ next_id (get_conversation userId otherUserId b t).2 = next_id t
    ∧ ((get_conversation userId otherUserId b t).1
       = {| res_status := 200;
            res_body := json_messages (getMessagesBetweenUsers userId otherUserId 50 t) |}
       ∧ marked = m_id <$> filter (unread_from otherUserId)
                                  (getMessagesBetweenUsers userId otherUserId 50 t)
       ∧ enough b (calls_needed userId otherUserId t)
       ∨ (get_conversation userId otherUserId b t).1
         = {| res_status := 500;
              res_body := json_message "Server error while fetching messages" |}
         ∧ ¬ enough b (calls_needed userId otherUserId t)).
Proof.
  unfold get_conversation, calls_needed.
  set (fetched := getMessagesBetweenUsers userId otherUserId 50 t).
  destruct b as [[|k]|]; cbn [answered].
  - exists []. rewrite mark_all_nil. split; [apply prefix_nil|]. split; [done|].
    split; [done|]. right. split; [done|]. simpl. lia.
  - destruct (mark_fetched_read_spec otherUserId fetched (Some k) t)
      as (marked & Hpre & Hrows & Hnext & Hall & Hiff).
    exists marked.
    destruct (mark_fetched_read otherUserId fetched (Some k) t) as [[[]|] t'];
      simpl in *; (split; [done|]); (split; [done|]); (split; [done|]).
    + left. split; [done|]. split; [by apply Hall|].
      assert (Hk : (length (filter (unread_from otherUserId) fetched) ≤ k)%nat)
        by (by apply Hiff).
      simpl. lia.
    + right. split; [done|]. intros Hk. assert (Throw = Ok tt); [|done].
      apply Hiff. lia.
  - destruct (mark_fetched_read_spec otherUserId fetched None t)
      as (marked & Hpre & Hrows & Hnext & Hall & Hiff).
    exists marked.
    destruct (mark_fetched_read otherUserId fetched None t) as [[[]|] t'];
      simpl in *; (split; [done|]); (split; [done|]); (split; [done|]).
    + left. split; [done|]. split; [by apply Hall|done].
    + exfalso. assert (Throw = Ok tt); [|done]. by apply Hiff.
Qed.

(** X15: whatever the database does during [GET /api/messages/:userId],
    the route changes nothing in the messages table but read flags, only
    from false to true, and only on rows of the fetched page that were
    sent by the other user to the requester: no row is added or removed,
    every id still looks up the same sender, receiver, content and
    creation time. *)
Theorem conversation_fetch_only_marks_received_rows userId otherUserId b t id m :
  table_wf t →
  getMessage id t = Some m →
  length (rows (get_conversation userId otherUserId b t).2) = length (rows t)
  ∧ next_id (get_conversation userId otherUserId b t).2 = next_id t
  ∧ ∃ m',
      getMessage id (get_conversation userId otherUserId b t).2 = Some m'
      ∧ m_id m' = m_id m ∧ insert_of m' = insert_of m
      ∧ m_createdAt m' = m_createdAt m
      ∧ (m_read m = true → m' = m)
      ∧ (m' ≠ m →
         m' = set_read_true m
         ∧ m_senderId m = otherUserId ∧ m_receiverId m = userId
         ∧ m ∈ getMessagesBetweenUsers userId otherUserId 50 t).
Proof.
  intros Hwf Hm.
  destruct (get_conversation_spec userId otherUserId b t)
    as (marked & Hpre & Hrows & Hnext & _).
  split; [rewrite Hrows; unfold mark_all; by rewrite length_fmap|].
  split; [done|].
  rewrite (getMessage_mark_all marked id t _ Hrows), Hm. simpl.
  destruct (getMessage_Some id t m Hm) as [Hin Hid].
  case_decide as Hmarked.
  - exists (set_read_true m). split; [done|]. split; [done|]. split; [by destruct m|].
    split; [done|]. split; [intros Hr; destruct m; simpl in *; by subst|].
    intros Hne. split; [done|].
    apply (elem_of_prefix _ _ _ Hmarked) in Hpre. rename Hpre into Hmarked'.
    apply list_elem_of_fmap in Hmarked' as (m0 & Hid0 & Hm0).
    apply list_elem_of_filter in Hm0 as [[Hs Hr] Hpage].
    destruct (page_rows _ _ _ _ _ Hpage) as [Hrow0 Hbetween].
    assert (m = m0) as <- by (by apply (same_id_same_row t)).
    split; [done|]. split; [|done].
    destruct Hbetween as [[? ?]|[? ?]]; congruence.
  - exists m. by repeat split.
Qed.

Lemma conversation_fetch_only_marks_received_rows_witness :
  table_wf example_table
  ∧ getMessage 3 example_table
    = Some {| m_id := 3; m_senderId := 2; m_receiverId := 1; m_content := "c";
              m_read := false; m_createdAt := 300 |}
  ∧ (∃ m', getMessage 3 (get_conversation 1 2 None example_table).2 = Some m'
           ∧ m_id m' = 3 ∧ m_createdAt m' = 300)
  ∧ length (rows (get_conversation 1 2 None example_table).2) = 4%nat.
Proof.
  assert (Hwf : table_wf example_table).
  { split; [compute_done|]. repeat constructor. }
  split; [exact Hwf|]. split; [reflexivity|].
  destruct (conversation_fetch_only_marks_received_rows 1 2 None example_table 3 _
              Hwf eq_refl) as (Hlen & _ & m' & Hget & Hid & _ & Hat & _).
  split; [|exact Hlen]. exists m'. split; [exact Hget|]. split; [exact Hid|exact Hat].
Defined.

(** X16: [GET /api/messages/:userId] answers 200 exactly when the
    database answers the query and every update the page needs, and 500
    with the route's message otherwise.  On 200 the body is the page as it
    was fetched, before the marking (rows just marked still show
    [read = false] in the response); afterwards every fetched row sent by
    the other user is read in the table, and when the whole conversation
    fits on the page no message from the other user to the requester is
    left unread. *)
Theorem conversation_fetch_success userId otherUserId b t :
  table_wf t →
  let fetched := getMessagesBetweenUsers userId otherUserId 50 t in
  let res := (get_conversation userId otherUserId b t).1 in
  let t' := (get_conversation userId otherUserId b t).2 in
  (res_status res = 200 ↔ enough b (calls_needed userId otherUserId t))
  ∧ (res_status res ≠ 200 →
     res = {| res_status := 500;
              res_body := json_message "Server error while fetching messages" |})
  ∧ (res_status res = 200 →
     res_body res = json_messages fetched
     ∧ (∀ m, m ∈ fetched → m_senderId m = otherUserId →
             getMessage (m_id m) t' = Some (set_read_true m))
     ∧ ((length (filter (between_users userId otherUserId) (rows t)) ≤ 50)%nat →
        ∀ m, m ∈ rows t' → m_senderId m = otherUserId → m_receiverId m = userId →
             m_read m = true)).
Proof.
  intros Hwf fetched res t'.
  destruct (get_conversation_spec userId otherUserId b t)
    as (marked & Hpre & Hrows & Hnext & Hcase).
  fold res t' fetched in Hrows, Hnext, Hcase, Hpre.
  destruct Hcase as [(Hres & Hmarked & Hen)|(Hres & Hen)].
  - split; [by rewrite Hres|]. split; [by rewrite Hres|]. intros _.
    split; [by rewrite Hres|]. split.
    + intros m Hm Hs.
      destruct (page_rows _ _ _ _ _ Hm) as [Hrow _].
      rewrite (getMessage_mark_all marked (m_id m) t t' Hrows),
        (getMessage_wf t m Hwf Hrow). simpl.
      case_decide as Hin; [done|].
      destruct (m_read m) eqn:Hr; [by destruct m; simpl in *; subst|].
      exfalso. apply Hin. rewrite Hmarked. apply list_elem_of_fmap_2.
      by apply list_elem_of_filter.
    + intros Hfit m Hm Hs Hr. rewrite Hrows in Hm. unfold mark_all in Hm.
      apply list_elem_of_fmap in Hm as (m0 & -> & Hm0).
      case_decide as Hin; [done|].
      destruct (m_read m0) eqn:Hr0; [done|]. exfalso. apply Hin.
      rewrite Hmarked. apply list_elem_of_fmap_2, list_elem_of_filter.
      split; [done|].
      destruct (conversation_page_lemma userId otherUserId 50 t)
        as (_ & _ & _ & _ & Hall).
      fold fetched in Hall. rewrite (Hall Hfit).
      apply list_elem_of_filter. split; [by right|done].
  - split; [by rewrite Hres|]. split; [done|]. by rewrite Hres.
Qed.

Lemma conversation_fetch_success_witness :
  table_wf example_table
  ∧ res_status (get_conversation 1 2 (Some 2%nat) example_table).1 = 200
  ∧ res_status (get_conversation 1 2 (Some 1%nat) example_table).1 ≠ 200
  ∧ getUnreadMessageCount 1 (get_conversation 1 2 (Some 2%nat) example_table).2 = 1.
Proof.
  assert (Hwf : table_wf example_table).
  { split; [compute_done|]. repeat constructor. }
  split; [exact Hwf|].
  destruct (conversation_fetch_success 1 2 (Some 2%nat) example_table Hwf)
    as (Hiff & _).
  destruct (conversation_fetch_success 1 2 (Some 1%nat) example_table Hwf)
    as (Hiff' & _).
  split; [apply Hiff; vm_compute; lia|].
  split; [|reflexivity].
  intros H%Hiff'. vm_compute in H. lia.
Defined.

Lemma unread_after_marking (l : list Message) ids userId otherUserId :
  (∀ m, m ∈ l →
        m_id m ∈ ids
        ↔ m_senderId m = otherUserId ∧ m_receiverId m = userId ∧ m_read m = false) →
  Z.of_nat (length (filter (λ m, m_receiverId m = userId ∧ m_read m = false)
                           (mark_all ids l)))
  = Z.of_nat (length (filter (λ m, m_receiverId m = userId ∧ m_read m = false) l))
    - Z.of_nat (length (filter (λ m, m_senderId m = otherUserId
                                     ∧ m_receiverId m = userId ∧ m_read m = false) l)).
Proof.
  unfold mark_all. induction l as [|m l IH]; intros Hids; [done|].
  rewrite fmap_cons, !filter_cons.
  assert (Hm := Hids m (ltac:(left))).
  specialize (IH (λ x Hx, Hids x (ltac:(by right)))).
  destruct (decide (m_id m ∈ ids)) as [Hin|Hin].
  - destruct (proj1 Hm Hin) as (Hs & Hr & Hu).
    rewrite (decide_False (P := m_receiverId (set_read_true m) = userId
                                ∧ m_read (set_read_true m) = false))
      by (by intros [_ ?]).
    rewrite !decide_True by done. simpl. lia.
  - repeat case_decide; simpl; try lia; exfalso; tauto.
Qed.

(** X25: after a successful conversation fetch that shows the whole
    conversation, the unread count the requester gets from
    [GET /api/messages/unread/count] has gone down by exactly the number
    of messages the other user had sent them that were unread; the counts
    of messages from third users are untouched. *)
Theorem conversation_fetch_lowers_unread_count userId otherUserId b t :
  table_wf t →
  (length (filter (between_users userId otherUserId) (rows t)) ≤ 50)%nat →
  res_status (get_conversation userId otherUserId b t).1 = 200 →
  get_unread_count userId None (get_conversation userId otherUserId b t).2
  = {| res_status := 200;
       res_body :=
         json_count
           (getUnreadMessageCount userId t
            - Z.of_nat (length (filter (λ m, m_senderId m = otherUserId
                                             ∧ m_receiverId m = userId
                                             ∧ m_read m = false) (rows t)))) |}.
Proof.
  intros Hwf Hfit H200.
  destruct (get_conversation_spec userId otherUserId b t)
    as (marked & _ & Hrows & _ & [(_ & Hmarked & _)|(Hres & _)]);
    [|by rewrite Hres in H200].
  unfold get_unread_count. simpl. do 2 f_equal.
  rewrite !getUnreadMessageCount_length, Hrows.
  apply unread_after_marking. intros m Hm. rewrite Hmarked.
  destruct (conversation_page_lemma userId otherUserId 50 t)
    as (_ & _ & _ & _ & Hall).
  specialize (Hall Hfit). split.
  - intros (m0 & Hid & Hm0)%list_elem_of_fmap.
    apply list_elem_of_filter in Hm0 as [[Hs Hu] Hpage].
    destruct (page_rows _ _ _ _ _ Hpage) as [Hrow0 Hbetween].
    assert (m = m0) as <- by (by apply (same_id_same_row t)).
    split; [done|]. split; [|done].
    destruct Hbetween as [[? ?]|[? ?]]; congruence.
  - intros (Hs & Hr & Hu). apply list_elem_of_fmap_2, list_elem_of_filter.
    split; [done|]. rewrite Hall. apply list_elem_of_filter. split; [by right|done].
Qed.

Lemma conversation_fetch_lowers_unread_count_witness :
  table_wf example_table
  ∧ (length (filter (between_users 1 2) (rows example_table)) ≤ 50)%nat
  ∧ res_status (get_conversation 1 2 None example_table).1 = 200
  ∧ get_unread_count 1 None example_table
    = {| res_status := 200; res_body := json_count 2 |}
  ∧ get_unread_count 1 None (get_conversation 1 2 None example_table).2
    = {| res_status := 200; res_body := json_count 1 |}.
Proof.
  assert (Hwf : table_wf example_table).
  { split; [compute_done|]. repeat constructor. }
  assert (Hfit : (length (filter (between_users 1 2) (rows example_table)) ≤ 50)%nat).
  { vm_compute. lia. }
  split; [exact Hwf|]. split; [exact Hfit|]. split; [reflexivity|].
  split; [reflexivity|].
  rewrite (conversation_fetch_lowers_unread_count 1 2 None example_table Hwf Hfit
             eq_refl).
  reflexivity.
Defined.

(** A rejected update in the middle of the marking: the route answers
    500, and the mark made before it stays. *)
Example conversation_fetch_partial_failure :
  let t := {| rows := [ {| m_id := 1; m_senderId := 2; m_receiverId := 1;
                           m_content := "a"; m_read := false; m_createdAt := 100 |};
                        {| m_id := 2; m_senderId := 2; m_receiverId := 1;
                           m_content := "b"; m_read := false; m_createdAt := 200 |} ];
              next_id := 3 |} in
  res_status (get_conversation 1 2 (Some 2%nat) t).1 = 500
  ∧ m_read <$> rows (get_conversation 1 2 (Some 2%nat) t).2 = [false; true].
Proof. split; vm_compute; reflexivity. Qed.

(** * The HTTP authentication middleware *)

(** X17: [authenticateToken] lets a request through exactly when its
    cookie holds a token that verifies and the user the token names is in
    the users table; [req.user] is then that table row's id, email and
    role.  Without a cookie the answer is 401; a token that does not
    verify, or a rejected user lookup, gives 403; a user that is gone
    gives 401 "User not found". *)
Theorem authenticateToken_outcomes secret now cookie get_user :
  match authenticateToken secret now cookie get_user with
  | Next req_user =>
      ∃ decoded user,
        token_missing cookie = false
        ∧ Jwt.verify cookie secret now = Ok decoded
        ∧ get_user (Jwt.userId (Jwt.payload decoded)) = Resolved (Some user)
        ∧ req_user = user
  | Answer r =>
      (r = {| res_status := 401; res_body := json_message "Authentication required" |}
       ∧ token_missing cookie = true)
      ∨ (r = {| res_status := 403; res_body := json_message "Invalid or expired token" |}
         ∧ token_missing cookie = false
         ∧ (Jwt.verify cookie secret now = Throw
            ∨ ∃ decoded, Jwt.verify cookie secret now = Ok decoded
                ∧ get_user (Jwt.userId (Jwt.payload decoded)) = Rejected))
      ∨ (r = {| res_status := 401; res_body := json_message "User not found" |}
         ∧ ∃ decoded, token_missing cookie = false
             ∧ Jwt.verify cookie secret now = Ok decoded
             ∧ get_user (Jwt.userId (Jwt.payload decoded)) = Resolved None)
  end.
Proof.
  unfold authenticateToken.
  destruct (token_missing cookie) eqn:Hm; [by left|].
  destruct (Jwt.verify cookie secret now) as [decoded|] eqn:Hv; simpl;
    [|right; left; auto].
  destruct (get_user (Jwt.userId (Jwt.payload decoded))) as [[user|]|] eqn:Hu; simpl.
  - exists decoded, user. by destruct user.
  - right. right. split; [done|]. by exists decoded.
  - right. left. split; [done|]. split; [done|]. right. by exists decoded.
Qed.

Example authenticateToken_examples :
  authenticateToken example_secret 1004 None (getUser example_users)
  = Answer {| res_status := 401; res_body := json_message "Authentication required" |}
  ∧ authenticateToken example_secret 1004 example_tampered_token (getUser example_users)
    = Answer {| res_status := 403; res_body := json_message "Invalid or expired token" |}
  ∧ authenticateToken example_secret 1004 (example_token 3) (getUser example_users)
    = Answer {| res_status := 401; res_body := json_message "User not found" |}
  ∧ authenticateToken example_secret 1004 (example_token 1) (λ _, Rejected)
    = Answer {| res_status := 403; res_body := json_message "Invalid or expired token" |}.
Proof. repeat split; vm_compute; reflexivity. Qed.

(** X18: a cookie minted by [createToken] authenticates, for seven days
    and not a second longer, as the user row that the users table holds
    under the token's user id; the email and role in [req.user] are the
    table's, not the token's claims. *)
Theorem minted_cookie_authenticates secret now0 payload t now users user :
  createToken secret now0 payload = Some t →
  getUser users (Jwt.userId payload) = Resolved (Some user) →
  authenticateToken secret now (Some (Jwt.Encoded t)) (getUser users)
  = if bool_decide (now < now0 + 604800) then Next user
    else Answer {| res_status := 403;
                   res_body := json_message "Invalid or expired token" |}.
Proof.
  intros Hmint Huser. remember (getUser users) as get_user eqn:Hget.
  assert (Hspan : Jwt.span_seconds "7d" = Some 604800) by reflexivity.
  unfold createToken, Jwt.sign in Hmint. rewrite Hspan in Hmint.
  injection Hmint as <-. unfold authenticateToken. simpl.
  rewrite bool_decide_eq_true_2 by done.
  case_bool_decide; simpl; [|done]. rewrite Huser. simpl. by destruct user.
Qed.

Lemma minted_cookie_authenticates_witness :
  getUser example_users 1
  = Resolved (Some {| u_id := 1; u_email := "u@example.org"; u_role := "employer" |})
  ∧ ∃ t, login_token example_secret 1000 example_user = Some t
    ∧ authenticateToken example_secret 605799 (Some (Jwt.Encoded t))
        (getUser example_users)
      = Next {| u_id := 1; u_email := "u@example.org"; u_role := "employer" |}
    ∧ authenticateToken example_secret 605800 (Some (Jwt.Encoded t))
        (getUser example_users)
      = Answer {| res_status := 403;
                  res_body := json_message "Invalid or expired token" |}.
Proof.
  split; [reflexivity|].
  destruct (login_token example_secret 1000 example_user) as [t|] eqn:Ht; [|done].
  exists t. split; [reflexivity|]. split.
  - rewrite (minted_cookie_authenticates example_secret 1000 _ t 605799
               example_users _ Ht eq_refl). reflexivity.
  - rewrite (minted_cookie_authenticates example_secret 1000 _ t 605800
               example_users _ Ht eq_refl). reflexivity.
Defined.



(** * Invitation notifications over the database *)

Lemma select_first_Some {A} (col : A → Z) k (t : list A) :
  ∃ r, select_first col k t = Resolved r
       ∧ (∀ x, r = Some x → x ∈ t ∧ col x = k)
       ∧ (r = None → ∀ x, x ∈ t → col x ≠ k).
Proof.
  unfold select_first. eexists. split; [done|]. split.
  - intros x Hx%head_Some_elem_of. apply list_elem_of_filter in Hx. tauto.
  - intros Hnil%head_None x Hx Hk. by apply (filter_nil_not_elem_of _ _ x Hnil).
Qed.



(** * The invitation routes *)

Lemma answered_enough b n :
  enough b (S n) ↔ ∃ b', answered b = Some b' ∧ enough b' n.
Proof.
  destruct b as [[|k]|]; simpl.
  - split; [lia|by intros (b' & ? & _)].
  - split.
    + intros Hk. exists (Some k). split; [done|]. simpl. lia.
    + intros (b' & [= <-] & Hk). simpl in Hk. lia.
  - split; [by exists None|done].
Qed.

(** X21: [POST /api/invitations] creates an invitation, answers 201 with
    the new row and hands its id to the notification exactly when the body
    parses, the job exists, the job's company exists and is owned by the
    requesting user, the candidate profile the body names exists, and the
    database answers the three calls.  The row gets the next id, status
    ["pending"] and the server time; no other row of the database
    changes.  In every other case no row of any table changes and no
    notification is started; the serial of [invitations.id] is then left
    as it was, except when the insert was reached and rejected for the
    missing candidate profile, which costs one id. *)
Theorem post_invitation_creates_only_for_the_owner req_user body now b db :
  let res := (post_invitation req_user body now b db).1.1 in
  let db' := (post_invitation req_user body now b db).1.2 in
  let notify := (post_invitation req_user body now b db).2 in
  (res_status res = 201
   ↔ ∃ v job company,
       body = Some v
       ∧ lookup_by job_id (ii_jobId v) (t_jobs (db_tables db)) = Some job
       ∧ lookup_by co_id (job_companyId job) (t_companies (db_tables db)) = Some company
       ∧ co_ownerId company = u_id req_user
       ∧ is_Some (lookup_by cp_id (ii_candidateId v)
                            (t_candidateProfiles (db_tables db)))
       ∧ enough b 3)
  ∧ (res_status res = 201 →
     ∃ v, body = Some v
       ∧ res_body res
         = json_invitation
             (Some {| inv_id := db_invitation_serial db; inv_jobId := ii_jobId v;
                      inv_candidateId := ii_candidateId v;
                      inv_message := ii_message v; inv_status := "pending";
                      inv_createdAt := now |})
       ∧ notify = Some (db_invitation_serial db)
       ∧ t_invitations (db_tables db')
         = t_invitations (db_tables db)
           ++ [{| inv_id := db_invitation_serial db; inv_jobId := ii_jobId v;
                  inv_candidateId := ii_candidateId v;
                  inv_message := ii_message v; inv_status := "pending";
                  inv_createdAt := now |}]
       ∧ t_jobs (db_tables db') = t_jobs (db_tables db)
       ∧ t_companies (db_tables db') = t_companies (db_tables db)
       ∧ t_candidateProfiles (db_tables db') = t_candidateProfiles (db_tables db)
       ∧ db_invitation_serial db' = db_invitation_serial db + 1)
  ∧ (res_status res ≠ 201 →
     db_tables db' = db_tables db ∧ notify = None
     ∧ (db' = db ∨ db_invitation_serial db' = db_invitation_serial db + 1)
     ∧ (db_invitation_serial db' = db_invitation_serial db + 1
        ↔ ∃ v job company,
            body = Some v
            ∧ lookup_by job_id (ii_jobId v) (t_jobs (db_tables db)) = Some job
            ∧ lookup_by co_id (job_companyId job) (t_companies (db_tables db))
              = Some company
            ∧ co_ownerId company = u_id req_user
            ∧ lookup_by cp_id (ii_candidateId v) (t_candidateProfiles (db_tables db))
              = None
            ∧ enough b 3)).
Proof.
  intros res db' notify. subst res db' notify.
  unfold post_invitation, createInvitation, invitation_references_hold.
  destruct body as [v|]; simpl.
  2: { split; [split; [done|by intros (?&?&?&?&_)]|]. split; [done|].
       intros _. split; [done|]. split; [done|]. split; [by left|].
       split; [lia|by intros (?&?&?&?&_)]. }
  destruct (lookup_by job_id (ii_jobId v) (t_jobs (db_tables db))) as [job|] eqn:Hj.
  2: { assert (Hno : ¬ ∃ v' job' company',
                 Some v = Some v'
                 ∧ lookup_by job_id (ii_jobId v') (t_jobs (db_tables db)) = Some job'
                 ∧ lookup_by co_id (job_companyId job') (t_companies (db_tables db))
                   = Some company'
                 ∧ co_ownerId company' = u_id req_user).
       { intros (v' & job' & company' & Hb & Hj' & _). simplify_eq. }
       destruct (answered b); simpl;
         (split; [split; [done|intros (?&?&?&?&?&?&?&_); exfalso; apply Hno; eauto 10]|];
          split; [done|]; intros _; split; [done|]; split; [done|];
          split; [by left|]; split; [lia|];
          intros (?&?&?&?&?&?&?&_); exfalso; apply Hno; eauto 10). }
  destruct (lookup_by co_id (job_companyId job) (t_companies (db_tables db)))
    as [company|] eqn:Hc.
  2: { assert (Hno : ¬ ∃ v' job' company',
                 Some v = Some v'
                 ∧ lookup_by job_id (ii_jobId v') (t_jobs (db_tables db)) = Some job'
                 ∧ lookup_by co_id (job_companyId job') (t_companies (db_tables db))
                   = Some company'
                 ∧ co_ownerId company' = u_id req_user).
       { intros (v' & job' & company' & Hb & Hj' & Hc' & _). simplify_eq. }
       destruct (answered b) as [b1|]; simpl; [destruct (answered b1); simpl|];
         (split; [split; [done|intros (?&?&?&?&?&?&?&_); exfalso; apply Hno; eauto 10]|];
          split; [done|]; intros _; split; [done|]; split; [done|];
          split; [by left|]; split; [lia|];
          intros (?&?&?&?&?&?&?&_); exfalso; apply Hno; eauto 10). }
  destruct (decide (co_ownerId company = u_id req_user)) as [Hown|Hown].
  2: { assert (Hno : ¬ ∃ v' job' company',
                 Some v = Some v'
                 ∧ lookup_by job_id (ii_jobId v') (t_jobs (db_tables db)) = Some job'
                 ∧ lookup_by co_id (job_companyId job') (t_companies (db_tables db))
                   = Some company'
                 ∧ co_ownerId company' = u_id req_user).
       { intros (v' & job' & company' & Hb & Hj' & Hc' & Ho). simplify_eq. }
       rewrite bool_decide_eq_true_2 by done.
       destruct (answered b) as [b1|]; simpl; [destruct (answered b1); simpl|];
         (split; [split; [done|intros (?&?&?&?&?&?&?&_); exfalso; apply Hno; eauto 10]|];
          split; [done|]; intros _; split; [done|]; split; [done|];
          split; [by left|]; split; [lia|];
          intros (?&?&?&?&?&?&?&_); exfalso; apply Hno; eauto 10). }
  rewrite bool_decide_eq_false_2 by (by intros ?).
  assert (Hdec : enough b 3 ∨ ¬ enough b 3).
  { destruct b as [k|]; simpl; [|by left]. destruct (decide (3 ≤ k)%nat); auto. }
  destruct Hdec as [Hen|Hen].
  2: { assert (Hfail :
         match answered b with
         | Some b1 => match answered b1 with
                      | Some b2 => answered b2 = None
                      | None => True
                      end
         | None => True
         end).
       { destruct b as [[|[|[|k]]]|]; simpl in *;
           first [done|exfalso; apply Hen; lia]. }
       destruct (answered b) as [b1|]; simpl; [destruct (answered b1) as [b2|]; simpl|];
         rewrite ?Hfail; simpl;
         (split; [split; [done|by intros (?&?&?&?&?&?&?&?&?)]|];
          split; [done|]; intros _; split; [done|]; split; [done|];
          split; [by left|]; split; [lia|];
          by intros (?&?&?&?&?&?&?&?&?)). }
  assert (Hok : ∃ b1 b2 b3, answered b = Some b1 ∧ answered b1 = Some b2
                            ∧ answered b2 = Some b3).
  { destruct b as [[|[|[|k]]]|]; simpl in *; try lia; eauto 10. }
  destruct Hok as (b1 & b2 & b3 & -> & Hb2 & Hb3). simpl. rewrite Hb2. simpl.
  rewrite Hb3.
  destruct (lookup_by cp_id (ii_candidateId v) (t_candidateProfiles (db_tables db)))
    as [profile|] eqn:Hp.
  - rewrite bool_decide_eq_true_2 by (split; by eexists). simpl.
    split; [split; [intros _; exists v, job, company; split_and!; eauto|done]|].
    split; [intros _; exists v; split_and!; done|done].
  - rewrite bool_decide_eq_false_2 by (by intros [_ [? ?]]). simpl.
    split; [split; [done|]|].
    { intros (v' & job' & company' & Hb & _ & _ & _ & [? Hp'] & _).
      simplify_eq. }
    split; [done|]. intros _. split; [done|]. split; [done|].
    split; [by right|]. split; [|done].
    intros _. exists v, job, company. split_and!; done.
Qed.

Lemma post_invitation_creates_only_for_the_owner_witness :
  res_status (post_invitation example_employer
                (Some {| ii_jobId := 9; ii_candidateId := 1; ii_message := None |})
                1000 None example_db).1.1 = 201
  ∧ (post_invitation example_employer
       (Some {| ii_jobId := 9; ii_candidateId := 1; ii_message := None |})
       1000 None example_db).2 = Some 6
  ∧ (post_invitation {| u_id := 8; u_email := "x@example.org"; u_role := "employer" |}
       (Some {| ii_jobId := 9; ii_candidateId := 1; ii_message := None |})
       1000 None example_db).1.2 = example_db
  ∧ (post_invitation example_employer
       (Some {| ii_jobId := 9; ii_candidateId := 7; ii_message := None |})
       1000 None example_db)
    = (server_error "Server error while creating invitation",
       {| db_tables := example_tables_crossed; db_invitation_serial := 7 |}, None).
Proof.
  destruct (post_invitation_creates_only_for_the_owner example_employer
              (Some {| ii_jobId := 9; ii_candidateId := 1; ii_message := None |})
              1000 None example_db) as (Hiff & Hok & _).
  assert (H201 : res_status (post_invitation example_employer
                   (Some {| ii_jobId := 9; ii_candidateId := 1; ii_message := None |})
                   1000 None example_db).1.1 = 201).
  { apply Hiff. eexists _, _, _. split; [reflexivity|]. split; [reflexivity|].
    split; [reflexivity|]. split; [reflexivity|]. split; [by eexists|done]. }
  split; [exact H201|]. split; [|split].
  - destruct (Hok H201) as (v & _ & _ & Hn & _). exact Hn.
  - destruct (post_invitation_creates_only_for_the_owner
                {| u_id := 8; u_email := "x@example.org"; u_role := "employer" |}
                (Some {| ii_jobId := 9; ii_candidateId := 1; ii_message := None |})
                1000 None example_db) as (_ & _ & Hno).
    destruct Hno as (_ & _ & [H|H] & _); [vm_compute; discriminate|exact H|].
    vm_compute in H. discriminate H.
  - vm_compute. reflexivity.
Defined.

(** X22: [PATCH /api/invitations/:id/respond] changes the database
    exactly when the status is ["accepted"] or ["declined"], the
    invitation exists, the requester has a candidate profile, the
    invitation is addressed to that profile, and the database answers the
    three calls; it then answers 200 and sets the status of the rows with
    that id, touching no other row, column or table.  In every other case
    (400, 403, 404, 500) the database is left as it was. *)
Theorem respond_updates_only_own_invitation req_user invitationId status b db :
  let res := (respond_invitation req_user invitationId status b db).1 in
  let db' := (respond_invitation req_user invitationId status b db).2 in
  (res_status res = 200
   ↔ ∃ s invitation profile,
       status = Some s ∧ (s = "accepted" ∨ s = "declined")
       ∧ lookup_by inv_id invitationId (t_invitations (db_tables db)) = Some invitation
       ∧ lookup_by cp_userId (u_id req_user) (t_candidateProfiles (db_tables db))
         = Some profile
       ∧ inv_candidateId invitation = cp_id profile
       ∧ enough b 3)
  ∧ (res_status res = 200 →
     ∃ s, status = Some s
       ∧ res_body res
         = json_invitation
             (set_status s <$> lookup_by inv_id invitationId
                                         (t_invitations (db_tables db)))
       ∧ t_invitations (db_tables db')
         = (λ i, if decide (inv_id i = invitationId) then set_status s i else i)
             <$> t_invitations (db_tables db)
       ∧ t_jobs (db_tables db') = t_jobs (db_tables db)
       ∧ t_companies (db_tables db') = t_companies (db_tables db)
       ∧ t_candidateProfiles (db_tables db') = t_candidateProfiles (db_tables db)
       ∧ db_invitation_serial db' = db_invitation_serial db)
  ∧ (res_status res ≠ 200 → db' = db).
Proof.
  intros res db'. subst res db'.
  unfold respond_invitation, invalid_status.
  destruct status as [s|]; simpl;
    [|split; [split; [done|by intros (?&?&?&?&_)]|by split]].
  case_bool_decide as Hempty; simpl.
  { subst s.
    split; [split; [done|]|by split].
    intros (s' & i & p & [= <-] & [?|?] & _); discriminate. }
  case_bool_decide as Hs; simpl;
    [|split; [split; [done|]|by split];
      intros (s' & i & p & [= <-] & ? & _); by destruct Hs].
  destruct b as [[|[|[|k]]]|]; simpl;
    destruct (lookup_by inv_id invitationId (t_invitations (db_tables db)))
      as [invitation|] eqn:Hi; simpl;
    try destruct (lookup_by cp_userId (u_id req_user)
                            (t_candidateProfiles (db_tables db)))
      as [profile|] eqn:Hp; simpl;
    try case_bool_decide as Hown; simpl;
    (split; [split; [try done|]|split; [try done|try done]]);
    try (intros (s' & i' & p' & Hb & Hs' & Hi' & Hp' & Ho & Hen);
         simplify_eq; simpl in *; try lia; done).
  all: intros _;
    first [refine (ex_intro _ s (ex_intro _ invitation (ex_intro _ profile _)))
          |refine (ex_intro _ s _)];
    split_and!; try done; simpl; lia.
Qed.

Lemma respond_updates_only_own_invitation_witness :
  res_status (respond_invitation example_user 5 (Some "accepted") None example_db).1
    = 403
  ∧ (respond_invitation example_user 5 (Some "accepted") None example_db).2
    = example_db
  ∧ res_status (respond_invitation
                  {| u_id := 2; u_email := "v@example.org"; u_role := "candidate" |}
                  5 (Some "accepted") None example_db).1 = 200.
Proof.
  split; [reflexivity|]. split.
  - destruct (respond_updates_only_own_invitation example_user 5 (Some "accepted")
                None example_db) as (_ & _ & Hno).
    apply Hno. vm_compute. discriminate.
  - destruct (respond_updates_only_own_invitation
                {| u_id := 2; u_email := "v@example.org"; u_role := "candidate" |}
                5 (Some "accepted") None example_db) as (Hiff & _).
    apply Hiff. eexists _, _, _. split; [reflexivity|]. split; [by left|].
    split; [reflexivity|]. split; [reflexivity|]. split; [reflexivity|done].
Defined.

(** * File validation *)

(** X23: [validateFile] accepts a file exactly when its size is at most
    the limit and its MIME type is among the allowed ones, and reports an
    error exactly when it does not accept; an oversized file is reported
    as oversized even if its type is not allowed either; and acceptance
    can only grow with a longer list of types or a larger limit, so every
    file accepted by the PDF-only check of [/api/parse-resume] is accepted
    by the check of [/api/candidate/resume]. *)
Theorem validateFile_accepts file allowedTypes maxSizeBytes :
  (v_valid (validateFile file allowedTypes maxSizeBytes) = true
   ↔ f_size file ≤ maxSizeBytes ∧ f_mimetype file ∈ allowedTypes)
  ∧ (v_valid (validateFile file allowedTypes maxSizeBytes) = true
     ↔ v_error (validateFile file allowedTypes maxSizeBytes) = None)
  ∧ (f_size file > maxSizeBytes →
     v_error (validateFile file allowedTypes maxSizeBytes)
     = Some (size_exceeds_limit maxSizeBytes))
  ∧ (∀ allowedTypes' maxSizeBytes',
       allowedTypes ⊆ allowedTypes' → maxSizeBytes ≤ maxSizeBytes' →
       v_valid (validateFile file allowedTypes maxSizeBytes) = true →
       v_valid (validateFile file allowedTypes' maxSizeBytes') = true)
  ∧ (v_valid (validate_resume_parse file) = true →
     v_valid (validate_resume_upload file) = true).
Proof.
  assert (Hiff : ∀ types limit,
            v_valid (validateFile file types limit) = true
            ↔ f_size file ≤ limit ∧ f_mimetype file ∈ types).
  { intros types limit. unfold validateFile.
    repeat case_bool_decide; simpl; split; try done; try lia; intros [? ?]; try done; lia. }
  split; [apply Hiff|]. split; [|split; [|split]].
  - unfold validateFile. by repeat case_bool_decide.
  - intros Hbig. unfold validateFile. by rewrite bool_decide_eq_true_2.
  - intros types' limit' Hsub Hle [Hs Ht]%Hiff. apply Hiff. split; [lia|by apply Hsub].
  - unfold validate_resume_parse, validate_resume_upload.
    intros [Hs Ht]%Hiff. apply Hiff. split; [done|].
    apply list_elem_of_singleton in Ht. rewrite Ht. left.
Qed.

Lemma validateFile_accepts_witness :
  v_valid (validate_resume_upload
           {| f_originalname := "cv.pdf"; f_mimetype := "application/pdf";
              f_size := 5242880 |}) = true
  ∧ v_error (validate_resume_upload
             {| f_originalname := "cv.exe"; f_mimetype := "application/x-msdownload";
                f_size := 5242881 |})
    = Some (size_exceeds_limit 5242880).
Proof.
  split.
  - destruct (validateFile_accepts
                {| f_originalname := "cv.pdf"; f_mimetype := "application/pdf";
                   f_size := 5242880 |} default_allowedTypes default_maxSizeBytes)
      as (H & _).
    apply H. split; [vm_compute; discriminate|left].
  - destruct (validateFile_accepts
                {| f_originalname := "cv.exe";
                   f_mimetype := "application/x-msdownload";
                   f_size := 5242881 |} default_allowedTypes default_maxSizeBytes)
      as (_ & _ & H & _).
    apply H. vm_compute. reflexivity.
Defined.

Lemma split_on_nonempty sep s : split_on sep s ≠ [].
Proof.
  destruct s as [|c rest]; simpl; [done|].
  case_bool_decide; [done|]. by destruct (split_on sep rest).
Qed.

Lemma split_on_concat sep s :
  String.concat (String sep EmptyString) (split_on sep s) = s.
Proof.
  induction s as [|c rest IH]; simpl; [done|].
  pose proof (split_on_nonempty sep rest) as Hne.
  destruct (split_on sep rest) as [|piece pieces]; [done|].
  case_bool_decide as Hc.
  - subst c. cbn [String.concat]. simpl. by rewrite <- IH.
  - destruct pieces as [|piece' pieces].
    + simpl in *. by rewrite IH.
    + cbn [String.concat] in *. simpl. by rewrite <- IH.
Qed.

Lemma split_on_pieces sep s : Forall (λ p, ¬ occurs sep p) (split_on sep s).
Proof.
  induction s as [|c rest IH]; simpl; [apply Forall_singleton; by intros []|].
  pose proof (split_on_nonempty sep rest) as Hne.
  case_bool_decide as Hc.
  - apply Forall_cons. split; [by intros []|done].
  - destruct (split_on sep rest) as [|piece pieces]; [done|].
    apply Forall_cons in IH as [Hp Hps]. apply Forall_cons. split; [|done].
    simpl. intros [?|?]; done.
Qed.

Lemma split_on_single sep s : ¬ occurs sep s → split_on sep s = [s].
Proof.
  induction s as [|c rest IH]; simpl; [done|]. intros Hno.
  rewrite bool_decide_eq_false_2 by tauto. rewrite IH by tauto. done.
Qed.

Lemma string_append_assoc (a b c : string) :
  String.append (String.append a b) c = String.append a (String.append b c).
Proof.
  induction a as [|x a IH]; [done|].
  change (String x (String.append (String.append a b) c)
          = String x (String.append a (String.append b c))).
  by f_equal.
Qed.

Lemma concat_snoc sep (init : list string) x :
  init ≠ [] →
  String.concat sep (init ++ [x])
  = String.append (String.concat sep init) (String.append sep x).
Proof.
  induction init as [|p init IH]; [done|]. intros _.
  destruct init as [|p' init].
  - done.
  - change (String.concat sep ((p :: p' :: init) ++ [x]))
      with (String.append p (String.append sep
              (String.concat sep ((p' :: init) ++ [x])))).
    rewrite IH by done.
    change (String.concat sep (p :: p' :: init))
      with (String.append p (String.append sep (String.concat sep (p' :: init)))).
    by rewrite !string_append_assoc.
Qed.

(** X24: the extension [uploadToS3] puts in the S3 key is the part of
    the original file name after its last dot: it never contains a dot,
    and the name is the extension itself when the name has no dot (a file
    called "resume" is stored under ["<uuid>.resume"]), otherwise some
    stem, a dot, and the extension.  Splitting a name at the dots and
    joining the pieces with dots gives the name back. *)
Theorem fileExtension_is_the_part_after_the_last_dot originalname :
  ¬ occurs "." (fileExtension originalname)
  ∧ (¬ occurs "." originalname → fileExtension originalname = originalname)
  ∧ (occurs "." originalname →
     ∃ stem, originalname
             = String.append stem (String.append "." (fileExtension originalname)))
  ∧ String.concat "." (split_on "." originalname) = originalname.
Proof.
  unfold fileExtension.
  pose proof (split_on_nonempty "." originalname) as Hne.
  pose proof (split_on_concat "." originalname) as Hjoin.
  pose proof (split_on_pieces "." originalname) as Hpieces.
  destruct (split_on "." originalname) as [|p ps] eqn:Hsplit using rev_ind; [done|].
  clear IHps. rewrite last_snoc. simpl.
  apply Forall_app in Hpieces as [Hinit Hlast].
  rewrite Forall_singleton in Hlast.
  split; [exact Hlast|]. split; [|split; [|done]].
  - intros Hno. rewrite (split_on_single "." originalname Hno) in Hsplit.
    destruct ps as [|q ps]; [by injection Hsplit|].
    destruct ps; discriminate.
  - intros Hdot. destruct ps as [|q ps].
    + simpl in Hjoin. by subst.
    + exists (String.concat "." (q :: ps)). rewrite <- Hjoin. by apply concat_snoc.
Qed.

Example fileExtension_examples :
  fileExtension "cv.final.pdf" = "pdf"
  ∧ fileExtension "resume" = "resume"
  ∧ fileExtension "notes." = EmptyString
  ∧ upload_key "resumes/7" "0b5e" {| f_originalname := "resume";
                                     f_mimetype := "application/pdf"; f_size := 10 |}
    = "resumes/7/0b5e.resume".
Proof. repeat split; vm_compute; reflexivity. Qed.

Lemma fileExtension_is_the_part_after_the_last_dot_witness :
  ¬ occurs "." "resume"
  ∧ fileExtension "resume" = "resume"
  ∧ occurs "." "cv.final.pdf"
  ∧ ∃ stem, "cv.final.pdf" = String.append stem (String.append "." "pdf").
Proof.
  assert (H1 : ¬ occurs "." "resume").
  { simpl. intros H. repeat destruct H as [H|H]; done. }
  assert (H2 : occurs "." "cv.final.pdf").
  { simpl. right. right. by left. }
  split; [exact H1|].
  destruct (fileExtension_is_the_part_after_the_last_dot "resume") as (_ & Hno & _).
  split; [exact (Hno H1)|]. split; [exact H2|].
  destruct (fileExtension_is_the_part_after_the_last_dot "cv.final.pdf")
    as (_ & _ & Hdot & _).
  exact (Hdot H2).
Defined.
